(** * isongn: the section store and the spatial query engine

    A shallow embedding of [world/world.go] (the section cache, its
    persistence and the focal point) and of [gfx/path.go] together with the
    window code of [gfx/view.go] (coordinate mapping, blocker search and the
    A* path finder), followed by the properties established about them. *)

From Stdlib Require Import ZArith Lia List Bool HexadecimalString.
From stdpp Require Import base gmap strings list.

Open Scope Z_scope.

(** ** Go's [int] on a 64-bit platform *)
Module GoInt.

Definition min_int : Z := - 2 ^ 63.
Definition max_int : Z := 2 ^ 63 - 1.

(** The values an [int] variable can hold. *)
Definition in_range (n : Z) : Prop := min_int <= n <= max_int.

(** Two's complement wrap-around of an arithmetic result: a result that
    fits is kept, any other is reduced modulo [2^64] into the range. *)
Definition wrap (n : Z) : Z :=
  if (-9223372036854775808 <=? n) && (n <=? 9223372036854775807) then n
  else (n + 2 ^ 63) mod 2 ^ 64 - 2 ^ 63.

Definition add (a b : Z) : Z := wrap (a + b).
Definition sub (a b : Z) : Z := wrap (a - b).

(** [a / b] and [a % b] truncate toward zero; with the constant divisors of
    this program the quotient cannot overflow. *)
Definition div (a b : Z) : Z := Z.quot a b.
Definition rem (a b : Z) : Z := Z.rem a b.

End GoInt.

(** ** world/world.go *)
Module World.

Definition SECTION_SIZE : Z := 200.
Definition SECTION_Z_SIZE : Z := 24.
Definition VERSION : Byte.byte := Byte.x01.
Definition EDITOR_MODE : Z := 0.
Definition RUNNER_MODE : Z := 1.

Record Position := { Shape : Z }.

Definition zeroPosition : Position := {| Shape := 0 |}.

(** [type Section struct].  A Go array is total on its index range and
    zero-initialised: [position] and [edges] are finite maps from in-range
    indices to cells, an absent key reading as the zero [Position]; the
    bounds check of every indexing is written out where the arrays are
    used ([inPosition], [inEdges]). *)
Record Section_ := {
  secX : Z;
  secY : Z;
  position : gmap (Z * Z * Z) Position;
  edges : gmap (Z * Z) Position
}.

Definition inPosition (ax ay az : Z) : bool :=
  (0 <=? ax) && (ax <? SECTION_SIZE) && (0 <=? ay) && (ay <? SECTION_SIZE)
  && (0 <=? az) && (az <? SECTION_Z_SIZE).

Definition inEdges (ax ay : Z) : bool :=
  (0 <=? ax) && (ax <? SECTION_SIZE) && (0 <=? ay) && (ay <? SECTION_SIZE).

Definition positionAt (s : Section_) (ax ay az : Z) : Position :=
  default zeroPosition (position s !! (ax, ay, az)).

Definition edgeAt (s : Section_) (ax ay : Z) : Position :=
  default zeroPosition (edges s !! (ax, ay)).

Definition setPositionAt (s : Section_) (ax ay az : Z) (v : Z) : Section_ :=
  {| secX := secX s; secY := secY s;
     position := <[(ax, ay, az) := {| Shape := v |}]> (position s);
     edges := edges s |}.

Definition setEdgeAt (s : Section_) (ax ay : Z) (v : Z) : Section_ :=
  {| secX := secX s; secY := secY s;
     position := position s;
     edges := <[(ax, ay) := {| Shape := v |}]> (edges s) |}.

(** [type SectionCache struct]: [cache [4]*Section] and [times [4]int64].
    A slot of [cache] is [None] for a nil pointer.  The sections are owned
    by the cache alone, so a [*Section] handed out by [getSection] is
    modelled by the index of the slot it lives in. *)
Record SectionCache := {
  cache : list (option Section_);
  times : list Z
}.

Definition NewSectionCache : SectionCache :=
  {| cache := replicate 4 None; times := replicate 4 0 |}.

(** The calls the [WorldObserver] has received, oldest first. *)
Inductive Event :=
| SectionLoad (x y : Z)
| SectionSave (x y : Z).

(** The part of the file system the loader touches: the files by path and
    the paths on which [os.Create] and [os.Open] fail. *)
Record FileSystem := {
  files : gmap string (list Byte.byte);
  denied : gset string
}.

(** The Go [error] values of [load] and [save]. *)
Inductive error :=
| ErrCreate | ErrOpen | ErrGzip | ErrRead | ErrDecode.

(** [type Loader struct].  [observer] is modelled by the log of the calls
    it received and [disk] is the file system the process runs on. *)
Record Loader := {
  observer : list Event;
  userDir : string;
  gameDir : string;
  X : Z;
  Y : Z;
  sectionCache : SectionCache;
  ioMode : Z;
  disk : FileSystem
}.

(** How a call ends: a value, a fatal error ([log.Fatal] of a Go [error]),
    or a run-time panic (index out of range, nil dereference). *)
Inductive outcome (A : Type) :=
| Done (a : A)
| Failed (e : error)
| Panic.
Arguments Done {A} a.
Arguments Failed {A} e.
Arguments Panic {A}.

Definition NewLoader (fs : FileSystem) (userDir gameDir : string) : Loader :=
  {| observer := []; userDir := userDir; gameDir := gameDir;
     X := 5000; Y := 5000; sectionCache := NewSectionCache;
     ioMode := EDITOR_MODE; disk := fs |}.

Definition SetIoMode (loader : Loader) (mode : Z) : Loader :=
  {| observer := observer loader; userDir := userDir loader;
     gameDir := gameDir loader; X := X loader; Y := Y loader;
     sectionCache := sectionCache loader; ioMode := mode;
     disk := disk loader |}.

(** [func (loader *Loader) MoveTo(x, y int) bool] *)
Definition MoveTo (loader : Loader) (x y : Z) : Loader * bool :=
  if (0 <=? x) && (0 <=? y)
     && (negb (X loader =? x) || negb (Y loader =? y))
  then ({| observer := observer loader; userDir := userDir loader;
           gameDir := gameDir loader; X := x; Y := y;
           sectionCache := sectionCache loader; ioMode := ioMode loader;
           disk := disk loader |}, true)
  else (loader, false).

Definition GetSectionPos (loader : Loader) : Z * Z :=
  (GoInt.div (X loader) SECTION_SIZE, GoInt.div (Y loader) SECTION_SIZE).

Definition notify (loader : Loader) (e : Event) : Loader :=
  {| observer := observer loader ++ [e]; userDir := userDir loader;
     gameDir := gameDir loader; X := X loader; Y := Y loader;
     sectionCache := sectionCache loader; ioMode := ioMode loader;
     disk := disk loader |}.

Definition withDisk (loader : Loader) (fs : FileSystem) : Loader :=
  {| observer := observer loader; userDir := userDir loader;
     gameDir := gameDir loader; X := X loader; Y := Y loader;
     sectionCache := sectionCache loader; ioMode := ioMode loader;
     disk := fs |}.

Definition withCache (loader : Loader) (c : SectionCache) : Loader :=
  {| observer := observer loader; userDir := userDir loader;
     gameDir := gameDir loader; X := X loader; Y := Y loader;
     sectionCache := c; ioMode := ioMode loader;
     disk := disk loader |}.

(** *** File names *)

(** The verb [%02x] of [fmt.Sprintf] on an [int]: lower-case hexadecimal,
    zero-padded to two characters, the sign of a negative number counting
    as one of them. *)
Definition hexDigits (n : Z) : string :=
  NilZero.string_of_uint (N.to_hex_uint (Z.to_N (Z.abs n))).

Definition fmt02x (n : Z) : string :=
  let d := hexDigits n in
  if n <? 0 then String.append "-" d
  else if (String.length d <? 2)%nat then String.append "0" d else d.

(** [func mapFileName(sx, sy int) string] *)
Definition mapFileName (sx sy : Z) : string :=
  String.append "map" (String.append (fmt02x sx) (fmt02x sy)).

(** [filepath.Join]: the non-empty elements separated by a slash (the
    cleaning of the result is not modelled). *)
Fixpoint filepath_Join (elems : list string) : string :=
  match elems with
  | [] => EmptyString
  | e :: rest =>
      let r := filepath_Join rest in
      if decide (e = EmptyString) then r
      else if decide (r = EmptyString) then e
      else String.append e (String.append "/" r)
  end.

(** *** The codecs of the Go standard library

    [compress/gzip] and [encoding/gob] are not part of the repository: the
    bytes a gzip writer produces for the bytes written to it, the bytes a
    gob encoder emits for one value, and their readers, are parameters.
    A gob decoder consumes the encoding of one value from the front of the
    stream and leaves the rest. *)
Class Codec := {
  gzipWriter : list Byte.byte -> list Byte.byte;
  gzipReader : list Byte.byte -> option (list Byte.byte);
  gobEncodePosition : gmap (Z * Z * Z) Position -> list Byte.byte;
  gobDecodePosition :
    list Byte.byte -> option (gmap (Z * Z * Z) Position * list Byte.byte);
  gobEncodeEdges : gmap (Z * Z) Position -> list Byte.byte;
  gobDecodeEdges :
    list Byte.byte -> option (gmap (Z * Z) Position * list Byte.byte)
}.

(** What the two libraries promise: reading back what was written. *)
Class CodecLaws (codec : Codec) : Prop := {
  gzip_read_write : forall bs, gzipReader (gzipWriter bs) = Some bs;
  gob_position_read_write : forall a rest,
    gobDecodePosition (gobEncodePosition a ++ rest) = Some (a, rest);
  gob_edges_read_write : forall a rest,
    gobDecodeEdges (gobEncodeEdges a ++ rest) = Some (a, rest)
}.

Section Store.
Context {codec : Codec}.

Definition fileExists (fs : FileSystem) (path : string) : bool :=
  bool_decide (is_Some (files fs !! path)).

(** The path [load] settles on: the editor always reads the game
    directory, the runner the user directory when the file is there. *)
Definition loadPath (loader : Loader) (mapName : string) : string :=
  if ioMode loader =? EDITOR_MODE
  then filepath_Join [gameDir loader; "maps"; mapName]
  else
    let path := filepath_Join [userDir loader; mapName] in
    if fileExists (disk loader) path then path
    else filepath_Join [gameDir loader; "maps"; mapName].

Definition savePath (loader : Loader) (mapName : string) : string :=
  if ioMode loader =? EDITOR_MODE
  then filepath_Join [gameDir loader; "maps"; mapName]
  else filepath_Join [userDir loader; mapName].

(** [func (loader *Loader) load(sx, sy int)], returning the section or
    an error. *)
Definition load (loader : Loader) (sx sy : Z) : Section_ + error :=
  let path := loadPath loader (mapFileName sx sy) in
  match files (disk loader) !! path with
  | None =>
      inl {| secX := sx; secY := sy; position := ∅; edges := ∅ |}
  | Some content =>
      if decide (path ∈ denied (disk loader)) then inr ErrOpen
      else
        match gzipReader content with
        | None => inr ErrGzip
        | Some [] => inr ErrRead
        | Some (version :: stream) =>
            match gobDecodePosition stream with
            | None => inr ErrDecode
            | Some (pos, stream') =>
                match gobDecodeEdges stream' with
                | None => inr ErrDecode
                | Some (edg, _) =>
                    inl {| secX := sx; secY := sy;
                           position := pos; edges := edg |}
                end
            end
        end
  end.

(** [func (loader *Loader) save(section *Section) error]: the version
    byte and the two arrays go through one gzip writer into the file. *)
Definition save (loader : Loader) (section : Section_)
  : Loader * option error :=
  let path := savePath loader (mapFileName (secX section) (secY section)) in
  if decide (path ∈ denied (disk loader)) then (loader, Some ErrCreate)
  else
    let stream :=
      VERSION :: gobEncodePosition (position section)
              ++ gobEncodeEdges (edges section) in
    (withDisk loader
       {| files := <[path := gzipWriter stream]> (files (disk loader));
          denied := denied (disk loader) |},
     None).

Definition timeAt (c : SectionCache) (i : Z) : Z :=
  default 0 (times c !! Z.to_nat i).

Definition holds (slot : option (option Section_)) (sx sy : Z) : bool :=
  match slot with
  | Some (Some s) => (secX s =? sx) && (secY s =? sy)
  | _ => false
  end.

(** The loop of [getSection] over the slots [i, i+1, ...], [n] of them
    left: [inl i] when slot [i] holds the section, [inr oldestIndex]
    when the loop runs out. *)
Fixpoint scan (c : SectionCache) (sx sy : Z) (n : nat) (i : Z)
    (oldestIndex : Z) : Z + Z :=
  match n with
  | O => inr oldestIndex
  | S n' =>
      if holds (cache c !! Z.to_nat i) sx sy then inl i
      else
        let oldestIndex' :=
          if (oldestIndex =? -1) || (timeAt c i <? timeAt c oldestIndex)
          then i else oldestIndex in
        scan c sx sy n' (i + 1) oldestIndex'
  end.

Definition touch (c : SectionCache) (i : Z) (now : Z) : SectionCache :=
  {| cache := cache c; times := <[Z.to_nat i := now]> (times c) |}.

Definition place (c : SectionCache) (i : Z) (s : Section_) (now : Z)
  : SectionCache :=
  {| cache := <[Z.to_nat i := Some s]> (cache c);
     times := <[Z.to_nat i := now]> (times c) |}.

(** [func (loader *Loader) getSection(sx, sy int)];
    [now] is what [time.Now().Unix()] returns during the call.  The
    result is the slot of the section. *)
Definition getSection (loader : Loader) (sx sy : Z) (now : Z)
  : Loader * outcome Z :=
  let c := sectionCache loader in
  match scan c sx sy (length (cache c)) 0 (-1) with
  | inl i => (withCache loader (touch c i now), Done i)
  | inr oldestIndex =>
      if (oldestIndex <? 0) then (loader, Panic)
      else
        match cache c !! Z.to_nat oldestIndex with
        | None => (loader, Panic)
        | Some slot =>
            let '(loader1, err) :=
              match slot with
              | Some oldSection =>
                  save (notify loader
                          (SectionSave (secX oldSection) (secY oldSection)))
                       oldSection
              | None => (loader, None)
              end in
            match err with
            | Some e => (loader1, Failed e)
            | None =>
                match load loader1 sx sy with
                | inr e => (loader1, Failed e)
                | inl section =>
                    (notify
                       (withCache loader1
                          (place (sectionCache loader1) oldestIndex
                                 section now))
                       (SectionLoad sx sy),
                     Done oldestIndex)
                end
            end
        end
  end.

(** [func (loader *Loader) getPosInSection(worldX, worldY, worldZ int)]:
    an error of [getSection] goes to [log.Fatal]. *)
Definition getPosInSection (loader : Loader) (worldX worldY worldZ : Z)
    (now : Z) : Loader * outcome (Z * Z * Z * Z) :=
  let sx := GoInt.div worldX SECTION_SIZE in
  let sy := GoInt.div worldY SECTION_SIZE in
  match getSection loader sx sy now with
  | (loader1, Done section) =>
      let atomX := GoInt.rem worldX SECTION_SIZE in
      let atomY := GoInt.rem worldY SECTION_SIZE in
      let atomZ := worldZ in
      (loader1, Done (section, atomX, atomY, atomZ))
  | (loader1, Failed e) => (loader1, Failed e)
  | (loader1, Panic) => (loader1, Panic)
  end.

(** Dereferencing a [*Section]: the section in the slot, if any. *)
Definition sectionAt (loader : Loader) (slot : Z) : option Section_ :=
  cache (sectionCache loader) !! Z.to_nat slot ≫= id.

(** Writing through a [*Section]: the slot holds the updated section. *)
Definition storeSection (loader : Loader) (slot : Z) (s : Section_)
  : Loader :=
  withCache loader
    {| cache := <[Z.to_nat slot := Some s]> (cache (sectionCache loader));
       times := times (sectionCache loader) |}.

(** The common start of the accessors: resolve the cell, then work on
    the section it lies in. *)
Definition atPos {A : Type} (r : Loader * outcome (Z * Z * Z * Z))
    (k : Loader -> Z -> Section_ -> Z -> Z -> Z -> Loader * outcome A)
  : Loader * outcome A :=
  match r with
  | (loader1, Done (slot, atomX, atomY, atomZ)) =>
      match sectionAt loader1 slot with
      | Some section => k loader1 slot section atomX atomY atomZ
      | None => (loader1, Panic)
      end
  | (loader1, Failed e) => (loader1, Failed e)
  | (loader1, Panic) => (loader1, Panic)
  end.

(** [func (loader *Loader) ClearEdge(x, y int)] *)
Definition ClearEdge (loader : Loader) (x y : Z) (now : Z)
  : Loader * outcome unit :=
  atPos (getPosInSection loader x y 0 now)
    (fun loader1 slot section atomX atomY _ =>
       if inEdges atomX atomY
       then (storeSection loader1 slot (setEdgeAt section atomX atomY 0),
             Done tt)
       else (loader1, Panic)).

(** [func (loader *Loader) SetEdge(x, y int, shapeIndex int)] *)
Definition SetEdge (loader : Loader) (x y : Z) (shapeIndex : Z) (now : Z)
  : Loader * outcome unit :=
  atPos (getPosInSection loader x y 0 now)
    (fun loader1 slot section atomX atomY _ =>
       if inEdges atomX atomY
       then (storeSection loader1 slot
               (setEdgeAt section atomX atomY (GoInt.add shapeIndex 1)),
             Done tt)
       else (loader1, Panic)).

(** [func (loader *Loader) GetEdge(x, y int) (int, bool)] *)
Definition GetEdge (loader : Loader) (x y : Z) (now : Z)
  : Loader * outcome (Z * bool) :=
  atPos (getPosInSection loader x y 0 now)
    (fun loader1 slot section atomX atomY _ =>
       if inEdges atomX atomY
       then
         let shapeIndex := Shape (edgeAt section atomX atomY) in
         if shapeIndex =? 0 then (loader1, Done (0, false))
         else (loader1, Done (GoInt.sub shapeIndex 1, true))
       else (loader1, Panic)).

(** [func (loader *Loader) SetShape(x, y, z int, shapeIndex int) bool] *)
Definition SetShape (loader : Loader) (x y z : Z) (shapeIndex : Z)
    (now : Z) : Loader * outcome bool :=
  atPos (getPosInSection loader x y z now)
    (fun loader1 slot section atomX atomY atomZ =>
       if inPosition atomX atomY atomZ
       then (storeSection loader1 slot
               (setPositionAt section atomX atomY atomZ
                  (GoInt.add shapeIndex 1)),
             Done true)
       else (loader1, Panic)).

(** [func (loader *Loader) EraseShape(x, y, z int) bool] *)
Definition EraseShape (loader : Loader) (x y z : Z) (now : Z)
  : Loader * outcome bool :=
  atPos (getPosInSection loader x y z now)
    (fun loader1 slot section atomX atomY atomZ =>
       if inPosition atomX atomY atomZ
       then
         let shapeIndex := Shape (positionAt section atomX atomY atomZ) in
         if 0 <? shapeIndex
         then (storeSection loader1 slot
                 (setPositionAt section atomX atomY atomZ 0),
               Done true)
         else (loader1, Done false)
       else (loader1, Panic)).

(** [func (loader *Loader) GetShape(worldX, worldY, worldZ int) (int, bool)] *)
Definition GetShape (loader : Loader) (worldX worldY worldZ : Z) (now : Z)
  : Loader * outcome (Z * bool) :=
  atPos (getPosInSection loader worldX worldY worldZ now)
    (fun loader1 slot section atomX atomY atomZ =>
       if inPosition atomX atomY atomZ
       then
         let shapeIndex := Shape (positionAt section atomX atomY atomZ) in
         if shapeIndex =? 0 then (loader1, Done (0, false))
         else (loader1, Done (GoInt.sub shapeIndex 1, true))
       else (loader1, Panic)).

(** [func (loader *Loader) SaveAll() error] *)
Fixpoint saveEach (loader : Loader) (slots : list (option Section_))
  : Loader * option error :=
  match slots with
  | [] => (loader, None)
  | None :: rest => saveEach loader rest
  | Some c :: rest =>
      match save loader c with
      | (loader1, Some e) => (loader1, Some e)
      | (loader1, None) => saveEach loader1 rest
      end
  end.

Definition SaveAll (loader : Loader) : Loader * option error :=
  saveEach loader (cache (sectionCache loader)).

(** *** Sequences of queries

    The shape and edge operations of the store, each with the clock
    reading of its call, run one after the other until one of them
    ends the process. *)
Inductive Op :=
| OpGetShape (x y z : Z)
| OpSetShape (x y z : Z) (shapeIndex : Z)
| OpEraseShape (x y z : Z)
| OpGetEdge (x y : Z)
| OpSetEdge (x y : Z) (shapeIndex : Z)
| OpClearEdge (x y : Z).

Definition forget {A : Type} (r : Loader * outcome A)
  : Loader * outcome unit :=
  match r with
  | (l, Done _) => (l, Done tt)
  | (l, Failed e) => (l, Failed e)
  | (l, Panic) => (l, Panic)
  end.

Definition exec (loader : Loader) (op : Op) (now : Z)
  : Loader * outcome unit :=
  match op with
  | OpGetShape x y z => forget (GetShape loader x y z now)
  | OpSetShape x y z i => forget (SetShape loader x y z i now)
  | OpEraseShape x y z => forget (EraseShape loader x y z now)
  | OpGetEdge x y => forget (GetEdge loader x y now)
  | OpSetEdge x y i => forget (SetEdge loader x y i now)
  | OpClearEdge x y => forget (ClearEdge loader x y now)
  end.

Fixpoint run (loader : Loader) (ops : list (Op * Z))
  : Loader * outcome unit :=
  match ops with
  | [] => (loader, Done tt)
  | (op, now) :: rest =>
      match exec loader op now with
      | (loader1, Done _) => run loader1 rest
      | (loader1, Failed e) => (loader1, Failed e)
      | (loader1, Panic) => (loader1, Panic)
      end
  end.

End Store.

End World.

(** ** gfx/view.go (the window) and gfx/path.go (the path finder) *)
Module Gfx.

Definition SIZE : Z := 96.
Definition DRAW_SIZE : Z := 48.
Definition SEARCH_SIZE : Z := 16.

(** A [*BlockPos]: [InitView] allocates one [BlockPos] per window cell,
    [view.blockPos[x][y][z] = newBlockPos(x, y, z)], and never replaces
    it, so the pointer is the cell's window coordinates and the fields
    [x], [y], [z] of the [BlockPos] are the components of its [Ref]. *)
Definition Ref : Type := Z * Z * Z.

(** [type BoundingBox struct]: the type is declared outside the files at
    hand; its six [int] fields are read here as [box.X] ... [box.D] and
    filled in that order by the literals of [FindPath]. *)
Record BoundingBox := {
  boxX : Z; boxY : Z; boxZ : Z;
  W : Z; H : Z; D : Z
}.

(** Modelled from the spec: [BoundingBox.SetPos] is not under src/; a box
    is "repositioned in place": the anchor moves, the extents stay. *)
Definition SetPos (b : BoundingBox) (x y z : Z) : BoundingBox :=
  {| boxX := x; boxY := y; boxZ := z; W := W b; H := H b; D := D b |}.

(** Modelled from the spec: [util.AbsInt] is not under src/; the absolute
    value of an [int]. *)
Definition AbsInt (n : Z) : Z := if n <? 0 then GoInt.sub 0 n else n.

(** [world.SectionPosition]: the cell a [BlockPos] points to; only its
    [Block] field is read by the code modelled here. *)
Record SectionPosition := { Block : Z }.

(** [shapes.Shape], reduced to the flag the collision code reads. *)
Record Shape := { NoSupport : bool }.

Record PathNode := {
  f : Z; g : Z; h : Z;
  visited : bool; closed : bool;
  fitCalled : bool;
  blocker : option Ref;
  parent : option Ref
}.

Definition zeroPathNode : PathNode :=
  {| f := 0; g := 0; h := 0; visited := false; closed := false;
     fitCalled := false; blocker := None; parent := None |}.

(** [type BlockPos struct] without its [pathNode] (kept in [pathNode] of
    the view below) and without the fields only drawing uses. *)
Record BlockPos := {
  worldX : Z; worldY : Z; worldZ : Z;
  pos : option SectionPosition;
  box : BoundingBox
}.

(** [type ViewContext struct].  A [*shapes.Shape] is the index of the
    shape in [shapes.Shapes], [None] for nil. *)
Record ViewContext := {
  isFlying : bool;
  isPathing : bool;
  usePathThrough : bool;
  pathThroughShapes : gset (option Z);
  start : option Ref;
  end_ : option Ref;
  startBox : option BoundingBox;
  endBox : option BoundingBox
}.

(** [type View struct]: the loader, the window cells, their path-finding
    scratch state (an absent entry reads as the zero [PathNode]) and the
    context. *)
Record View := {
  Loader : World.Loader;
  blockPos : Ref -> BlockPos;
  pathNode : gmap Ref PathNode;
  maxZ : Z;
  context : ViewContext
}.

Definition PathStep : Type := Z * Z * Z.

(** How a call on the view ends: a value and the view it leaves, a panic,
    or, for the loops cut off by a step budget, the budget running out. *)
Inductive res (A : Type) :=
| Ret (a : A) (view : View)
| Crash
| OutOfFuel.
Arguments Ret {A} a view.
Arguments Crash {A}.
Arguments OutOfFuel {A}.

Definition M (A : Type) : Type := View -> res A.

Definition ret {A : Type} (a : A) : M A := fun view => Ret a view.
Definition crash {A : Type} : M A := fun _ => Crash.
Definition bind {A B : Type} (m : M A) (k : A -> M B) : M B :=
  fun view =>
    match m view with
    | Ret a view' => k a view'
    | Crash => Crash
    | OutOfFuel => OutOfFuel
    end.
Definition get : M View := fun view => Ret view view.
Definition put (view : View) : M unit := fun _ => Ret tt view.
(** A step that panics on [None]. *)
Definition orCrash {A : Type} (o : option A) : M A :=
  match o with Some a => ret a | None => crash end.

Notation "'let*' x ':=' m 'in' k" := (bind m (fun x => k))
  (at level 10, x pattern, m at level 100, k at level 200).

Definition withContext (view : View) (c : ViewContext) : View :=
  {| Loader := Loader view; blockPos := blockPos view;
     pathNode := pathNode view; maxZ := maxZ view; context := c |}.

Definition withPathNode (view : View) (m : gmap Ref PathNode) : View :=
  {| Loader := Loader view; blockPos := blockPos view;
     pathNode := m; maxZ := maxZ view; context := context view |}.

Definition nodeAt (view : View) (r : Ref) : PathNode :=
  default zeroPathNode (pathNode view !! r).

Definition setNode (r : Ref) (n : PathNode) : M unit :=
  fun view => Ret tt (withPathNode view (<[r := n]> (pathNode view))).

Definition updContext (fn : ViewContext -> ViewContext) : M unit :=
  fun view => Ret tt (withContext view (fn (context view))).

Section Window.
(** [BoundingBox.intersect] is declared outside the files at hand and
    [shapes.Shapes] is filled when the game starts: both are parameters
    of the window code. *)
Variable intersect : BoundingBox -> BoundingBox -> bool.
Variable Shapes : list (option Shape).

(** [func (view *View) toWorldPos(viewX, viewY, viewZ int) (int, int, int)] *)
Definition toWorldPos (view : View) (viewX viewY viewZ : Z) : Z * Z * Z :=
  (GoInt.add viewX
     (GoInt.sub (World.X (Loader view)) (GoInt.div SIZE 2)),
   GoInt.add viewY
     (GoInt.sub (World.Y (Loader view)) (GoInt.div SIZE 2)),
   viewZ).

(** [func (view *View) isValidViewPos(viewX, viewY, viewZ int) bool] *)
Definition isValidViewPos (viewX viewY viewZ : Z) : bool :=
  negb ((viewX <? 0) || (SIZE <=? viewX) || (viewY <? 0)
        || (SIZE <=? viewY) || (viewZ <? 0)
        || (World.SECTION_Z_SIZE <=? viewZ)).

(** [func (view *View) toViewPos(worldX, worldY, worldZ int) (int, int, int, bool)] *)
Definition toViewPos (view : View) (worldX worldY worldZ : Z)
  : Z * Z * Z * bool :=
  let viewX :=
    GoInt.sub worldX
      (GoInt.sub (World.X (Loader view)) (GoInt.div SIZE 2)) in
  let viewY :=
    GoInt.sub worldY
      (GoInt.sub (World.Y (Loader view)) (GoInt.div SIZE 2)) in
  (viewX, viewY, worldZ, isValidViewPos viewX viewY worldZ).

(** [func (view *View) InView(worldX, worldY, worldZ int) bool] *)
Definition InView (view : View) (worldX worldY worldZ : Z) : bool :=
  let '(_, _, _, validPos) := toViewPos view worldX worldY worldZ in
  validPos.

(** The iterations of the three nested loops of [search], in order. *)
Definition searchOffsets : list (Z * Z * Z) :=
  flat_map (fun x =>
    flat_map (fun y =>
      map (fun z => (x, y, z)) (seqZ 0 SEARCH_SIZE))
      (seqZ 0 SEARCH_SIZE))
    (seqZ 0 SEARCH_SIZE).

(** [func (view *View) search(viewX, viewY, viewZ int, fx)], [fx] a
    callback on a [*BlockPos].
    The callbacks of the callers modelled here record the cell on which
    they answer true: the result is that cell, [Some None] when no
    callback answered true, and [None] for a panic. *)
Fixpoint searchFrom (view : View) (viewX viewY viewZ : Z)
    (fx : Ref -> SectionPosition -> option bool)
    (offsets : list (Z * Z * Z)) : option (option Ref) :=
  match offsets with
  | [] => Some None
  | (x, y, z) :: rest =>
      let vx := GoInt.sub viewX x in
      let vy := GoInt.sub viewY y in
      let vz := GoInt.sub viewZ z in
      if isValidViewPos vx vy vz then
        match pos (blockPos view (vx, vy, vz)) with
        | None => None
        | Some p =>
            if 0 <? Block p then
              match fx (vx, vy, vz) p with
              | None => None
              | Some true => Some (Some (vx, vy, vz))
              | Some false => searchFrom view viewX viewY viewZ fx rest
              end
            else searchFrom view viewX viewY viewZ fx rest
        end
      else searchFrom view viewX viewY viewZ fx rest
  end.

Definition search (view : View) (viewX viewY viewZ : Z)
    (fx : Ref -> SectionPosition -> option bool) : option (option Ref) :=
  searchFrom view viewX viewY viewZ fx searchOffsets.

(** [shapes.Shapes[i]]: the pointer at index [i], [None] when the
    index is out of range. *)
Definition shapePtr (i : Z) : option (option Z) :=
  if i <? 0 then None
  else
    match Shapes !! Z.to_nat i with
    | None => None
    | Some None => Some None
    | Some (Some _) => Some (Some i)
    end.

(** Dereferencing [shapes.Shapes[i]]. *)
Definition shapeAt (i : Z) : option Shape :=
  if i <? 0 then None else Shapes !! Z.to_nat i ≫= id.

(** The [pathThrough] flag the callback of [getBlockerAt] computes for
    an occupied cell with position [p]; [None] for a panic. *)
Definition passesThrough (view : View) (p : SectionPosition)
  : option bool :=
  let c := context view in
  if isPathing c then
    let listed :=
      if usePathThrough c then
        match shapePtr (GoInt.sub (Block p) 1) with
        | None => None
        | Some key => Some (bool_decide (key ∈ pathThroughShapes c))
        end
      else Some false in
    match listed with
    | None => None
    | Some pathThrough =>
        match end_ c with
        | None => None
        | Some e =>
            match pos (blockPos view e) with
            | Some ep =>
                if (0 <? Block ep) && (Block p =? Block ep)
                then Some true else Some pathThrough
            | None => Some pathThrough
            end
        end
    end
  else Some false.

(** [func (view *View) getBlockerAt(toViewX, toViewY, toViewZ int, box *BoundingBox, src *BlockPos) *BlockPos].
    [box] is moved for the search and moved back before the function
    returns; when it is the box of [src] the callback never reads it
    through [bp.box], since [bp != src] is tested first. *)
Definition getBlockerAt (view : View) (toViewX toViewY toViewZ : Z)
    (box : BoundingBox) (src : option Ref) : option (option Ref) :=
  let moved := SetPos box toViewX toViewY toViewZ in
  search view
    (GoInt.add toViewX (W moved)) (GoInt.add toViewY (H moved))
    (GoInt.add toViewZ (D moved))
    (fun bp p =>
       match passesThrough view p with
       | None => None
       | Some pathThrough =>
           Some (negb pathThrough
                 && negb (bool_decide (Some bp = src))
                 && intersect (Gfx.box (blockPos view bp)) moved)
       end).

(** [func (view *View) GetBlocker(toWorldX, toWorldY, toWorldZ int) *BlockPos] *)
Definition GetBlocker (view : View) (toWorldX toWorldY toWorldZ : Z)
  : option (option Ref) :=
  match start (context view) with
  | None => None
  | Some src =>
      match pos (blockPos view src) with
      | None => None
      | Some p =>
          if Block p =? 0 then Some None
          else
            let '(toViewX, toViewY, toViewZ, validPos) :=
              toViewPos view toWorldX toWorldY toWorldZ in
            if negb validPos then Some None
            else
              getBlockerAt view toViewX toViewY toViewZ
                (box (blockPos view src)) (Some src)
      end
  end.

(** [view.blockPos[x][y][z]]: an index out of range panics. *)
Definition cell (x y z : Z) : M Ref :=
  if isValidViewPos x y z then ret (x, y, z) else crash.

(** [func (view *View) getBlockerWithCache(node *BlockPos) *BlockPos] *)
Definition getBlockerWithCache (node : Ref) : M (option Ref) :=
  fun view =>
    let bp := blockPos view node in
    if isPathing (context view) then
      let n := nodeAt view node in
      if negb (fitCalled n) then
        match GetBlocker view (worldX bp) (worldY bp) (worldZ bp) with
        | None => Crash
        | Some b =>
            Ret b
              (withPathNode view
                 (<[node := {| f := f n; g := g n; h := h n;
                               visited := visited n; closed := closed n;
                               fitCalled := true; blocker := b;
                               parent := parent n |}]> (pathNode view)))
        end
      else Ret (blocker n) view
    else
      match GetBlocker view (worldX bp) (worldY bp) (worldZ bp) with
      | None => Crash
      | Some b => Ret b view
      end.

(** The first loop of [tryMove], entered with [z = n > 0]: the level
    the mover comes to rest on and what it stands on there. *)
Fixpoint dropDown (newViewX newViewY : Z) (n : nat)
  : M (Z * option Ref) :=
  match n with
  | O => ret (0, None)
  | S n' =>
      let z := Z.of_nat n in
      let* node := cell newViewX newViewY (z - 1) in
      let* standingOn := getBlockerWithCache node in
      match standingOn with
      | Some _ => ret (z, standingOn)
      | None => dropDown newViewX newViewY n'
      end
  end.

(** [func (view *View) tryMove(newViewX, newViewY, newViewZ int) *BlockPos] *)
Definition tryMove (newViewX newViewY newViewZ : Z) : M (option Ref) :=
  let* (z, standingOn) :=
    (if 0 <? newViewZ
     then dropDown newViewX newViewY (Z.to_nat newViewZ)
     else ret (newViewZ, None)) in
  let* view := get in
  let* noSupport :=
    (match standingOn with
     | Some s =>
         if negb (isFlying (context view)) then
           let* p := orCrash (pos (blockPos view s)) in
           let* shape := orCrash (shapeAt (GoInt.sub (Block p) 1)) in
           ret (NoSupport shape)
         else ret false
     | None => ret false
     end) in
  if noSupport then ret None
  else if z <? newViewZ then
    let* node := cell newViewX newViewY z in
    ret (Some node)
  else
    let* newNode := cell newViewX newViewY newViewZ in
    let* b := getBlockerWithCache newNode in
    match b with
    | None => ret (Some newNode)
    | Some _ =>
        let* newNode := cell newViewX newViewY (GoInt.add newViewZ 1) in
        let* b := getBlockerWithCache newNode in
        match b with
        | None => ret (Some newNode)
        | Some _ => ret None
        end
    end.

(** [func (view *View) tryInDir(node *BlockPos, dx, dy int) *BlockPos] *)
Definition tryInDir (node : Ref) (dx dy : Z) : M (option Ref) :=
  let '(x, y, z) := node in
  tryMove (GoInt.add x dx) (GoInt.add y dy) z.

(** [func (view *View) astarNeighbors(node *BlockPos) []*BlockPos] *)
Definition astarNeighbors (node : Ref) : M (list Ref) :=
  let '(x, y, _) := node in
  let try (guard : bool) (dx dy : Z) (ret_ : list Ref) : M (list Ref) :=
    if guard then
      let* newNode := tryInDir node dx dy in
      match newNode with
      | Some n => ret (ret_ ++ [n])
      | None => ret ret_
      end
    else ret ret_ in
  let* r := try (0 <=? GoInt.sub x 1) (-1) 0 [] in
  let* r := try (GoInt.add x 1 <? SIZE) 1 0 r in
  let* r := try (0 <=? GoInt.sub y 1) 0 (-1) r in
  try (GoInt.add y 1 <? SIZE) 0 1 r.

(** [func (view *View) heuristic(pos0, pos1 *BlockPos) int] *)
Definition heuristic (pos0 pos1 : Ref) : M Z :=
  let '(x0, y0, z0) := pos0 in
  let '(x1, y1, z1) := pos1 in
  let* view := get in
  let* sb := orCrash (startBox (context view)) in
  let* eb := orCrash (endBox (context view)) in
  let dist (c1 c0 : Z) : Z :=
    AbsInt (GoInt.add
              (GoInt.sub (GoInt.add c1 (GoInt.div (W sb) 2)) c0)
              (GoInt.div (W eb) 2)) in
  let d1 := dist x1 x0 in
  let d2 := dist y1 y0 in
  let d3 := dist z1 z0 in
  ret (GoInt.add (GoInt.add d1 d2) d3).

(** [func (view *View) resetPathFind()]: every cell gets the zero
    [PathNode]. *)
Definition resetPathFind : M unit :=
  fun view => Ret tt (withPathNode view ∅).

(** [func remove(s []*BlockPos, i int) []*BlockPos] *)
Definition remove (s : list Ref) (i : nat) : list Ref :=
  match last s with
  | Some l => take (length s - 1) (<[i := l]> s)
  | None => s
  end.

(** [func reverse(nodes []PathStep) []PathStep] *)
Definition reverse (nodes : list PathStep) : list PathStep := rev nodes.

(** The loop of [generatePath], cut off after [fuel] steps. *)
Fixpoint walkBack (fuel : nat) (view : View) (currentNode : Ref)
    (ret_ : list PathStep) : option (list PathStep) :=
  match fuel with
  | O => None
  | S fuel' =>
      match parent (nodeAt view currentNode) with
      | None => Some ret_
      | Some p =>
          let '(x, y, z) := currentNode in
          walkBack fuel' view p (ret_ ++ [toWorldPos view x y z])
      end
  end.

(** [func (view *View) generatePath(currentNode *BlockPos) []PathStep] *)
Definition generatePath (fuel : nat) (currentNode : Ref)
  : M (list PathStep) :=
  fun view =>
    match walkBack fuel view currentNode [] with
    | None => OutOfFuel
    | Some ret_ => Ret (reverse ret_) view
    end.

(** The scan of [findPath] for the open node with the lowest [f]: the
    first index holding the minimum. *)
Definition refAt (l : list Ref) (i : nat) : Ref :=
  default (0, 0, 0) (l !! i).

Definition lowestF (view : View) (openList : list Ref) : nat :=
  fold_left
    (fun lowInd i =>
       if f (nodeAt view (refAt openList i))
          <? f (nodeAt view (refAt openList lowInd))
       then i else lowInd)
    (seq 0 (length openList)) 0%nat.

(** The body of [for _, neighbor := range neighbors] in [findPath]. *)
Definition visit (currentNode neighbor : Ref) (openList : list Ref)
  : M (list Ref) :=
  let* view := get in
  let n := nodeAt view neighbor in
  if negb (closed n) then
    let gScore := GoInt.add (g (nodeAt view currentNode)) 1 in
    if negb (visited n) then
      let* e := orCrash (end_ (context view)) in
      let* hv := heuristic neighbor e in
      let* _ :=
        setNode neighbor
          {| f := GoInt.add gScore hv; g := gScore; h := hv;
             visited := true; closed := closed n;
             fitCalled := fitCalled n; blocker := blocker n;
             parent := Some currentNode |} in
      ret (openList ++ [neighbor])
    else if gScore <? g n then
      let* _ :=
        setNode neighbor
          {| f := GoInt.add gScore (h n); g := gScore; h := h n;
             visited := visited n; closed := closed n;
             fitCalled := fitCalled n; blocker := blocker n;
             parent := Some currentNode |} in
      ret openList
    else ret openList
  else ret openList.

Fixpoint expand (currentNode : Ref) (neighbors : list Ref)
    (openList : list Ref) : M (list Ref) :=
  match neighbors with
  | [] => ret openList
  | neighbor :: rest =>
      let* openList' := visit currentNode neighbor openList in
      expand currentNode rest openList'
  end.

Definition close (r : Ref) : M unit :=
  fun view =>
    let n := nodeAt view r in
    setNode r {| f := f n; g := g n; h := h n; visited := visited n;
                 closed := true; fitCalled := fitCalled n;
                 blocker := blocker n; parent := parent n |} view.

(** The number of cells of the window. *)
Definition cells : nat := Z.to_nat (SIZE * SIZE * World.SECTION_Z_SIZE).

(** The loop [for len(openList) > 0] of [findPath], cut off after
    [fuel] iterations; [None] is the nil slice. *)
Fixpoint findPathLoop (fuel : nat) (openList : list Ref)
  : M (option (list PathStep)) :=
  match fuel with
  | O => fun _ => OutOfFuel
  | S fuel' =>
      match openList with
      | [] => ret None
      | _ :: _ =>
          let* view := get in
          let lowInd := lowestF view openList in
          let currentNode := refAt openList lowInd in
          let '(cx, cy, cz) := currentNode in
          let* sb := orCrash (startBox (context view)) in
          let sb' := SetPos sb cx cy cz in
          let* _ :=
            updContext (fun c =>
              {| isFlying := isFlying c; isPathing := isPathing c;
                 usePathThrough := usePathThrough c;
                 pathThroughShapes := pathThroughShapes c;
                 start := start c; end_ := end_ c;
                 startBox := Some sb'; endBox := endBox c |}) in
          let* eb := orCrash (endBox (context view)) in
          if intersect sb' eb then
            let* path := generatePath (S cells) currentNode in
            ret (Some path)
          else
            let openList1 := remove openList lowInd in
            let* _ := close currentNode in
            let* neighbors := astarNeighbors currentNode in
            let* openList2 := expand currentNode neighbors openList1 in
            findPathLoop fuel' openList2
      end
  end.

(** [func (view *View) findPath() []PathStep] *)
Definition findPath : M (option (list PathStep)) :=
  let* _ := resetPathFind in
  let* view := get in
  let* s := orCrash (start (context view)) in
  findPathLoop (S cells) [s].

(** [func (view *View) FindPath(sx, sy, sz, ex, ey, ez int, isFlying bool, dSrc, dDst int) []PathStep] *)
Definition FindPath (sx sy sz ex ey ez : Z) (isFlying_ : bool)
    (dSrc dDst : Z) : M (option (list PathStep)) :=
  let* _ :=
    updContext (fun c =>
      {| isFlying := isFlying_; isPathing := true;
         usePathThrough := usePathThrough c;
         pathThroughShapes := pathThroughShapes c;
         start := start c; end_ := end_ c;
         startBox := startBox c; endBox := endBox c |}) in
  let* view := get in
  let '(startViewX, startViewY, startViewZ, startOk) :=
    toViewPos view sx sy sz in
  let '(endViewX, endViewY, endViewZ, endOk) :=
    toViewPos view ex ey ez in
  let* steps :=
    (if startOk && endOk then
       let* _ :=
         updContext (fun c =>
           {| isFlying := isFlying c; isPathing := isPathing c;
              usePathThrough := false;
              pathThroughShapes := pathThroughShapes c;
              start := Some (startViewX, startViewY, startViewZ);
              end_ := Some (endViewX, endViewY, endViewZ);
              startBox :=
                Some {| boxX := startViewX; boxY := startViewY;
                        boxZ := startViewZ;
                        W := dSrc; H := dSrc; D := 4 |};
              endBox :=
                Some {| boxX := endViewX; boxY := endViewY;
                        boxZ := endViewZ;
                        W := dDst; H := dDst; D := 4 |} |}) in
       let* steps := findPath in
       match steps with
       | None =>
           let* _ :=
             updContext (fun c =>
               {| isFlying := isFlying c; isPathing := isPathing c;
                  usePathThrough := true;
                  pathThroughShapes := pathThroughShapes c;
                  start := start c; end_ := end_ c;
                  startBox := startBox c; endBox := endBox c |}) in
           findPath
       | Some _ => ret steps
       end
     else ret None) in
  let* _ :=
    updContext (fun c =>
      {| isFlying := isFlying c; isPathing := false;
         usePathThrough := usePathThrough c;
         pathThroughShapes := pathThroughShapes c;
         start := start c; end_ := end_ c;
         startBox := startBox c; endBox := endBox c |}) in
  ret steps.

(** *** The rest of the window code *)

(** [func (view *View) isVisibleViewPos(viewX, viewY, viewZ int) bool] *)
Definition isVisibleViewPos (viewX viewY viewZ : Z) : bool :=
  (GoInt.div SIZE 2 - DRAW_SIZE <=? viewX)
  && (viewX <? GoInt.div SIZE 2 + DRAW_SIZE)
  && (GoInt.div SIZE 2 - DRAW_SIZE <=? viewY)
  && (viewY <? GoInt.div SIZE 2 + DRAW_SIZE)
  && (0 <=? viewZ).

(** [func (view *View) GetBlockPos(worldX, worldY, worldZ int) *BlockPos] *)
Definition GetBlockPos (view : View) (worldX worldY worldZ : Z)
  : option Ref :=
  let '(viewX, viewY, viewZ, validPos) :=
    toViewPos view worldX worldY worldZ in
  if validPos then Some (viewX, viewY, viewZ) else None.

(** A loop [for i := lo; i < hi; i++] whose body works on a state. *)
Definition forRange {S : Type} (lo hi : Z) (body : Z -> S -> S) (s : S) : S :=
  fold_left (fun acc i => body i acc) (seqZ lo (hi - lo)) s.

(** [func (view *View) traverse(fx func(x, y, z int))]: the callback is a
    closure over the state [S] it updates. *)
Definition traverse {S : Type} (fx : Z -> Z -> Z -> S -> S) : S -> S :=
  forRange 0 SIZE (fun x =>
    forRange 0 SIZE (fun y =>
      forRange 0 World.SECTION_Z_SIZE (fun z => fx x y z))).

(** [func (view *View) traverseForDraw(fx func(x, y, z int))] *)
Definition traverseForDraw {S : Type} (fx : Z -> Z -> Z -> S -> S)
  : S -> S :=
  forRange (GoInt.div (- DRAW_SIZE) 2) (GoInt.div DRAW_SIZE 2) (fun x =>
    forRange (GoInt.div (- DRAW_SIZE) 2) (GoInt.div DRAW_SIZE 2) (fun y =>
      forRange 0 World.SECTION_Z_SIZE (fun z =>
        fx (GoInt.add x (GoInt.div SIZE 2))
           (GoInt.add y (GoInt.div SIZE 2)) z))).

(** The loop of [reverse] as it is written: [n] swaps are left, the next
    one exchanges [nodes[i]] and [nodes[len(nodes) - i - 1]]. *)
Fixpoint reverseLoop (n i : nat) (nodes : list PathStep) : list PathStep :=
  match n with
  | O => nodes
  | S n' =>
      let j := (length nodes - i - 1)%nat in
      match nodes !! i, nodes !! j with
      | Some a, Some b =>
          reverseLoop n' (S i) (<[j := a]> (<[i := b]> nodes))
      | _, _ => nodes
      end
  end.

(** [func reverse(nodes []PathStep) []PathStep], swap by swap. *)
Definition reverseInPlace (nodes : list PathStep) : list PathStep :=
  reverseLoop (length nodes / 2) 0 nodes.

(** [search] with a callback that also updates a state [S] of its
    closure; the search ends on the first callback that answers true.
    [None] is a panic. *)
Fixpoint searchWith {S : Type} (view : View) (viewX viewY viewZ : Z)
    (fx : Ref -> SectionPosition -> S -> option (bool * S))
    (offsets : list (Z * Z * Z)) (s : S) : option S :=
  match offsets with
  | [] => Some s
  | (x, y, z) :: rest =>
      let vx := GoInt.sub viewX x in
      let vy := GoInt.sub viewY y in
      let vz := GoInt.sub viewZ z in
      if isValidViewPos vx vy vz then
        match pos (blockPos view (vx, vy, vz)) with
        | None => None
        | Some p =>
            if 0 <? Block p then
              match fx (vx, vy, vz) p s with
              | None => None
              | Some (true, s') => Some s'
              | Some (false, s') =>
                  searchWith view viewX viewY viewZ fx rest s'
              end
            else searchWith view viewX viewY viewZ fx rest s
        end
      else searchWith view viewX viewY viewZ fx rest s
  end.

(** [func (view *View) IsEmpty(toWorldX, toWorldY, toWorldZ int, shape *shapes.Shape) bool].
    The shape is read only through [int(shape.Size[0])],
    [int(shape.Size[1])] and [int(shape.Size[2])]: these three [int]s
    stand for it. *)
Definition IsEmpty (view : View) (toWorldX toWorldY toWorldZ : Z)
    (sizeX sizeY sizeZ : Z) : option bool :=
  let '(viewX, viewY, viewZ, validPos) :=
    toViewPos view toWorldX toWorldY toWorldZ in
  if negb validPos then Some false
  else
    let box := {| boxX := 0; boxY := 0; boxZ := 0;
                  W := sizeX; H := sizeY; D := sizeZ |} in
    match getBlockerAt view viewX viewY viewZ box None with
    | None => None
    | Some blocker => Some (bool_decide (blocker = None))
    end.

(** The loop [for z := view.maxZ - 1; z >= 0; z--] of [FindTop], with [n]
    iterations left and the local [maxZ] in [top]. *)
Fixpoint findTopLoop (view : View) (viewX viewY : Z) (box : BoundingBox)
    (n : nat) (z : Z) (top : Z) : option Z :=
  match n with
  | O => Some top
  | S n' =>
      let box' := SetPos box viewX viewY z in
      match
        searchWith view
          (GoInt.add viewX (W box')) (GoInt.add viewY (H box'))
          (GoInt.add z (D box'))
          (fun bp _ top' =>
             let '(_, _, bpz) := bp in
             Some (false,
                   if intersect (Gfx.box (blockPos view bp)) box'
                      && (bpz <? maxZ view) && (top' <? GoInt.add z 1)
                   then GoInt.add z 1 else top'))
          searchOffsets top
      with
      | None => None
      | Some top' =>
          findTopLoop view viewX viewY box' n' (GoInt.sub z 1) top'
      end
  end.

(** [func (view *View) FindTop(worldX, worldY int, shape *shapes.Shape) int],
    the shape again given by its three sizes. *)
Definition FindTop (view : View) (worldX worldY : Z)
    (sizeX sizeY sizeZ : Z) : option Z :=
  let '(viewX, viewY, _, validPos) := toViewPos view worldX worldY 0 in
  if validPos then
    let box := {| boxX := 0; boxY := 0; boxZ := 0;
                  W := sizeX; H := sizeY; D := sizeZ |} in
    let z := GoInt.sub (maxZ view) 1 in
    findTopLoop view viewX viewY box (Z.to_nat (z + 1)) z 0
  else Some 0.

End Window.

Section Picking.
(** [BoundingBox.isInside] is declared outside the files at hand: a
    parameter, like [intersect]. *)
Variable isInside : BoundingBox -> Z -> Z -> Z -> bool.

(** [func (view *View) getShapeAt(viewX, viewY, viewZ int) *BlockPos] *)
Definition getShapeAt (view : View) (viewX viewY viewZ : Z)
  : option (option Ref) :=
  search view viewX viewY viewZ
    (fun bp _ => Some (isInside (box (blockPos view bp)) viewX viewY viewZ)).

(** [func (view *View) GetShape(worldX, worldY, worldZ int) (int, int, int, int, bool)] *)
Definition GetShape (view : View) (worldX worldY worldZ : Z)
  : option (Z * Z * Z * Z * bool) :=
  let '(viewX, viewY, viewZ, validPos) :=
    toViewPos view worldX worldY worldZ in
  if negb validPos then Some (0, 0, 0, 0, false)
  else
    match getShapeAt view viewX viewY viewZ with
    | None => None
    | Some None => Some (0, 0, 0, 0, false)
    | Some (Some b) =>
        match pos (blockPos view b) with
        | None => None
        | Some p =>
            if Block p =? 0 then Some (0, 0, 0, 0, false)
            else
              let '(bx, by_, bz) := b in
              let '(originWorldX, originWorldY, originWorldZ) :=
                toWorldPos view bx by_ bz in
              Some (GoInt.sub (Block p) 1,
                    originWorldX, originWorldY, originWorldZ, true)
        end
    end.

End Picking.

(** [func (view *View) AddPathThroughShape(shape *shapes.Shape)], the shape
    given by its index in [shapes.Shapes] ([None] for nil). *)
Definition AddPathThroughShape (view : View) (shape : option Z) : View :=
  withContext view
    {| isFlying := isFlying (context view);
       isPathing := isPathing (context view);
       usePathThrough := usePathThrough (context view);
       pathThroughShapes := {[shape]} ∪ pathThroughShapes (context view);
       start := start (context view); end_ := end_ (context view);
       startBox := startBox (context view);
       endBox := endBox (context view) |}.

End Gfx.

(** ** shapes/direction.go *)
Module Direction.

(** [type Direction int] *)
Definition DIR_W : Z := 0.
Definition DIR_SW : Z := 1.
Definition DIR_S : Z := 2.
Definition DIR_SE : Z := 3.
Definition DIR_E : Z := 4.
Definition DIR_NE : Z := 5.
Definition DIR_N : Z := 6.
Definition DIR_NW : Z := 7.
Definition DIR_NONE : Z := 8.

(** [func GetDir(dx, dy int) Direction] *)
Definition GetDir (dx dy : Z) : Z :=
  if (dx =? 1) && (dy =? 0) then DIR_W
  else if (dx =? -1) && (dy =? 0) then DIR_E
  else if (dx =? 0) && (dy =? 1) then DIR_S
  else if (dx =? 0) && (dy =? -1) then DIR_N
  else if (dx =? 1) && (dy =? 1) then DIR_SW
  else if (dx =? -1) && (dy =? -1) then DIR_NE
  else if (dx =? -1) && (dy =? 1) then DIR_SE
  else if (dx =? 1) && (dy =? -1) then DIR_NW
  else DIR_NONE.

(** [func (dir Direction) GetDelta() (int, int)] *)
Definition GetDelta (dir : Z) : Z * Z :=
  if dir =? DIR_W then (1, 0)
  else if dir =? DIR_E then (-1, 0)
  else if dir =? DIR_S then (0, 1)
  else if dir =? DIR_N then (0, -1)
  else if dir =? DIR_SW then (1, 1)
  else if dir =? DIR_NE then (-1, -1)
  else if dir =? DIR_SE then (-1, 1)
  else if dir =? DIR_NW then (1, -1)
  else (0, 0).

End Direction.

(** ** A codec to run the store on

    A small lossless gzip/gob stand-in: it makes the store executable on
    concrete loaders and shows that the laws asked of the Go libraries can
    be met.  A value goes out as the bits of its [Countable] code, one byte
    per bit, closed by the byte 2; gzip leaves the bytes as they are. *)
Module ReferenceCodec.
Import World.

#[export] Instance Position_eq_dec : EqDecision Position.
Proof. solve_decision. Defined.

#[export] Instance Position_countable : Countable Position :=
  inj_countable' Shape (fun n => {| Shape := n |})
    (fun p => match p with {| Shape := n |} => eq_refl end).

Fixpoint writeBits (p : positive) : list Byte.byte :=
  match p with
  | xH => [Byte.x02]
  | xO q => Byte.x00 :: writeBits q
  | xI q => Byte.x01 :: writeBits q
  end.

Fixpoint readBits (bs : list Byte.byte)
  : option (positive * list Byte.byte) :=
  match bs with
  | Byte.x00 :: rest =>
      match readBits rest with
      | Some (q, rest') => Some (xO q, rest')
      | None => None
      end
  | Byte.x01 :: rest =>
      match readBits rest with
      | Some (q, rest') => Some (xI q, rest')
      | None => None
      end
  | Byte.x02 :: rest => Some (xH, rest)
  | _ => None
  end.

Definition writeValue {A : Type} `{Countable A} (a : A) : list Byte.byte :=
  writeBits (encode a).

Definition readValue {A : Type} `{Countable A} (bs : list Byte.byte)
  : option (A * list Byte.byte) :=
  match readBits bs with
  | Some (p, rest) =>
      match decode p with
      | Some a => Some (a, rest)
      | None => None
      end
  | None => None
  end.

Definition codec : Codec := {|
  gzipWriter := fun bs => bs;
  gzipReader := fun bs => Some bs;
  gobEncodePosition := writeValue;
  gobDecodePosition := readValue;
  gobEncodeEdges := writeValue;
  gobDecodeEdges := readValue
|}.

Definition emptyDisk : FileSystem := {| files := ∅; denied := ∅ |}.

(** A fresh loader on an empty disk. *)
Definition freshLoader : Loader := NewLoader emptyDisk "user" "game".

End ReferenceCodec.

(** ** Windows to run the path finder on *)
Module SampleWindow.
Import Gfx.

(** Modelled from the spec: [BoundingBox.intersect] is not under src/; two
    boxes intersect when their extents overlap on all three axes. *)
Definition overlap (a b : BoundingBox) : bool :=
  (boxX a <? boxX b + W b) && (boxX b <? boxX a + W a)
  && (boxY a <? boxY b + H b) && (boxY b <? boxY a + H a)
  && (boxZ a <? boxZ b + D b) && (boxZ b <? boxZ a + D a).

(** A catalog of four shapes: a mover, a wall, a door and a slab nothing
    can stand on. *)
Definition catalog : list (option Shape) :=
  [Some {| NoSupport := false |}; Some {| NoSupport := false |};
   Some {| NoSupport := false |}; Some {| NoSupport := true |}].

Definition idleContext : ViewContext :=
  {| isFlying := false; isPathing := false; usePathThrough := false;
     pathThroughShapes := ∅; start := None; end_ := None;
     startBox := None; endBox := None |}.

(** The window after [Load] around the focal point [(5000, 5000)], with the
    block number of every cell given by [blocks] and unit boxes. *)
Definition window (blocks : Ref -> Z) : View :=
  {| Loader := ReferenceCodec.freshLoader;
     blockPos := fun r =>
       let '(x, y, z) := r in
       {| worldX := x + 4952; worldY := y + 4952; worldZ := z;
          pos := Some {| Block := blocks r |};
          box := {| boxX := x; boxY := y; boxZ := z;
                    W := 1; H := 1; D := 1 |} |};
     pathNode := ∅;
     maxZ := World.SECTION_Z_SIZE;
     context := idleContext |}.

(** Nothing anywhere. *)
Definition emptyWindow : View := window (fun _ => 0).

(** A mover of shape 0 at [(10, 10, 0)] and a block of shape 1 at
    [(11, 10, 0)]. *)
Definition moverAndBlock : View :=
  window (fun r =>
            if bool_decide (r = (10, 10, 0)) then 1
            else if bool_decide (r = (11, 10, 0)) then 2 else 0).

(** A room: the mover (shape 0) at [(10, 10, 0)] inside walls (shape 1)
    two cells high on the border of the square [8..12] x [8..12], with a
    door (shape 2) in the wall at [(12, 10)]. *)
Definition roomBlocks (r : Ref) : Z :=
  let '(x, y, z) := r in
  if bool_decide (r = (10, 10, 0)) then 1
  else if (8 <=? x) && (x <=? 12) && (8 <=? y) && (y <=? 12)
          && (0 <=? z) && (z <=? 1)
          && ((x =? 8) || (x =? 12) || (y =? 8) || (y =? 12))
  then (if (x =? 12) && (y =? 10) then 3 else 2)
  else 0.

(** The room with the shapes [doors] registered as pass-through. *)
Definition room (doors : gset (option Z)) : View :=
  withContext (window roomBlocks)
    {| isFlying := false; isPathing := false; usePathThrough := false;
       pathThroughShapes := doors; start := None; end_ := None;
       startBox := None; endBox := None |}.

Definition startingAt (view : View) (r : Ref) : View :=
  withContext view
    {| isFlying := false; isPathing := false; usePathThrough := false;
       pathThroughShapes := ∅; start := Some r; end_ := None;
       startBox := None; endBox := None |}.

End SampleWindow.

(** * Properties *)

(** ** Arithmetic of [int] *)
Module GoIntFacts.
Import GoInt.

Lemma wrap_mod_form (n : Z) : wrap n = (n + 2 ^ 63) mod 2 ^ 64 - 2 ^ 63.
Proof.
  unfold wrap.
  destruct ((-9223372036854775808 <=? n) && (n <=? 9223372036854775807))
    eqn:E; [|reflexivity].
  apply andb_true_iff in E as [E1 E2].
  rewrite Z.mod_small; lia.
Qed.

Lemma wrap_id (n : Z) : in_range n -> wrap n = n.
Proof.
  unfold in_range, min_int, max_int. intros Hn. rewrite wrap_mod_form.
  rewrite Z.mod_small; lia.
Qed.

Lemma wrap_in_range (n : Z) : in_range (wrap n).
Proof.
  unfold in_range, min_int, max_int. rewrite wrap_mod_form.
  pose proof (Z.mod_pos_bound (n + 2 ^ 63) (2 ^ 64)). lia.
Qed.

Lemma wrap_congr (a b : Z) :
  (a mod 2 ^ 64 = b mod 2 ^ 64) -> wrap a = wrap b.
Proof.
  rewrite !wrap_mod_form. intros Hab.
  rewrite (Zplus_mod a), (Zplus_mod b), Hab. reflexivity.
Qed.

Lemma wrap_mod (n : Z) : wrap n mod 2 ^ 64 = n mod 2 ^ 64.
Proof.
  rewrite wrap_mod_form.
  rewrite Zminus_mod, Zmod_mod, <- Zminus_mod.
  f_equal. lia.
Qed.

(** Subtracting an offset and adding it back is exact, whatever wraps
    around on the way. *)
Lemma add_sub_cancel (a b : Z) : in_range a -> add (sub a b) b = a.
Proof.
  intros Ha. unfold add, sub.
  rewrite <- (wrap_id a Ha) at 2. apply wrap_congr.
  rewrite Zplus_mod, wrap_mod, <- Zplus_mod. f_equal. lia.
Qed.

(** On non-negative numbers Go's division and remainder are the floor
    division and the modulus. *)
Lemma div_floor (a b : Z) : 0 <= a -> 0 < b -> div a b = a / b.
Proof. intros. unfold div. apply Z.quot_div_nonneg; lia. Qed.

Lemma rem_mod (a b : Z) : 0 <= a -> 0 < b -> rem a b = a mod b.
Proof. intros. unfold rem. apply Z.rem_mod_nonneg; lia. Qed.

End GoIntFacts.

(** ** The section store *)
Module StoreFacts.
Import World.

Section Cache.
Context {codec : Codec}.

(** *** The scan of the slots *)

Lemma scan_hit (c : SectionCache) (sx sy : Z) (n : nat) (i o j : Z) :
  scan c sx sy n i o = inl j ->
  i <= j < i + Z.of_nat n
  /\ holds (cache c !! Z.to_nat j) sx sy = true
  /\ forall k, i <= k < j -> holds (cache c !! Z.to_nat k) sx sy = false.
Proof.
  revert i o. induction n as [|n IH]; intros i o Hs; simpl in Hs.
  - discriminate.
  - destruct (holds (cache c !! Z.to_nat i) sx sy) eqn:Hh.
    + injection Hs as <-. repeat split; try lia. exact Hh.
    + apply IH in Hs as (Hr & Hj & Hk). repeat split; try lia.
      * exact Hj.
      * intros k Hk'. destruct (decide (k = i)) as [->|]; [exact Hh|].
        apply Hk. lia.
Qed.

Lemma scan_miss (c : SectionCache) (sx sy : Z) (n : nat) (i o o' : Z) :
  scan c sx sy n i o = inr o' ->
  (forall k, i <= k < i + Z.of_nat n ->
             holds (cache c !! Z.to_nat k) sx sy = false)
  /\ (o' = o \/ i <= o' < i + Z.of_nat n).
Proof.
  revert i o. induction n as [|n IH]; intros i o Hs; simpl in Hs.
  - injection Hs as <-. split; [lia | left; reflexivity].
  - destruct (holds (cache c !! Z.to_nat i) sx sy) eqn:Hh; [discriminate|].
    apply IH in Hs as (Hk & Ho). split.
    + intros k Hk'. destruct (decide (k = i)) as [->|]; [exact Hh|].
      apply Hk. lia.
    + destruct ((o =? -1) || (timeAt c i <? timeAt c o)); lia.
Qed.

Lemma scan_first (c : SectionCache) (sx sy : Z) (n : nat) (i o j : Z) :
  i <= j < i + Z.of_nat n ->
  holds (cache c !! Z.to_nat j) sx sy = true ->
  (forall k, i <= k < j -> holds (cache c !! Z.to_nat k) sx sy = false) ->
  scan c sx sy n i o = inl j.
Proof.
  revert i o. induction n as [|n IH]; intros i o Hr Hj Hk; simpl.
  - lia.
  - destruct (decide (i = j)) as [->|Hne].
    + rewrite Hj. reflexivity.
    + rewrite (Hk i) by lia. apply IH; [lia | exact Hj |].
      intros k Hk'. apply Hk. lia.
Qed.

(** *** Residence

    [resident loader sx sy slot]: the scan of [getSection] for the section
    [(sx, sy)] stops at [slot]. *)
Definition resident (loader : Loader) (sx sy : Z) (slot : Z) : Prop :=
  let c := sectionCache loader in
  scan c sx sy (length (cache c)) 0 (-1) = inl slot.

Lemma holds_key (slot : option (option Section_)) (sx sy : Z) :
  holds slot sx sy = true <->
  exists s, slot = Some (Some s) /\ secX s = sx /\ secY s = sy.
Proof.
  unfold holds. split.
  - destruct slot as [[s|]|]; try discriminate.
    intros H. apply andb_true_iff in H as [H1 H2].
    exists s. split; [reflexivity | lia].
  - intros (s & -> & <- & <-). rewrite !Z.eqb_refl. reflexivity.
Qed.

Lemma resident_sectionAt (loader : Loader) (sx sy slot : Z) :
  resident loader sx sy slot ->
  0 <= slot < Z.of_nat (length (cache (sectionCache loader)))
  /\ exists s, sectionAt loader slot = Some s /\ secX s = sx /\ secY s = sy.
Proof.
  intros Hr. apply scan_hit in Hr as (Hrange & Hh & _).
  split; [lia|].
  apply holds_key in Hh as (s & Hs & Hx & Hy).
  exists s. unfold sectionAt. rewrite Hs. auto.
Qed.

(** A resident section is found again, and only the time of its slot
    changes. *)
Lemma resident_getSection (loader : Loader) (sx sy slot now : Z) :
  resident loader sx sy slot ->
  getSection loader sx sy now
  = (withCache loader (touch (sectionCache loader) slot now), Done slot).
Proof. intros Hr. unfold getSection. rewrite Hr. reflexivity. Qed.

(** Residence only depends on the keys in the slots. *)
Lemma resident_same_keys (loader loader' : Loader) (sx sy slot : Z) :
  length (cache (sectionCache loader'))
  = length (cache (sectionCache loader)) ->
  (forall k, 0 <= k ->
     holds (cache (sectionCache loader') !! Z.to_nat k) sx sy
     = holds (cache (sectionCache loader) !! Z.to_nat k) sx sy) ->
  resident loader sx sy slot -> resident loader' sx sy slot.
Proof.
  unfold resident. intros Hlen Hk Hr.
  apply scan_hit in Hr as (Hrange & Hh & Hbefore).
  apply scan_first.
  - rewrite Hlen. exact Hrange.
  - rewrite Hk by lia. exact Hh.
  - intros k Hk'. rewrite Hk by lia. apply Hbefore. exact Hk'.
Qed.

Lemma resident_touch (loader : Loader) (sx sy slot i now : Z) :
  resident loader sx sy slot ->
  resident (withCache loader (touch (sectionCache loader) i now)) sx sy slot.
Proof. apply resident_same_keys; reflexivity. Qed.

Lemma resident_store (loader : Loader) (sx sy slot : Z) (s : Section_) :
  secX s = sx -> secY s = sy ->
  resident loader sx sy slot ->
  resident (storeSection loader slot s) sx sy slot.
Proof.
  intros Hx Hy Hr.
  pose proof (resident_sectionAt _ _ _ _ Hr) as (Hrange & s0 & Hs0 & Hx0 & Hy0).
  revert Hr. apply resident_same_keys; simpl.
  - apply length_insert.
  - intros k Hk. destruct (decide (k = slot)) as [->|Hne].
    + rewrite list_lookup_insert_eq by lia.
      unfold sectionAt in Hs0.
      destruct (cache (sectionCache loader) !! Z.to_nat slot) as [[s1|]|];
        try discriminate.
      simpl in Hs0. injection Hs0 as ->. simpl.
      rewrite Hx, Hy, Hx0, Hy0. reflexivity.
    + rewrite list_lookup_insert_ne by lia. reflexivity.
Qed.

Lemma sectionAt_store (loader : Loader) (slot : Z) (s : Section_) :
  0 <= slot < Z.of_nat (length (cache (sectionCache loader))) ->
  sectionAt (storeSection loader slot s) slot = Some s.
Proof.
  intros Hr. unfold sectionAt, storeSection. simpl.
  rewrite list_lookup_insert_eq by lia. reflexivity.
Qed.

Lemma load_key (loader : Loader) (sx sy : Z) (s : Section_) :
  load loader sx sy = inl s -> secX s = sx /\ secY s = sy.
Proof.
  unfold load. intros H.
  repeat (match type of H with
          | context [match ?x with _ => _ end] => destruct x
          | context [if ?x then _ else _] => destruct x
          end; try discriminate);
    injection H as <-; auto.
Qed.

Lemma save_cache (loader loader' : Loader) (s : Section_) (e : option error) :
  save loader s = (loader', e) ->
  sectionCache loader' = sectionCache loader
  /\ observer loader' = observer loader.
Proof.
  unfold save. intros H.
  destruct (decide _); injection H as <- <-; auto.
Qed.

(** What [getSection] returns is resident afterwards. *)
Lemma getSection_resident (loader loader' : Loader) (sx sy now slot : Z) :
  getSection loader sx sy now = (loader', Done slot) ->
  resident loader' sx sy slot.
Proof.
  unfold getSection. intros H.
  destruct (scan _ _ _ _ _ _) as [i|o] eqn:Hscan.
  - injection H as <- <-. apply resident_touch. exact Hscan.
  - apply scan_miss in Hscan as (Hnone & _).
    destruct (o <? 0) eqn:Ho; [discriminate|].
    destruct (cache (sectionCache loader) !! Z.to_nat o) as [slot0|] eqn:Hslot;
      [|discriminate].
    destruct (match slot0 with Some _ => _ | None => _ end)
      as [loader1 err] eqn:Hsave.
    assert (Hc1 : sectionCache loader1 = sectionCache loader).
    { destruct slot0 as [old|].
      - apply save_cache in Hsave as [-> _]. reflexivity.
      - injection Hsave as <- <-. reflexivity. }
    destruct err as [e|]; [discriminate|].
    destruct (load loader1 sx sy) as [section|e] eqn:Hload; [|discriminate].
    injection H as <- <-.
    apply load_key in Hload as [Hx Hy].
    apply lookup_lt_Some in Hslot.
    unfold resident. simpl. rewrite Hc1. unfold place. cbn [cache].
    apply scan_first; cbn [cache].
    + rewrite length_insert. lia.
    + rewrite list_lookup_insert_eq by lia. simpl.
      rewrite Hx, Hy, !Z.eqb_refl. reflexivity.
    + intros k Hk. rewrite list_lookup_insert_ne by lia.
      apply Hnone. lia.
Qed.

(** With at least one slot the scan never leaves [getSection] without a
    slot to reuse. *)
Lemma scan_miss_slot (c : SectionCache) (sx sy : Z) (n : nat) (o' : Z) :
  scan c sx sy (S n) 0 (-1) = inr o' -> 0 <= o' < Z.of_nat (S n).
Proof.
  simpl. destruct (holds _ _ _); [discriminate|].
  intros H. apply scan_miss in H as [_ H]. lia.
Qed.

Lemma getSection_no_panic (loader : Loader) (sx sy now : Z) :
  (0 < length (cache (sectionCache loader)))%nat ->
  snd (getSection loader sx sy now) <> Panic.
Proof.
  intros Hlen. unfold getSection.
  destruct (length (cache (sectionCache loader))) as [|n] eqn:Hn; [lia|].
  destruct (scan _ _ _ _ _ _) as [i|o] eqn:Hscan; [discriminate|].
  apply scan_miss_slot in Hscan.
  destruct (o <? 0) eqn:Ho; [lia|].
  destruct (cache (sectionCache loader) !! Z.to_nat o) as [slot|] eqn:Hslot.
  - destruct (match slot with Some _ => _ | None => _ end) as [l1 [e|]];
      [discriminate|].
    destruct (load l1 sx sy); discriminate.
  - apply lookup_ge_None in Hslot. lia.
Qed.

(** An accessor on a resident section works on that section. *)
Lemma atPos_resident {A : Type} (loader : Loader) (x y z now slot : Z)
    (s : Section_)
    (k : Loader -> Z -> Section_ -> Z -> Z -> Z -> Loader * outcome A) :
  resident loader (GoInt.div x SECTION_SIZE) (GoInt.div y SECTION_SIZE) slot ->
  sectionAt loader slot = Some s ->
  atPos (getPosInSection loader x y z now) k
  = k (withCache loader (touch (sectionCache loader) slot now)) slot s
      (GoInt.rem x SECTION_SIZE) (GoInt.rem y SECTION_SIZE) z.
Proof.
  intros Hr Hs. unfold atPos, getPosInSection.
  rewrite (resident_getSection _ _ _ _ now Hr).
  change (sectionAt (withCache loader (touch (sectionCache loader) slot now))
            slot) with (sectionAt loader slot).
  rewrite Hs. reflexivity.
Qed.

Lemma inPosition_nonneg (x y z : Z) :
  0 <= x -> 0 <= y -> 0 <= z < SECTION_Z_SIZE ->
  inPosition (GoInt.rem x SECTION_SIZE) (GoInt.rem y SECTION_SIZE) z = true.
Proof.
  intros Hx Hy Hz. unfold inPosition, SECTION_SIZE, SECTION_Z_SIZE in *.
  rewrite !GoIntFacts.rem_mod by lia.
  pose proof (Z.mod_pos_bound x 200). pose proof (Z.mod_pos_bound y 200).
  repeat (apply andb_true_intro; split); lia.
Qed.

Lemma positionAt_set (s : Section_) (ax ay az v : Z) :
  positionAt (setPositionAt s ax ay az v) ax ay az = {| Shape := v |}.
Proof.
  unfold positionAt, setPositionAt. simpl.
  rewrite lookup_insert_eq. reflexivity.
Qed.

(** The loader after a hit on [slot]. *)
Definition touched (loader : Loader) (slot now : Z) : Loader :=
  withCache loader (touch (sectionCache loader) slot now).

Lemma GetShape_resident (loader : Loader) (x y z now slot : Z) (s : Section_) :
  0 <= x -> 0 <= y -> 0 <= z < SECTION_Z_SIZE ->
  resident loader (GoInt.div x SECTION_SIZE) (GoInt.div y SECTION_SIZE) slot ->
  sectionAt loader slot = Some s ->
  GetShape loader x y z now
  = (touched loader slot now,
     let v := Shape (positionAt s (GoInt.rem x SECTION_SIZE)
                       (GoInt.rem y SECTION_SIZE) z) in
     if v =? 0 then Done (0, false) else Done (GoInt.sub v 1, true)).
Proof.
  intros Hx Hy Hz Hr Hs. unfold GetShape.
  rewrite (atPos_resident _ _ _ _ _ _ _ _ Hr Hs).
  rewrite inPosition_nonneg by assumption.
  cbv zeta. destruct (_ =? 0); reflexivity.
Qed.

Lemma EraseShape_resident (loader : Loader) (x y z now slot : Z)
    (s : Section_) :
  0 <= x -> 0 <= y -> 0 <= z < SECTION_Z_SIZE ->
  resident loader (GoInt.div x SECTION_SIZE) (GoInt.div y SECTION_SIZE) slot ->
  sectionAt loader slot = Some s ->
  EraseShape loader x y z now
  = let ax := GoInt.rem x SECTION_SIZE in
    let ay := GoInt.rem y SECTION_SIZE in
    if 0 <? Shape (positionAt s ax ay z)
    then (storeSection (touched loader slot now) slot
            (setPositionAt s ax ay z 0), Done true)
    else (touched loader slot now, Done false).
Proof.
  intros Hx Hy Hz Hr Hs. unfold EraseShape.
  rewrite (atPos_resident _ _ _ _ _ _ _ _ Hr Hs).
  rewrite inPosition_nonneg by assumption. reflexivity.
Qed.

(** C1 (amended): on non-negative world coordinates with [z] in
    [[0, 24)] and a shape index [0 <= i < max_int], [SetShape] does not
    panic; when it returns (no fatal I/O error on the way) it returns true,
    the following [GetShape] returns [(i, true)], a first [EraseShape]
    returns true, a second returns false, and [GetShape] then reports
    not-found. *)
Theorem shape_set_get_erase (loader : Loader) (x y z i : Z)
    (t1 t2 t3 t4 t5 : Z) :
  0 <= x -> 0 <= y -> 0 <= z < SECTION_Z_SIZE ->
  0 <= i < GoInt.max_int ->
  (0 < length (cache (sectionCache loader)))%nat ->
  match SetShape loader x y z i t1 with
  | (l1, Done r) =>
      r = true /\
      exists l2 l3 l4 l5,
        GetShape l1 x y z t2 = (l2, Done (i, true)) /\
        EraseShape l2 x y z t3 = (l3, Done true) /\
        EraseShape l3 x y z t4 = (l4, Done false) /\
        GetShape l4 x y z t5 = (l5, Done (0, false))
  | (_, Failed _) => True
  | (_, Panic) => False
  end.
Proof.
  intros Hx Hy Hz Hi Hlen.
  unfold SetShape, atPos, getPosInSection.
  pose proof (getSection_no_panic loader (GoInt.div x SECTION_SIZE)
                (GoInt.div y SECTION_SIZE) t1 Hlen) as Hnp.
  destruct (getSection loader _ _ t1) as [l0 [slot|e|]] eqn:HG;
    [| exact I | exact (Hnp eq_refl)].
  pose proof (getSection_resident _ _ _ _ _ _ HG) as Hr0.
  destruct (resident_sectionAt _ _ _ _ Hr0) as (Hrange & s & Hs & Hkx & Hky).
  rewrite Hs, inPosition_nonneg by assumption.
  split; [reflexivity|].
  set (ax := GoInt.rem x SECTION_SIZE). set (ay := GoInt.rem y SECTION_SIZE).
  assert (Hadd : GoInt.add i 1 = i + 1).
  { apply GoIntFacts.wrap_id. unfold GoInt.in_range, GoInt.min_int,
      GoInt.max_int in *. lia. }
  rewrite Hadd.
  set (s1 := setPositionAt s ax ay z (i + 1)).
  set (l1 := storeSection l0 slot s1).
  assert (Hr1 : resident l1 (GoInt.div x SECTION_SIZE)
                  (GoInt.div y SECTION_SIZE) slot)
    by (apply resident_store; [exact Hkx | exact Hky | exact Hr0]).
  assert (Hs1 : sectionAt l1 slot = Some s1)
    by (apply sectionAt_store; exact Hrange).
  assert (Hlen1 : 0 <= slot < Z.of_nat (length (cache (sectionCache l1))))
    by (apply (resident_sectionAt _ _ _ _ Hr1)).
  set (l2 := touched l1 slot t2).
  set (s3 := setPositionAt s1 ax ay z 0).
  set (l3 := storeSection (touched l2 slot t3) slot s3).
  set (l4 := touched l3 slot t4).
  assert (Hr3 : resident l3 (GoInt.div x SECTION_SIZE)
                  (GoInt.div y SECTION_SIZE) slot).
  { apply resident_store; [exact Hkx | exact Hky |].
    apply resident_touch, resident_touch. exact Hr1. }
  assert (Hs3 : sectionAt l3 slot = Some s3)
    by (apply sectionAt_store; exact Hlen1).
  exists l2, l3, l4, (touched l4 slot t5).
  assert (Hsub : GoInt.sub (i + 1) 1 = i).
  { unfold GoInt.sub. replace (i + 1 - 1) with i by lia.
    apply GoIntFacts.wrap_id. unfold GoInt.in_range, GoInt.min_int,
      GoInt.max_int in *. lia. }
  repeat split.
  - rewrite (GetShape_resident l1 x y z t2 slot s1) by assumption.
    unfold s1. rewrite positionAt_set. cbn [Shape]. cbv zeta.
    destruct (i + 1 =? 0) eqn:E; [lia|]. rewrite Hsub. reflexivity.
  - rewrite (EraseShape_resident l2 x y z t3 slot s1);
      [| assumption .. | apply resident_touch; exact Hr1 | exact Hs1].
    cbv zeta. fold ax ay. unfold s1 at 1. rewrite positionAt_set.
    cbn [Shape]. destruct (0 <? i + 1) eqn:E; [reflexivity | lia].
  - rewrite (EraseShape_resident l3 x y z t4 slot s3) by assumption.
    cbv zeta. fold ax ay. unfold s3 at 1. rewrite positionAt_set.
    reflexivity.
  - rewrite (GetShape_resident l4 x y z t5 slot s3);
      [| assumption .. | apply resident_touch; exact Hr3 | exact Hs3].
    fold ax ay. unfold s3. rewrite positionAt_set. reflexivity.
Qed.

End Cache.

(** The reference codec meets the laws. *)
Lemma readBits_writeBits (p : positive) (rest : list Byte.byte) :
  ReferenceCodec.readBits (ReferenceCodec.writeBits p ++ rest)
  = Some (p, rest).
Proof.
  induction p as [q IH|q IH|]; simpl; try rewrite IH; reflexivity.
Qed.

Lemma readValue_writeValue {A : Type} `{Countable A} (a : A)
    (rest : list Byte.byte) :
  ReferenceCodec.readValue (ReferenceCodec.writeValue a ++ rest)
  = Some (a, rest).
Proof.
  unfold ReferenceCodec.readValue, ReferenceCodec.writeValue.
  rewrite readBits_writeBits, decode_encode. reflexivity.
Qed.

Lemma reference_codec_laws : CodecLaws ReferenceCodec.codec.
Proof.
  split; simpl.
  - reflexivity.
  - intros a rest. apply readValue_writeValue.
  - intros a rest. apply readValue_writeValue.
Qed.

(** C1, as stated, fails where a world coordinate is negative: the cell
    [(-1, 0, 0)] has [z] in range, and [SetShape] panics on it (the local
    index [-1 % 200] is [-1]). *)
Lemma shape_set_negative_panics :
  0 <= 0 < SECTION_Z_SIZE /\
  snd (SetShape (codec := ReferenceCodec.codec) ReferenceCodec.freshLoader
         (-1) 0 0 7 10) = Panic.
Proof. split; [unfold SECTION_Z_SIZE; lia | vm_compute; reflexivity]. Qed.

Lemma shape_set_get_erase_witness :
  (0 <= 5001 /\ 0 <= 4999 /\ 0 <= 3 < SECTION_Z_SIZE
   /\ 0 <= 7 < GoInt.max_int
   /\ (0 < length (cache (sectionCache ReferenceCodec.freshLoader)))%nat)
  /\ match SetShape (codec := ReferenceCodec.codec)
             ReferenceCodec.freshLoader 5001 4999 3 7 10 with
     | (l1, Done r) =>
         r = true /\
         exists l2 l3 l4 l5,
           GetShape (codec := ReferenceCodec.codec) l1 5001 4999 3 11
           = (l2, Done (7, true)) /\
           EraseShape (codec := ReferenceCodec.codec) l2 5001 4999 3 12
           = (l3, Done true) /\
           EraseShape (codec := ReferenceCodec.codec) l3 5001 4999 3 13
           = (l4, Done false) /\
           GetShape (codec := ReferenceCodec.codec) l4 5001 4999 3 14
           = (l5, Done (0, false))
     | (_, Failed _) => True
     | (_, Panic) => False
     end.
Proof.
  assert (H : 0 <= 5001 /\ 0 <= 4999 /\ 0 <= 3 < SECTION_Z_SIZE
              /\ 0 <= 7 < GoInt.max_int
              /\ (0 < length (cache (sectionCache
                                       ReferenceCodec.freshLoader)))%nat).
  { unfold SECTION_Z_SIZE, GoInt.max_int. cbn. lia. }
  split; [exact H|].
  destruct H as (H1 & H2 & H3 & H4 & H5).
  exact (shape_set_get_erase (codec := ReferenceCodec.codec)
           ReferenceCodec.freshLoader 5001 4999 3 7 10 11 12 13 14
           H1 H2 H3 H4 H5).
Defined.

(** The run of the witness does set the shape. *)
Example shape_set_runs :
  snd (SetShape (codec := ReferenceCodec.codec) ReferenceCodec.freshLoader
         5001 4999 3 7 10) = Done true.
Proof. vm_compute. reflexivity. Qed.

End StoreFacts.

(** ** The cache holds each section at most once *)
Module CacheInvariant.
Import World StoreFacts.

(** The sections in the cache, in slot order, and the key of a section. *)
Definition residents (loader : Loader) : list Section_ :=
  omap id (cache (sectionCache loader)).

Definition key (s : Section_) : Z * Z := (secX s, secY s).

(** The invariant of the cache: four slots, four times, and no key in two
    slots. *)
Definition cache_inv (loader : Loader) : Prop :=
  let c := sectionCache loader in
  length (cache c) = 4%nat /\ length (times c) = 4%nat
  /\ forall (i j : nat) (s t : Section_),
       cache c !! i = Some (Some s) -> cache c !! j = Some (Some t) ->
       key s = key t -> i = j.

Lemma distinct_slots_NoDup (l : list (option Section_)) :
  (forall (i j : nat) (s t : Section_),
     l !! i = Some (Some s) -> l !! j = Some (Some t) ->
     key s = key t -> i = j) ->
  NoDup (key <$> omap id l).
Proof.
  induction l as [|o l IH]; intros Hd; [constructor|].
  assert (Hl : forall i j s t,
             l !! i = Some (Some s) -> l !! j = Some (Some t) ->
             key s = key t -> i = j).
  { intros i j s t Hi Hj Hk.
    enough (S i = S j) by lia. exact (Hd (S i) (S j) s t Hi Hj Hk). }
  destruct o as [s|]; simpl; [|exact (IH Hl)].
  constructor; [|exact (IH Hl)].
  intros Hin. apply list_elem_of_fmap in Hin as (t & Hk & Ht).
  apply list_elem_of_omap in Ht as (ot & Hot & Hid). simpl in Hid. subst ot.
  apply list_elem_of_lookup in Hot as (j & Hj).
  discriminate (Hd 0%nat (S j) s t eq_refl Hj Hk).
Qed.

Lemma omap_length_le {A B : Type} (fn : A -> option B) (l : list A) :
  (length (omap fn l) <= length l)%nat.
Proof.
  induction l as [|a l IH]; simpl; [lia|].
  change (list_omap A B fn l) with (omap fn l).
  destruct (fn a); simpl; lia.
Qed.

Lemma residents_bound (loader : Loader) :
  cache_inv loader ->
  (length (residents loader) <= 4)%nat
  /\ NoDup (key <$> residents loader).
Proof.
  intros (Hc & _ & Hd). split.
  - unfold residents. rewrite <- Hc. apply omap_length_le.
  - apply distinct_slots_NoDup. exact Hd.
Qed.

Lemma cache_inv_new (fs : FileSystem) (u g : string) :
  cache_inv (NewLoader fs u g).
Proof.
  repeat split. intros i j s t Hi _ _.
  simpl in Hi. destruct i as [|[|[|[|i]]]]; discriminate.
Qed.

Section Steps.
Context {codec : Codec}.

Lemma cache_inv_store (loader : Loader) (slot : Z) (s s' : Section_) :
  cache_inv loader -> 0 <= slot ->
  sectionAt loader slot = Some s -> key s' = key s ->
  cache_inv (storeSection loader slot s').
Proof.
  intros (Hc & Ht & Hd) Hslot Hs Hk.
  unfold sectionAt in Hs.
  destruct (cache (sectionCache loader) !! Z.to_nat slot) as [[s0|]|] eqn:H0;
    try discriminate.
  simpl in Hs. injection Hs as ->.
  unfold cache_inv, storeSection. cbn [sectionCache withCache cache times].
  rewrite length_insert. repeat split; try assumption.
  intros i j a b Hi Hj Hab.
  destruct (decide (i = Z.to_nat slot)) as [->|Hi'];
    destruct (decide (j = Z.to_nat slot)) as [->|Hj']; try reflexivity.
  - rewrite list_lookup_insert_eq in Hi by (apply lookup_lt_Some in H0; lia).
    rewrite list_lookup_insert_ne in Hj by congruence.
    injection Hi as <-. apply (Hd _ _ s b H0 Hj). congruence.
  - rewrite list_lookup_insert_ne in Hi by congruence.
    rewrite list_lookup_insert_eq in Hj by (apply lookup_lt_Some in H0; lia).
    injection Hj as <-. apply (Hd _ _ a s Hi H0). congruence.
  - rewrite list_lookup_insert_ne in Hi by congruence.
    rewrite list_lookup_insert_ne in Hj by congruence.
    exact (Hd _ _ _ _ Hi Hj Hab).
Qed.

Lemma cache_inv_getSection (loader : Loader) (sx sy now : Z) :
  cache_inv loader -> cache_inv (fst (getSection loader sx sy now)).
Proof.
  intros (Hc & Ht & Hd). unfold getSection.
  destruct (scan _ _ _ _ _ _) as [i|o] eqn:Hscan.
  - unfold cache_inv. simpl. rewrite length_insert. auto.
  - apply scan_miss in Hscan as (Hnone & _).
    destruct (o <? 0) eqn:Ho; [repeat split; assumption|].
    destruct (cache (sectionCache loader) !! Z.to_nat o) as [slot0|] eqn:Hslot;
      [|repeat split; assumption].
    destruct (match slot0 with Some _ => _ | None => _ end)
      as [loader1 err] eqn:Hsave.
    assert (Hc1 : sectionCache loader1 = sectionCache loader).
    { destruct slot0 as [old|].
      - apply save_cache in Hsave as [-> _]. reflexivity.
      - injection Hsave as <- <-. reflexivity. }
    assert (Hinv1 : cache_inv loader1)
      by (unfold cache_inv; rewrite Hc1; auto).
    destruct err as [e|]; [exact Hinv1|].
    destruct (load loader1 sx sy) as [section|e] eqn:Hload; [|exact Hinv1].
    apply load_key in Hload as [Hx Hy].
    assert (Hfresh : forall j t,
               cache (sectionCache loader) !! j = Some (Some t) ->
               key t <> (sx, sy)).
    { intros j t Hj Hk. injection Hk as Hkx Hky.
      pose proof (lookup_lt_Some _ _ _ Hj) as Hlt.
      specialize (Hnone (Z.of_nat j) ltac:(lia)).
      rewrite Nat2Z.id, Hj in Hnone. simpl in Hnone.
      rewrite Hkx, Hky, !Z.eqb_refl in Hnone. discriminate. }
    unfold cache_inv. cbn [fst notify sectionCache withCache place cache times].
    rewrite Hc1, !length_insert. repeat split; try assumption.
    intros i j a b Hi Hj Hab.
    destruct (decide (i = Z.to_nat o)) as [->|Hi'];
      destruct (decide (j = Z.to_nat o)) as [->|Hj']; try reflexivity.
    + rewrite list_lookup_insert_eq in Hi by (apply lookup_lt_Some in Hslot; lia).
      rewrite list_lookup_insert_ne in Hj by congruence.
      injection Hi as <-. exfalso. apply (Hfresh j b Hj).
      rewrite <- Hab. unfold key. congruence.
    + rewrite list_lookup_insert_ne in Hi by congruence.
      rewrite list_lookup_insert_eq in Hj by (apply lookup_lt_Some in Hslot; lia).
      injection Hj as <-. exfalso. apply (Hfresh i a Hi).
      rewrite Hab. unfold key. congruence.
    + rewrite list_lookup_insert_ne in Hi by congruence.
      rewrite list_lookup_insert_ne in Hj by congruence.
      exact (Hd _ _ _ _ Hi Hj Hab).
Qed.

Lemma cache_inv_atPos {A : Type} (loader : Loader) (x y z now : Z)
    (k : Loader -> Z -> Section_ -> Z -> Z -> Z -> Loader * outcome A) :
  cache_inv loader ->
  (forall l1 slot s ax ay az,
     cache_inv l1 -> 0 <= slot -> sectionAt l1 slot = Some s ->
     cache_inv (fst (k l1 slot s ax ay az))) ->
  cache_inv (fst (atPos (getPosInSection loader x y z now) k)).
Proof.
  intros Hinv Hk. unfold atPos, getPosInSection.
  pose proof (cache_inv_getSection loader (GoInt.div x SECTION_SIZE)
                (GoInt.div y SECTION_SIZE) now Hinv) as Hinv1.
  destruct (getSection loader _ _ now) as [l1 [slot|e|]] eqn:HG;
    simpl in Hinv1; try exact Hinv1.
  apply getSection_resident, resident_sectionAt in HG as ([Hslot _] & _).
  destruct (sectionAt l1 slot) as [s|] eqn:Hs; [|exact Hinv1].
  apply Hk; assumption.
Qed.

Lemma cache_inv_exec (loader : Loader) (op : Op) (now : Z) :
  cache_inv loader -> cache_inv (fst (exec loader op now)).
Proof.
  intros Hinv.
  assert (Hforget : forall (A : Type) (r : Loader * outcome A),
             fst (forget r) = fst r)
    by (intros A [l [a|e|]]; reflexivity).
  destruct op; simpl; rewrite Hforget;
    apply cache_inv_atPos; try exact Hinv;
    intros l1 slot s ax ay az Hinv1 Hslot Hs;
    cbv zeta;
    repeat (match goal with
            | |- context [if ?b then _ else _] => destruct b
            end; cbv zeta);
    simpl; try exact Hinv1;
    apply (cache_inv_store l1 slot s); auto.
Qed.

Lemma cache_inv_run (ops : list (Op * Z)) (loader : Loader) :
  cache_inv loader -> cache_inv (fst (run loader ops)).
Proof.
  revert loader. induction ops as [|[op now] ops IH]; intros loader Hinv.
  - exact Hinv.
  - simpl. pose proof (cache_inv_exec loader op now Hinv) as H1.
    destruct (exec loader op now) as [l1 [[]|e|]]; simpl in H1.
    + apply IH. exact H1.
    + exact H1.
    + exact H1.
Qed.

(** C2: whatever sequence of shape and edge operations a new store has
    gone through, whenever the clock was read and however the sequence
    ended, at most four sections are in the cache and no two of them have
    the same key [(sectionX, sectionY)]. *)
Theorem cache_at_most_one_per_key (fs : FileSystem) (userDir gameDir : string)
    (ops : list (Op * Z)) :
  let loader := fst (run (NewLoader fs userDir gameDir) ops) in
  (length (residents loader) <= 4)%nat
  /\ NoDup (key <$> residents loader)
  /\ forall (i j : nat) (s t : Section_),
       cache (sectionCache loader) !! i = Some (Some s) ->
       cache (sectionCache loader) !! j = Some (Some t) ->
       secX s = secX t -> secY s = secY t -> i = j.
Proof.
  pose proof (cache_inv_run ops _ (cache_inv_new fs userDir gameDir)) as Hinv.
  destruct (residents_bound _ Hinv) as [H4 Hnd].
  repeat split; try assumption.
  intros i j s t Hi Hj Hx Hy.
  destruct Hinv as (_ & _ & Hd). apply (Hd i j s t Hi Hj).
  unfold key. congruence.
Qed.

End Steps.

(** Five sections through the four slots: the sequence runs to its end
    and four sections stay. *)
Example five_sections_four_slots :
  let r := run (codec := ReferenceCodec.codec) ReferenceCodec.freshLoader
             [(OpSetShape 0 0 0 1, 10); (OpSetShape 200 0 0 1, 11);
              (OpSetShape 400 0 0 1, 12); (OpSetShape 600 0 0 1, 13);
              (OpGetShape 800 0 0, 14)] in
  snd r = Done tt
  /\ key <$> residents (fst r) = [(4, 0); (1, 0); (2, 0); (3, 0)].
Proof. vm_compute. split; reflexivity. Qed.

End CacheInvariant.

(** ** The notifications of a query *)
Module Notifications.
Import World StoreFacts.

(** Slot [o] has the oldest time among the slots [0 .. m-1], and is the
    first of them with that time. *)
Definition oldestFirst (c : SectionCache) (o m : Z) : Prop :=
  0 <= o < m
  /\ forall j, 0 <= j < m ->
       timeAt c o <= timeAt c j /\ (j < o -> timeAt c o < timeAt c j).

Lemma scan_oldest (c : SectionCache) (sx sy : Z) (n : nat) (i o o' : Z) :
  0 <= i ->
  (o = -1 /\ i = 0) \/ oldestFirst c o i ->
  scan c sx sy n i o = inr o' ->
  (o' = -1 /\ i + Z.of_nat n = 0) \/ oldestFirst c o' (i + Z.of_nat n).
Proof.
  revert i o. induction n as [|n IH]; intros i o Hi Hinv Hs; simpl in Hs.
  - injection Hs as <-. rewrite Z.add_0_r. exact Hinv.
  - destruct (holds _ _ _); [discriminate|].
    apply IH in Hs; [| lia |].
    + replace (i + Z.of_nat (S n)) with (i + 1 + Z.of_nat n) by lia.
      exact Hs.
    + right. destruct Hinv as [[-> ->] | (Ho & Hmin)].
      * simpl. split; [lia|]. intros j Hj.
        replace j with 0 by lia. lia.
      * destruct (o =? -1) eqn:E1; [lia|]. simpl.
        destruct (timeAt c i <? timeAt c o) eqn:E2.
        -- split; [lia|]. intros j Hj.
           destruct (decide (j = i)) as [->|]; [lia|].
           specialize (Hmin j ltac:(lia)). lia.
        -- split; [lia|]. intros j Hj.
           destruct (decide (j = i)) as [->|]; [lia|].
           apply Hmin. lia.
Qed.

Section Query.
Context {codec : Codec}.

(** C3: a query for the section [(sx, sy)] on a store of four slots.  On
    a hit the observer hears nothing.  On a miss the slot reused is the
    first one with the oldest time; when it holds a section the observer
    hears exactly [SectionSave] for that section and then, once the new
    section is loaded, [SectionLoad] for [(sx, sy)]; when it is empty only
    the [SectionLoad]. *)
Theorem query_notifications (loader : Loader) (sx sy now : Z) :
  length (cache (sectionCache loader)) = 4%nat ->
  let c := sectionCache loader in
  let r := getSection loader sx sy now in
  ((exists (i : nat) (s : Section_),
      cache c !! i = Some (Some s) /\ secX s = sx /\ secY s = sy) ->
   observer (fst r) = observer loader /\ exists slot, snd r = Done slot)
  /\
  ((forall (i : nat) (s : Section_),
      cache c !! i = Some (Some s) -> ~ (secX s = sx /\ secY s = sy)) ->
   exists o,
     oldestFirst c o 4 /\
     match cache c !! Z.to_nat o, snd r with
     | Some (Some old), Done slot =>
         slot = o /\
         observer (fst r)
         = observer loader
             ++ [SectionSave (secX old) (secY old); SectionLoad sx sy]
     | Some (Some old), Failed _ =>
         observer (fst r)
         = observer loader ++ [SectionSave (secX old) (secY old)]
     | Some None, Done slot =>
         slot = o /\ observer (fst r) = observer loader ++ [SectionLoad sx sy]
     | Some None, Failed _ => observer (fst r) = observer loader
     | _, _ => False
     end).
Proof.
  intros Hlen c r. subst c r. unfold getSection. rewrite Hlen.
  destruct (scan _ _ _ _ _ _) as [i|o] eqn:Hscan.
  - split.
    + intros _. simpl. eauto.
    + intros Hnone. exfalso.
      apply scan_hit in Hscan as (_ & Hh & _).
      apply holds_key in Hh as (s & Hs & Hx & Hy).
      exact (Hnone _ _ Hs (conj Hx Hy)).
  - split.
    + intros (i & s & Hi & Hx & Hy). exfalso.
      apply scan_miss in Hscan as (Hnone & _).
      pose proof (lookup_lt_Some _ _ _ Hi) as Hlt.
      specialize (Hnone (Z.of_nat i) ltac:(lia)).
      rewrite Nat2Z.id, Hi in Hnone. simpl in Hnone.
      rewrite Hx, Hy, !Z.eqb_refl in Hnone. discriminate.
    + intros _. exists o.
      apply scan_oldest in Hscan; [| lia | left; split; reflexivity].
      destruct Hscan as [[_ H0] | Hold]; [simpl in H0; lia|].
      split; [exact Hold|].
      destruct Hold as [Ho _]. simpl in Ho.
      destruct (o <? 0) eqn:E; [lia|].
      destruct (cache (sectionCache loader) !! Z.to_nat o) as [slot0|] eqn:Hslot.
      2:{ apply lookup_ge_None in Hslot. lia. }
      destruct slot0 as [old|].
      * destruct (save _ old) as [loader1 err] eqn:Hsave.
        apply save_cache in Hsave as [_ Hobs]. simpl in Hobs.
        destruct err as [e|]; [exact Hobs|].
        destruct (load loader1 sx sy) as [section|e]; simpl.
        -- split; [reflexivity|]. rewrite Hobs, <- app_assoc. reflexivity.
        -- exact Hobs.
      * destruct (load loader sx sy) as [section|e]; simpl; auto.
Qed.

End Query.

(** A store whose four slots are taken: the sections [(0, 0)] ..
    [(3, 0)], entered at the times 10 .. 13. *)
Definition fullCache : Loader :=
  fst (run (codec := ReferenceCodec.codec) ReferenceCodec.freshLoader
         [(OpSetShape 0 0 0 1, 10); (OpSetShape 200 0 0 1, 11);
          (OpSetShape 400 0 0 1, 12); (OpSetShape 600 0 0 1, 13)]).

(** The section in its first slot. *)
Definition oldestSection : Section_ :=
  setPositionAt {| secX := 0; secY := 0; position := ∅; edges := ∅ |}
    0 0 0 2.

(** On the full store a query for the absent section [(4, 0)] evicts the
    oldest section, [(0, 0)] in slot 0: the observer hears [SectionSave 0 0]
    and then [SectionLoad 4 0]; a query for the resident section [(2, 0)]
    is a hit and the observer hears nothing. *)
Lemma query_notifications_witness :
  length (cache (sectionCache fullCache)) = 4%nat
  /\ ((forall (i : nat) (s : Section_),
         cache (sectionCache fullCache) !! i = Some (Some s) ->
         ~ (secX s = 4 /\ secY s = 0))
      /\ oldestFirst (sectionCache fullCache) 0 4
      /\ cache (sectionCache fullCache) !! 0%nat = Some (Some oldestSection)
      /\ snd (getSection (codec := ReferenceCodec.codec) fullCache 4 0 20)
         = Done 0
      /\ observer (fst (getSection (codec := ReferenceCodec.codec)
                          fullCache 4 0 20))
         = observer fullCache ++ [SectionSave 0 0; SectionLoad 4 0])
  /\ ((exists (i : nat) (s : Section_),
         cache (sectionCache fullCache) !! i = Some (Some s)
         /\ secX s = 2 /\ secY s = 0)
      /\ observer (fst (getSection (codec := ReferenceCodec.codec)
                          fullCache 2 0 20))
         = observer fullCache
      /\ exists slot,
           snd (getSection (codec := ReferenceCodec.codec) fullCache 2 0 20)
           = Done slot).
Proof.
  assert (Hlen : length (cache (sectionCache fullCache)) = 4%nat)
    by (vm_compute; reflexivity).
  assert (Htimes : times (sectionCache fullCache) = [10; 11; 12; 13])
    by (vm_compute; reflexivity).
  assert (Hfirst : cache (sectionCache fullCache) !! 0%nat
                   = Some (Some oldestSection))
    by (vm_compute; reflexivity).
  assert (Hdone : snd (getSection (codec := ReferenceCodec.codec)
                         fullCache 4 0 20) = Done 0)
    by (vm_compute; reflexivity).
  assert (Hnone : forall (i : nat) (s : Section_),
             cache (sectionCache fullCache) !! i = Some (Some s) ->
             ~ (secX s = 4 /\ secY s = 0)).
  { intros i s Hi [Hx _].
    destruct i as [|[|[|[|i]]]]; vm_compute in Hi; try discriminate Hi;
      injection Hi as <-; discriminate Hx. }
  assert (Hsome : exists (i : nat) (s : Section_),
             cache (sectionCache fullCache) !! i = Some (Some s)
             /\ secX s = 2 /\ secY s = 0).
  { exists 2%nat. eexists. split; [vm_compute; reflexivity|].
    split; reflexivity. }
  destruct (query_notifications (codec := ReferenceCodec.codec)
              fullCache 4 0 20 Hlen) as [_ Hmiss].
  destruct (query_notifications (codec := ReferenceCodec.codec)
              fullCache 2 0 20 Hlen) as [Hhit _].
  destruct (Hmiss Hnone) as (o & Hold & Hm).
  assert (Ho : o = 0).
  { destruct Hold as [Hr Hmin]. destruct (Hmin 0 ltac:(lia)) as [Hle _].
    unfold timeAt in Hle. rewrite Htimes in Hle.
    assert (Hc : o = 0 \/ o = 1 \/ o = 2 \/ o = 3) by lia.
    destruct Hc as [->|[->|[->| ->]]]; simpl in Hle; lia. }
  subst o. change (Z.to_nat 0) with 0%nat in Hm.
  rewrite Hfirst, Hdone in Hm. destruct Hm as [_ Hobs].
  split; [exact Hlen|]. split.
  - split; [exact Hnone|]. split; [exact Hold|]. split; [exact Hfirst|].
    split; [exact Hdone|exact Hobs].
  - split; [exact Hsome|]. exact (Hhit Hsome).
Defined.

(** On a fresh store the query for section [(3, 4)] is a miss into a free
    slot: the observer hears the load alone. *)
Example fresh_query_log :
  observer (fst (getSection (codec := ReferenceCodec.codec)
                   ReferenceCodec.freshLoader 3 4 10))
  = [SectionLoad 3 4].
Proof. vm_compute. reflexivity. Qed.

End Notifications.

(** ** Persistence *)
Module Persistence.
Import World StoreFacts.

Section RoundTrip.
Context {codec : Codec}.
Context (laws : CodecLaws codec).

Lemma loadPath_after_save (loader loader' : Loader) (s : Section_) :
  save loader s = (loader', None) ->
  let path := savePath loader (mapFileName (secX s) (secY s)) in
  loadPath loader' (mapFileName (secX s) (secY s)) = path
  /\ (path ∉ denied (disk loader'))
  /\ files (disk loader') !! path
     = Some (gzipWriter
               (VERSION :: gobEncodePosition (position s)
                        ++ gobEncodeEdges (edges s))).
Proof.
  unfold save. intros H.
  destruct (decide _) as [Hd|Hd]; [discriminate|].
  injection H as <-. cbv zeta.
  unfold loadPath, savePath, fileExists. cbn [ioMode withDisk disk files
    denied userDir gameDir].
  repeat split.
  - destruct (ioMode loader =? EDITOR_MODE) eqn:E; [reflexivity|].
    rewrite bool_decide_eq_true_2; [reflexivity|].
    rewrite lookup_insert_eq. eauto.
  - exact Hd.
  - apply lookup_insert_eq.
Qed.

(** C4: when the gzip and gob codecs read back what they wrote, a section
    written by [save] is read back by [load] with the same [position] and
    [edges] arrays (and under the same key). *)
Theorem save_load_round_trip (loader loader' : Loader) (s : Section_) :
  save loader s = (loader', None) ->
  exists s',
    load loader' (secX s) (secY s) = inl s'
    /\ position s' = position s /\ edges s' = edges s
    /\ secX s' = secX s /\ secY s' = secY s.
Proof.
  intros Hsave.
  destruct (loadPath_after_save _ _ _ Hsave) as (Hpath & Hden & Hfile).
  exists {| secX := secX s; secY := secY s;
            position := position s; edges := edges s |}.
  split; [|auto].
  unfold load. rewrite Hpath, Hfile.
  destruct (decide _) as [Hd|_]; [contradiction|].
  rewrite gzip_read_write.
  rewrite gob_position_read_write.
  rewrite <- (app_nil_r (gobEncodeEdges (edges s))).
  rewrite gob_edges_read_write. reflexivity.
Qed.

End RoundTrip.

(** A section with one shape and one edge, written and read back by a
    loader in runner mode. *)
Definition sampleSection : Section_ :=
  setEdgeAt (setPositionAt
               {| secX := 25; secY := 3; position := ∅; edges := ∅ |}
               1 2 3 8) 4 5 9.

Lemma save_load_round_trip_witness :
  exists loader',
    save (codec := ReferenceCodec.codec)
      (SetIoMode ReferenceCodec.freshLoader RUNNER_MODE) sampleSection
    = (loader', None)
    /\ exists s',
         load (codec := ReferenceCodec.codec) loader' 25 3 = inl s'
         /\ position s' = position sampleSection
         /\ edges s' = edges sampleSection
         /\ secX s' = 25 /\ secY s' = 3.
Proof.
  eexists. split; [vm_compute; reflexivity|].
  apply (save_load_round_trip (codec := ReferenceCodec.codec)
           reference_codec_laws
           (SetIoMode ReferenceCodec.freshLoader RUNNER_MODE) _ sampleSection).
  vm_compute. reflexivity.
Defined.

End Persistence.

(** ** Addressing *)
Module Addressing.
Import World StoreFacts.

Section Resolve.
Context {codec : Codec}.

(** C5: for non-negative world coordinates [(x, y)], a successful
    [getPosInSection] hands out the section with key
    [(floor (x / 200), floor (y / 200))] and the local cell
    [(x mod 200, y mod 200)], both indices in [[0, 200)]. *)
Theorem section_key_and_local_cell (loader loader' : Loader)
    (x y z now : Z) (slot atomX atomY atomZ : Z) :
  0 <= x -> 0 <= y ->
  getPosInSection loader x y z now
  = (loader', Done (slot, atomX, atomY, atomZ)) ->
  (exists s, sectionAt loader' slot = Some s
             /\ secX s = x / 200 /\ secY s = y / 200)
  /\ atomX = x mod 200 /\ atomY = y mod 200
  /\ 0 <= atomX < 200 /\ 0 <= atomY < 200
  /\ atomZ = z.
Proof.
  intros Hx Hy. unfold getPosInSection, SECTION_SIZE.
  destruct (getSection loader _ _ now) as [l1 [sl|e|]] eqn:HG;
    try discriminate.
  intros H. injection H as <- <- <- <- <-.
  apply getSection_resident, resident_sectionAt in HG as (_ & s & Hs & Hkx & Hky).
  rewrite GoIntFacts.div_floor in Hkx, Hky by lia.
  rewrite !GoIntFacts.rem_mod by lia.
  pose proof (Z.mod_pos_bound x 200). pose proof (Z.mod_pos_bound y 200).
  repeat split; try lia. exists s. auto.
Qed.

(** The key and the cell as numbers, without the cache. *)
Lemma key_and_cell_nonneg (x : Z) :
  0 <= x ->
  GoInt.div x SECTION_SIZE = x / 200
  /\ GoInt.rem x SECTION_SIZE = x mod 200
  /\ 0 <= GoInt.rem x SECTION_SIZE < 200.
Proof.
  intros Hx. unfold SECTION_SIZE.
  rewrite GoIntFacts.div_floor, GoIntFacts.rem_mod by lia.
  pose proof (Z.mod_pos_bound x 200). repeat split; lia.
Qed.

End Resolve.

Lemma section_key_and_local_cell_witness :
  exists loader',
    (0 <= 5230 /\ 0 <= 417
     /\ getPosInSection (codec := ReferenceCodec.codec)
          ReferenceCodec.freshLoader 5230 417 7 10
        = (loader', Done (0, 30, 17, 7)))
    /\ (exists s, sectionAt loader' 0 = Some s
                  /\ secX s = 5230 / 200 /\ secY s = 417 / 200)
    /\ 30 = 5230 mod 200 /\ 17 = 417 mod 200
    /\ 0 <= 30 < 200 /\ 0 <= 17 < 200 /\ 7 = 7.
Proof.
  exists (fst (getPosInSection (codec := ReferenceCodec.codec)
                 ReferenceCodec.freshLoader 5230 417 7 10)).
  assert (H : 0 <= 5230 /\ 0 <= 417
              /\ getPosInSection (codec := ReferenceCodec.codec)
                   ReferenceCodec.freshLoader 5230 417 7 10
                 = (fst (getPosInSection (codec := ReferenceCodec.codec)
                           ReferenceCodec.freshLoader 5230 417 7 10),
                    Done (0, 30, 17, 7))).
  { split; [lia|]. split; [lia|]. vm_compute. reflexivity. }
  split; [exact H|].
  destruct H as (H1 & H2 & H3).
  exact (section_key_and_local_cell (codec := ReferenceCodec.codec)
           _ _ 5230 417 7 10 0 30 17 7 H1 H2 H3).
Defined.

(** On negative coordinates Go's division and remainder are not the floor
    and the modulus. *)
Example key_and_cell_negative :
  GoInt.div (-1) SECTION_SIZE = 0 /\ (-1) / 200 = -1
  /\ GoInt.rem (-1) SECTION_SIZE = -1 /\ (-1) mod 200 = 199.
Proof. repeat split. Qed.

End Addressing.

(** ** The focal point *)
Module Focus.
Import World.

(** C7, as stated, fails on a negative coordinate: the target [(-1, 0)]
    differs from the focal point [(5000, 5000)] of a new loader, and
    [MoveTo] leaves the loader as it is and returns false. *)
Lemma MoveTo_negative_ignored :
  (X ReferenceCodec.freshLoader <> -1 \/ Y ReferenceCodec.freshLoader <> 0)
  /\ MoveTo ReferenceCodec.freshLoader (-1) 0
     = (ReferenceCodec.freshLoader, false).
Proof. split; [left; discriminate | reflexivity]. Qed.

(** C7 (amended): [MoveTo x y] returns true exactly when [x] and [y] are
    non-negative and [(x, y)] differs from the focal point; in that case
    the focal point becomes [(x, y)], otherwise the loader is unchanged;
    in both cases the cache, the disk and the observer's log are as they
    were: nothing is loaded or saved. *)
Theorem MoveTo_updates_focus (loader : Loader) (x y : Z) :
  let loader' := fst (MoveTo loader x y) in
  let moved := snd (MoveTo loader x y) in
  (moved = true <-> 0 <= x /\ 0 <= y /\ (X loader <> x \/ Y loader <> y))
  /\ (moved = true -> X loader' = x /\ Y loader' = y)
  /\ (moved = false -> loader' = loader)
  /\ sectionCache loader' = sectionCache loader
  /\ disk loader' = disk loader
  /\ observer loader' = observer loader.
Proof.
  unfold MoveTo.
  destruct ((0 <=? x) && (0 <=? y)
            && (negb (X loader =? x) || negb (Y loader =? y))) eqn:E; simpl.
  - apply andb_true_iff in E as [E1 E3]. apply andb_true_iff in E1 as [E1 E2].
    apply orb_true_iff in E3. rewrite !negb_true_iff in E3.
    repeat split; try reflexivity; try lia; try discriminate.
  - repeat split; try reflexivity; try discriminate.
    intros (H1 & H2 & H3). exfalso.
    apply andb_false_iff in E as [E|E].
    + apply andb_false_iff in E as [E|E]; lia.
    + apply orb_false_iff in E. rewrite !negb_false_iff in E. lia.
Qed.

End Focus.

(** ** The window *)
Module WindowFacts.
Import Gfx.

Section Mapping.
Variable intersect : BoundingBox -> BoundingBox -> bool.
Variable Shapes : list (option Shape).

Lemma isValidViewPos_spec (vx vy vz : Z) :
  isValidViewPos vx vy vz = true
  <-> 0 <= vx < 96 /\ 0 <= vy < 96 /\ 0 <= vz < 24.
Proof.
  unfold isValidViewPos, SIZE, World.SECTION_Z_SIZE.
  rewrite negb_true_iff, !orb_false_iff. lia.
Qed.

(** C6: for world coordinates that are Go [int]s, [toViewPos] reports
    valid exactly when the window-relative coordinates it returns lie in
    [[0, 96)] for X and Y and in [[0, 24)] for Z; these are
    [wx - (Loader.X - 48)] and [wy - (Loader.Y - 48)] whenever those
    differences do not overflow; and [toWorldPos] maps the view
    coordinates of a valid position back to [(wx, wy, wz)]. *)
Theorem toViewPos_valid_and_inverse (view : View) (wx wy wz : Z) :
  GoInt.in_range wx -> GoInt.in_range wy ->
  let '(vx, vy, vz, valid) := toViewPos view wx wy wz in
  (valid = true <-> 0 <= vx < 96 /\ 0 <= vy < 96 /\ 0 <= vz < 24)
  /\ vz = wz
  /\ (GoInt.in_range (World.X (Loader view) - 48) ->
      GoInt.in_range (wx - (World.X (Loader view) - 48)) ->
      vx = wx - (World.X (Loader view) - 48))
  /\ (GoInt.in_range (World.Y (Loader view) - 48) ->
      GoInt.in_range (wy - (World.Y (Loader view) - 48)) ->
      vy = wy - (World.Y (Loader view) - 48))
  /\ (valid = true -> toWorldPos view vx vy vz = (wx, wy, wz)).
Proof.
  intros Hx Hy. unfold toViewPos.
  split; [apply isValidViewPos_spec|].
  split; [reflexivity|].
  change (GoInt.div SIZE 2) with 48.
  split; [|split].
  - intros H1 H2. unfold GoInt.sub.
    rewrite (GoIntFacts.wrap_id (World.X (Loader view) - 48)) by exact H1.
    apply GoIntFacts.wrap_id. exact H2.
  - intros H1 H2. unfold GoInt.sub.
    rewrite (GoIntFacts.wrap_id (World.Y (Loader view) - 48)) by exact H1.
    apply GoIntFacts.wrap_id. exact H2.
  - intros _. unfold toWorldPos. change (GoInt.div SIZE 2) with 48.
    rewrite !GoIntFacts.add_sub_cancel by assumption. reflexivity.
Qed.

(** C10: when the start cell of the context holds no shape, [GetBlocker]
    answers nil for every target: nothing is searched and nothing is
    signalled. *)
Theorem GetBlocker_empty_start (view : View) (src : Ref)
    (p : SectionPosition) (toWorldX toWorldY toWorldZ : Z) :
  start (context view) = Some src ->
  pos (blockPos view src) = Some p ->
  Block p = 0 ->
  GetBlocker intersect Shapes view toWorldX toWorldY toWorldZ = Some None.
Proof.
  intros Hstart Hpos Hblock. unfold GetBlocker.
  rewrite Hstart, Hpos, Hblock. reflexivity.
Qed.

End Mapping.

Lemma toViewPos_valid_and_inverse_witness :
  (GoInt.in_range 4963 /\ GoInt.in_range 4970)
  /\ let '(vx, vy, vz, valid) :=
       toViewPos SampleWindow.emptyWindow 4963 4970 5 in
     (valid = true <-> 0 <= vx < 96 /\ 0 <= vy < 96 /\ 0 <= vz < 24)
     /\ vz = 5
     /\ (GoInt.in_range (World.X (Loader SampleWindow.emptyWindow) - 48) ->
         GoInt.in_range
           (4963 - (World.X (Loader SampleWindow.emptyWindow) - 48)) ->
         vx = 4963 - (World.X (Loader SampleWindow.emptyWindow) - 48))
     /\ (GoInt.in_range (World.Y (Loader SampleWindow.emptyWindow) - 48) ->
         GoInt.in_range
           (4970 - (World.Y (Loader SampleWindow.emptyWindow) - 48)) ->
         vy = 4970 - (World.Y (Loader SampleWindow.emptyWindow) - 48))
     /\ (valid = true ->
         toWorldPos SampleWindow.emptyWindow vx vy vz = (4963, 4970, 5)).
Proof.
  assert (H : GoInt.in_range 4963 /\ GoInt.in_range 4970)
    by (unfold GoInt.in_range, GoInt.min_int, GoInt.max_int; lia).
  split; [exact H|].
  exact (toViewPos_valid_and_inverse SampleWindow.emptyWindow 4963 4970 5
           (proj1 H) (proj2 H)).
Defined.

(** The window of the focal point [(5000, 5000)] starts at world
    [(4952, 4952)]. *)
Example toViewPos_inside :
  toViewPos SampleWindow.emptyWindow 4963 4970 5 = (11, 18, 5, true).
Proof. reflexivity. Qed.

Example toViewPos_outside :
  toViewPos SampleWindow.emptyWindow 4951 4970 5 = (-1, 18, 5, false)
  /\ toViewPos SampleWindow.emptyWindow 4963 4970 24 = (11, 18, 24, false).
Proof. split; reflexivity. Qed.

Lemma GetBlocker_empty_start_witness :
  (start (context (SampleWindow.startingAt SampleWindow.emptyWindow
                     (10, 10, 0))) = Some (10, 10, 0)
   /\ pos (blockPos (SampleWindow.startingAt SampleWindow.emptyWindow
                       (10, 10, 0)) (10, 10, 0)) = Some {| Block := 0 |}
   /\ Block {| Block := 0 |} = 0)
  /\ GetBlocker SampleWindow.overlap SampleWindow.catalog
       (SampleWindow.startingAt SampleWindow.emptyWindow (10, 10, 0))
       4963 4962 0 = Some None.
Proof.
  assert (H : start (context (SampleWindow.startingAt
                                SampleWindow.emptyWindow (10, 10, 0)))
              = Some (10, 10, 0)
              /\ pos (blockPos (SampleWindow.startingAt
                                  SampleWindow.emptyWindow (10, 10, 0))
                        (10, 10, 0)) = Some {| Block := 0 |}
              /\ Block {| Block := 0 |} = 0)
    by (repeat split).
  split; [exact H|].
  destruct H as (H1 & H2 & H3).
  exact (GetBlocker_empty_start SampleWindow.overlap SampleWindow.catalog
           _ _ _ 4963 4962 0 H1 H2 H3).
Defined.

(** With a shape in the start cell the search does run: the mover at
    [(10, 10, 0)] is blocked at [(11, 10, 0)] and free at [(9, 10, 0)]. *)
Example GetBlocker_with_mover :
  GetBlocker SampleWindow.overlap SampleWindow.catalog
    (SampleWindow.startingAt SampleWindow.moverAndBlock (10, 10, 0))
    4963 4962 0 = Some (Some (11, 10, 0))
  /\ GetBlocker SampleWindow.overlap SampleWindow.catalog
       (SampleWindow.startingAt SampleWindow.moverAndBlock (10, 10, 0))
       4961 4962 0 = Some None.
Proof. split; vm_compute; reflexivity. Qed.

(** Without the mover the same block is not seen. *)
Example GetBlocker_without_mover :
  GetBlocker SampleWindow.overlap SampleWindow.catalog
    (SampleWindow.startingAt
       (SampleWindow.window
          (fun r => if bool_decide (r = (11, 10, 0)) then 2 else 0))
       (10, 10, 0))
    4963 4962 0 = Some None.
Proof. reflexivity. Qed.

End WindowFacts.

(** ** The heuristic of the path finder *)
Module HeuristicFacts.
Import Gfx.

(** The heuristic as the specification words it: the Manhattan distance
    between the neighbor and the goal, the neighbor offset by half the
    width of the mover's box and the goal by half the width of the
    destination box. *)
Definition heuristic_spec (neighbor goal : Ref) (sb eb : BoundingBox) : Z :=
  let '(nx, ny, nz) := neighbor in
  let '(gx, gy, gz) := goal in
  let ns := Z.quot (W sb) 2 in
  let gs := Z.quot (W eb) 2 in
  Z.abs ((gx + gs) - (nx + ns)) + Z.abs ((gy + gs) - (ny + ns))
  + Z.abs ((gz + gs) - (nz + ns)).

Section Search.
Variable intersect : BoundingBox -> BoundingBox -> bool.
Variable Shapes : list (option Shape).

Lemma AbsInt_abs (n : Z) : GoInt.min_int < n <= GoInt.max_int ->
  AbsInt n = Z.abs n.
Proof.
  unfold AbsInt, GoInt.sub, GoInt.min_int, GoInt.max_int. intros Hn.
  destruct (n <? 0) eqn:E; [|lia].
  rewrite GoIntFacts.wrap_id; [lia|].
  unfold GoInt.in_range, GoInt.min_int, GoInt.max_int. lia.
Qed.

(** What [heuristic] computes on cells of the window, for box widths up
    to [2^32]: both half widths are added to the coordinate difference,
    on each of the three axes. *)
Lemma heuristic_value (view : View) (sb eb : BoundingBox)
    (x0 y0 z0 x1 y1 z1 : Z) :
  startBox (context view) = Some sb -> endBox (context view) = Some eb ->
  0 <= W sb <= 2 ^ 32 -> 0 <= W eb <= 2 ^ 32 ->
  isValidViewPos x0 y0 z0 = true -> isValidViewPos x1 y1 z1 = true ->
  heuristic (x0, y0, z0) (x1, y1, z1) view
  = Ret (Z.abs (x1 - x0 + W sb / 2 + W eb / 2)
         + Z.abs (y1 - y0 + W sb / 2 + W eb / 2)
         + Z.abs (z1 - z0 + W sb / 2 + W eb / 2)) view.
Proof.
  intros Hsb Heb Hws Hwe H0 H1.
  apply WindowFacts.isValidViewPos_spec in H0, H1.
  unfold heuristic, bind, get, orCrash, ret. rewrite Hsb, Heb.
  unfold GoInt.div. rewrite !Z.quot_div_nonneg by lia.
  assert (Hs : 0 <= W sb / 2 <= 2 ^ 32)
    by (split; [apply Z.div_pos; lia | apply Z.div_le_upper_bound; lia]).
  assert (He : 0 <= W eb / 2 <= 2 ^ 32)
    by (split; [apply Z.div_pos; lia | apply Z.div_le_upper_bound; lia]).
  assert (P32 : 2 ^ 32 = 4294967296) by reflexivity.
  assert (Hw : forall n, -2 ^ 40 <= n <= 2 ^ 40 -> GoInt.wrap n = n).
  { intros n Hn. apply GoIntFacts.wrap_id.
    unfold GoInt.in_range, GoInt.min_int, GoInt.max_int. lia. }
  assert (Hd : forall c1 c0, 0 <= c1 < 96 -> 0 <= c0 < 96 ->
             AbsInt (GoInt.add (GoInt.sub (GoInt.add c1 (W sb / 2)) c0)
                       (W eb / 2))
             = Z.abs (c1 - c0 + W sb / 2 + W eb / 2)).
  { intros c1 c0 Hc1 Hc0. unfold GoInt.add, GoInt.sub.
    rewrite (Hw (c1 + W sb / 2)) by lia.
    rewrite (Hw (c1 + W sb / 2 - c0)) by lia.
    rewrite (Hw (c1 + W sb / 2 - c0 + W eb / 2)) by lia.
    rewrite AbsInt_abs by (unfold GoInt.min_int, GoInt.max_int; lia).
    f_equal. lia. }
  rewrite !Hd by lia.
  set (d1 := Z.abs (x1 - x0 + W sb / 2 + W eb / 2)).
  set (d2 := Z.abs (y1 - y0 + W sb / 2 + W eb / 2)).
  set (d3 := Z.abs (z1 - z0 + W sb / 2 + W eb / 2)).
  unfold GoInt.add.
  rewrite (Hw (d1 + d2)) by (unfold d1, d2; lia).
  rewrite (Hw (d1 + d2 + d3)) by (unfold d1, d2, d3; lia).
  reflexivity.
Qed.

(** A neighbor seen for the first time gets the value of [heuristic] as
    its [h], is marked visited and joins the open list. *)
Lemma visit_first_time (view view' : View) (currentNode neighbor e : Ref)
    (openList : list Ref) (hv : Z) :
  closed (nodeAt view neighbor) = false ->
  visited (nodeAt view neighbor) = false ->
  end_ (context view) = Some e ->
  heuristic neighbor e view = Ret hv view' ->
  exists view'',
    visit currentNode neighbor openList view
    = Ret (openList ++ [neighbor]) view''
    /\ h (nodeAt view'' neighbor) = hv
    /\ visited (nodeAt view'' neighbor) = true.
Proof.
  intros Hc Hv He Hh. unfold visit, bind, get.
  rewrite Hc, Hv. cbn [negb]. unfold orCrash at 1. rewrite He.
  unfold ret at 1. rewrite Hh.
  unfold setNode, ret. eexists. split; [reflexivity|].
  unfold nodeAt, withPathNode. cbn [pathNode].
  rewrite lookup_insert_eq. split; reflexivity.
Qed.

End Search.

(** C9 fails on the code: [FindPath] from [(4962, 4962, 0)] to
    [(4972, 4962, 0)] with footprints of width 2, on an empty window.  The
    neighbor [(11, 10, 0)] of the start cell is visited and gets [h = 15];
    the distance between the offset endpoints is 9. *)
Theorem heuristic_adds_both_half_widths :
  match FindPath SampleWindow.overlap SampleWindow.catalog
          4962 4962 0 4972 4962 0 false 2 2 SampleWindow.emptyWindow with
  | Ret _ view' =>
      visited (nodeAt view' (11, 10, 0)) = true
      /\ parent (nodeAt view' (11, 10, 0)) = Some (10, 10, 0)
      /\ end_ (context view') = Some (20, 10, 0)
      /\ h (nodeAt view' (11, 10, 0)) = 15
  | _ => False
  end
  /\ heuristic_spec (11, 10, 0) (20, 10, 0)
       {| boxX := 10; boxY := 10; boxZ := 0; W := 2; H := 2; D := 4 |}
       {| boxX := 20; boxY := 10; boxZ := 0; W := 2; H := 2; D := 4 |}
     = 9.
Proof. vm_compute. repeat split. Qed.

(** With footprints of width 1 the half widths vanish and the two agree. *)
Example heuristic_width_one :
  match FindPath SampleWindow.overlap SampleWindow.catalog
          4962 4962 0 4972 4962 0 false 1 1 SampleWindow.emptyWindow with
  | Ret _ view' => h (nodeAt view' (11, 10, 0)) = 9
  | _ => False
  end
  /\ heuristic_spec (11, 10, 0) (20, 10, 0)
       {| boxX := 10; boxY := 10; boxZ := 0; W := 1; H := 1; D := 4 |}
       {| boxX := 20; boxY := 10; boxZ := 0; W := 1; H := 1; D := 4 |}
     = 9.
Proof. vm_compute. repeat split. Qed.

End HeuristicFacts.

(** ** The path finder *)
Module PathFacts.
Import Gfx.

(** The part of a [PathNode] the A* loop itself reads and writes; the
    blocker cache ([fitCalled], [blocker]) is the rest. *)
Definition core (n : PathNode) : Z * Z * Z * bool * bool * option Ref :=
  (f n, g n, h n, visited n, closed n, parent n).

(** [frame v v']: from [v] to [v'] only the blocker cache changed. *)
Definition frame (v v' : View) : Prop :=
  Loader v' = Loader v /\ blockPos v' = blockPos v
  /\ context v' = context v
  /\ forall r, core (nodeAt v' r) = core (nodeAt v r).

Lemma frame_refl (v : View) : frame v v.
Proof. repeat split. Qed.

Lemma frame_trans (v1 v2 v3 : View) :
  frame v1 v2 -> frame v2 v3 -> frame v1 v3.
Proof.
  intros (A1 & B1 & C1 & D1) (A2 & B2 & C2 & D2).
  repeat split; try congruence.
Qed.

(** [framed v Q r]: the call that ended as [r] from [v] did not run out of
    fuel, and if it returned, it changed only the blocker cache and its
    value satisfies [Q]. *)
Definition framed {A : Type} (v : View) (Q : A -> Prop) (r : res A) : Prop :=
  match r with
  | Ret a v' => frame v v' /\ Q a
  | Crash => True
  | OutOfFuel => False
  end.

Lemma framed_ret {A : Type} (v : View) (Q : A -> Prop) (a : A) :
  Q a -> framed v Q (ret a v).
Proof. intros HQ. unfold framed, ret. split; [apply frame_refl | exact HQ]. Qed.

Lemma framed_bind {A B : Type} (v : View) (Q1 : A -> Prop) (Q2 : B -> Prop)
    (m : M A) (k : A -> M B) :
  framed v Q1 (m v) ->
  (forall a v1, frame v v1 -> Q1 a -> framed v1 Q2 (k a v1)) ->
  framed v Q2 (bind m k v).
Proof.
  unfold bind, framed. intros Hm Hk.
  destruct (m v) as [a v1| |]; try exact Hm.
  destruct Hm as [Hf HQ]. specialize (Hk a v1 Hf HQ).
  destruct (k a v1) as [b v2| |]; try exact Hk.
  destruct Hk as [Hf2 HQ2]. split; [eapply frame_trans; eassumption|exact HQ2].
Qed.

Lemma framed_weaken {A : Type} (v : View) (Q Q' : A -> Prop) (r : res A) :
  (forall a, Q a -> Q' a) -> framed v Q r -> framed v Q' r.
Proof.
  unfold framed. intros HQ. destruct r; auto. intros [? ?]; auto.
Qed.

Lemma framed_orCrash {A : Type} (v : View) (o : option A) :
  framed v (fun a => o = Some a) (orCrash o v).
Proof. destruct o; simpl; [split; [apply frame_refl|reflexivity]|exact I]. Qed.

Definition validRef (r : Ref) : Prop :=
  let '(x, y, z) := r in isValidViewPos x y z = true.

Section Search.
Variable intersect : BoundingBox -> BoundingBox -> bool.
Variable Shapes : list (option Shape).

Lemma cell_framed (v : View) (x y z : Z) :
  framed v validRef (cell x y z v).
Proof.
  unfold cell. destruct (isValidViewPos x y z) eqn:E; [|exact I].
  apply framed_ret. exact E.
Qed.

Lemma getBlockerWithCache_framed (v : View) (node : Ref) :
  framed v (fun _ => True) (getBlockerWithCache intersect Shapes node v).
Proof.
  unfold getBlockerWithCache.
  destruct (isPathing (context v)).
  - destruct (negb (fitCalled (nodeAt v node))).
    + destruct (GetBlocker _ _ _ _ _ _) as [b|]; [|exact I].
      split; [|exact I]. repeat split. intros r.
      unfold nodeAt, withPathNode. cbn [pathNode].
      destruct (decide (r = node)) as [->|Hne].
      * rewrite lookup_insert_eq. reflexivity.
      * rewrite lookup_insert_ne by congruence. reflexivity.
    + split; [apply frame_refl|exact I].
  - destruct (GetBlocker _ _ _ _ _ _) as [b|]; [|exact I].
    split; [apply frame_refl|exact I].
Qed.

Lemma dropDown_framed (v : View) (x y : Z) (n : nat) :
  framed v (fun _ => True) (dropDown intersect Shapes x y n v).
Proof.
  revert v. induction n as [|n IH]; intros v.
  - apply framed_ret. exact I.
  - cbn [dropDown].
    eapply framed_bind; [apply cell_framed|]. intros node v1 _ _.
    eapply framed_bind; [apply getBlockerWithCache_framed|].
    intros standingOn v2 _ _.
    destruct standingOn; [apply framed_ret; exact I | apply IH].
Qed.

Lemma tryMove_framed (v : View) (x y z : Z) :
  framed v (fun o => forall r, o = Some r -> validRef r)
    (tryMove intersect Shapes x y z v).
Proof.
  unfold tryMove.
  eapply framed_bind with (Q1 := fun _ => True).
  { destruct (0 <? z); [apply dropDown_framed | apply framed_ret; exact I]. }
  intros [z' standingOn] v1 _ _.
  unfold bind at 1, get.
  eapply framed_bind with (Q1 := fun _ => True).
  { destruct standingOn as [s|]; [|apply framed_ret; exact I].
    destruct (negb (isFlying (context v1))); [|apply framed_ret; exact I].
    eapply framed_bind; [apply framed_orCrash|]. intros p v2 _ _.
    eapply framed_bind; [apply framed_orCrash|]. intros sh v3 _ _.
    apply framed_ret. exact I. }
  intros noSupport v2 _ _.
  destruct noSupport; [apply framed_ret; discriminate|].
  destruct (z' <? z).
  - eapply framed_bind; [apply cell_framed|]. intros node v3 _ Hn.
    apply framed_ret. intros q [= <-]. exact Hn.
  - eapply framed_bind; [apply cell_framed|]. intros node v3 _ Hn.
    eapply framed_bind; [apply getBlockerWithCache_framed|].
    intros b v4 _ _.
    destruct b; [|apply framed_ret; intros q [= <-]; exact Hn].
    eapply framed_bind; [apply cell_framed|]. intros node' v5 _ Hn'.
    eapply framed_bind; [apply getBlockerWithCache_framed|].
    intros b' v6 _ _.
    destruct b'; apply framed_ret; [discriminate|].
    intros q [= <-]. exact Hn'.
Qed.

Lemma astarNeighbors_framed (v : View) (node : Ref) :
  framed v (Forall validRef) (astarNeighbors intersect Shapes node v).
Proof.
  unfold astarNeighbors. destruct node as [[x y] z].
  assert (Htry : forall (guard : bool) dx dy (l : list Ref) v0,
             Forall validRef l ->
             framed v0 (Forall validRef)
               ((if guard then
                   bind (tryInDir intersect Shapes (x, y, z) dx dy)
                     (fun newNode =>
                        match newNode with
                        | Some n => ret (l ++ [n])
                        | None => ret l
                        end)
                 else ret l) v0)).
  { intros guard dx dy l v0 Hl. destruct guard; [|apply framed_ret; exact Hl].
    eapply framed_bind; [apply tryMove_framed|]. intros o v1 _ Ho.
    destruct o as [n|]; apply framed_ret; [|exact Hl].
    apply Forall_app. split; [exact Hl|]. constructor; [|constructor].
    apply Ho. reflexivity. }
  eapply framed_bind; [apply Htry; constructor|]. intros l1 v1 _ H1.
  eapply framed_bind; [apply Htry; exact H1|]. intros l2 v2 _ H2.
  eapply framed_bind; [apply Htry; exact H2|]. intros l3 v3 _ H3.
  apply Htry. exact H3.
Qed.

End Search.

(** *** Counting the cells that are not closed *)

(** The cells of the window. *)
Definition allCells : list Ref :=
  flat_map (fun x =>
    flat_map (fun y =>
      map (fun z => (x, y, z)) (seqZ 0 World.SECTION_Z_SIZE))
      (seqZ 0 SIZE))
    (seqZ 0 SIZE).

Lemma flat_map_length_const {A B : Type} (fn : A -> list B) (l : list A)
    (k : nat) :
  (forall a, length (fn a) = k) ->
  length (flat_map fn l) = (length l * k)%nat.
Proof.
  intros Hk. induction l as [|a l IH]; simpl; [reflexivity|].
  rewrite length_app, Hk, IH. reflexivity.
Qed.

Lemma allCells_length : length allCells = cells.
Proof.
  unfold allCells, cells.
  rewrite (flat_map_length_const _ _
             (Z.to_nat SIZE * Z.to_nat World.SECTION_Z_SIZE)).
  - rewrite length_seqZ. unfold SIZE, World.SECTION_Z_SIZE. lia.
  - intros x.
    rewrite (flat_map_length_const _ _ (Z.to_nat World.SECTION_Z_SIZE)).
    + rewrite length_seqZ. reflexivity.
    + intros y. rewrite length_map, length_seqZ. reflexivity.
Qed.

Lemma validRef_allCells (r : Ref) : validRef r -> In r allCells.
Proof.
  destruct r as [[x y] z]. intros Hv.
  apply WindowFacts.isValidViewPos_spec in Hv.
  unfold allCells. apply in_flat_map. exists x. split.
  { apply list_elem_of_In, elem_of_seqZ. unfold SIZE. lia. }
  apply in_flat_map. exists y. split.
  { apply list_elem_of_In, elem_of_seqZ. unfold SIZE. lia. }
  apply in_map. apply list_elem_of_In, elem_of_seqZ.
  unfold World.SECTION_Z_SIZE. lia.
Qed.

Fixpoint countUnclosed (v : View) (l : list Ref) : nat :=
  match l with
  | [] => 0
  | r :: l' =>
      ((if closed (nodeAt v r) then 0 else 1) + countUnclosed v l')%nat
  end.

Definition unclosed (v : View) : nat := countUnclosed v allCells.

Lemma countUnclosed_length (v : View) (l : list Ref) :
  (countUnclosed v l <= length l)%nat.
Proof.
  induction l as [|r l IH]; simpl; [lia|].
  destruct (closed (nodeAt v r)); lia.
Qed.

Lemma unclosed_cells (v : View) : (unclosed v <= cells)%nat.
Proof. rewrite <- allCells_length. apply countUnclosed_length. Qed.

Lemma countUnclosed_mono (v v' : View) (l : list Ref) :
  (forall q, closed (nodeAt v q) = true -> closed (nodeAt v' q) = true) ->
  (countUnclosed v' l <= countUnclosed v l)%nat.
Proof.
  intros Hm. induction l as [|r l IH]; simpl; [lia|].
  specialize (Hm r).
  destruct (closed (nodeAt v r)), (closed (nodeAt v' r)); lia.
Qed.

Lemma countUnclosed_same (v v' : View) (l : list Ref) :
  (forall q, closed (nodeAt v' q) = closed (nodeAt v q)) ->
  countUnclosed v' l = countUnclosed v l.
Proof.
  intros Hs. induction l as [|r l IH]; simpl; [reflexivity|].
  rewrite Hs, IH. reflexivity.
Qed.

Lemma countUnclosed_close (v v' : View) (l : list Ref) (r : Ref) :
  In r l ->
  closed (nodeAt v r) = false -> closed (nodeAt v' r) = true ->
  (forall q, closed (nodeAt v q) = true -> closed (nodeAt v' q) = true) ->
  (countUnclosed v' l < countUnclosed v l)%nat.
Proof.
  intros Hin Hr Hr' Hm. induction l as [|q l IH]; [destruct Hin|].
  pose proof (countUnclosed_mono v v' l Hm) as Hle.
  simpl. destruct Hin as [->|Hin].
  - rewrite Hr, Hr'. lia.
  - specialize (IH Hin). specialize (Hm q).
    destruct (closed (nodeAt v q)), (closed (nodeAt v' q)); lia.
Qed.

(** *** The invariants of the A* loop *)

(** The scores: [g] is never negative and never more than the number of
    closed cells; a parent is closed and one step nearer to the start. *)
Definition scores_ok (v : View) : Prop :=
  (forall r, 0 <= g (nodeAt v r)
             /\ g (nodeAt v r) + Z.of_nat (unclosed v) <= Z.of_nat cells)
  /\ (forall r p, parent (nodeAt v r) = Some p ->
                  g (nodeAt v r) = g (nodeAt v p) + 1
                  /\ closed (nodeAt v p) = true).

(** The open list while the neighbors are visited: cells of the window,
    each once, visited and not closed. *)
Definition open_ok (v : View) (openList : list Ref) : Prop :=
  NoDup openList
  /\ forall r, r ∈ openList ->
       validRef r /\ closed (nodeAt v r) = false
       /\ visited (nodeAt v r) = true.

(** The open list at the head of the loop: as above, except that the
    start cell, alone on the list, is not marked visited. *)
Definition head_ok (v : View) (openList : list Ref) : Prop :=
  NoDup openList
  /\ (forall r, r ∈ openList ->
        validRef r /\ closed (nodeAt v r) = false)
  /\ ((forall r, r ∈ openList -> visited (nodeAt v r) = true)
      \/ (length openList <= 1)%nat).

Lemma unclosed_frame (v v' : View) :
  (forall r, core (nodeAt v' r) = core (nodeAt v r)) ->
  unclosed v' = unclosed v.
Proof.
  intros Hc. apply countUnclosed_same. intros q.
  specialize (Hc q). unfold core in Hc. congruence.
Qed.

Lemma scores_ok_frame (v v' : View) :
  (forall r, core (nodeAt v' r) = core (nodeAt v r)) ->
  scores_ok v -> scores_ok v'.
Proof.
  intros Hc [Hg Hp]. pose proof (unclosed_frame v v' Hc) as Hu.
  assert (Hgp : forall r, g (nodeAt v' r) = g (nodeAt v r)
                          /\ parent (nodeAt v' r) = parent (nodeAt v r)
                          /\ closed (nodeAt v' r) = closed (nodeAt v r)).
  { intros r. specialize (Hc r). unfold core in Hc.
    repeat split; congruence. }
  split.
  - intros r. destruct (Hgp r) as (-> & _ & _). rewrite Hu. apply Hg.
  - intros r p Hr. destruct (Hgp r) as (-> & Hpr & _).
    destruct (Hgp p) as (-> & _ & ->). apply Hp. congruence.
Qed.

Lemma open_ok_frame (v v' : View) (openList : list Ref) :
  (forall r, core (nodeAt v' r) = core (nodeAt v r)) ->
  open_ok v openList -> open_ok v' openList.
Proof.
  intros Hc [Hnd Hall]. split; [exact Hnd|].
  intros r Hr. destruct (Hall r Hr) as (Hv & Hcl & Hvis).
  specialize (Hc r). unfold core in Hc.
  repeat split; [exact Hv | congruence | congruence].
Qed.

(** [steady v v']: from [v] to [v'] the window and the context are the
    same, but for the position of [startBox]. *)
Definition steady (v v' : View) : Prop :=
  Loader v' = Loader v /\ blockPos v' = blockPos v
  /\ isFlying (context v') = isFlying (context v)
  /\ isPathing (context v') = isPathing (context v)
  /\ usePathThrough (context v') = usePathThrough (context v)
  /\ pathThroughShapes (context v') = pathThroughShapes (context v)
  /\ start (context v') = start (context v)
  /\ end_ (context v') = end_ (context v)
  /\ endBox (context v') = endBox (context v).

Lemma steady_refl (v : View) : steady v v.
Proof. repeat split. Qed.

Lemma steady_trans (v1 v2 v3 : View) :
  steady v1 v2 -> steady v2 v3 -> steady v1 v3.
Proof. unfold steady. intuition congruence. Qed.

Lemma frame_steady (v v' : View) : frame v v' -> steady v v'.
Proof. intros (A & B & C & _). unfold steady. rewrite A, B, C. tauto. Qed.

Lemma nodeAt_setNode (v : View) (r q : Ref) (n : PathNode) :
  nodeAt (withPathNode v (<[r := n]> (pathNode v))) q
  = if decide (q = r) then n else nodeAt v q.
Proof.
  unfold nodeAt, withPathNode. cbn [pathNode].
  destruct (decide (q = r)) as [->|Hne].
  - rewrite lookup_insert_eq. reflexivity.
  - rewrite lookup_insert_ne by congruence. reflexivity.
Qed.

(** While the neighbors of the closed cell [c] are visited. *)
Definition mid_ok (v : View) (openList : list Ref) (c : Ref) : Prop :=
  open_ok v openList /\ scores_ok v
  /\ closed (nodeAt v c) = true
  /\ g (nodeAt v c) + Z.of_nat (unclosed v) + 1 <= Z.of_nat cells.

(** Giving the open cell [nb] the closed cell [c] as its parent. *)
Lemma adopt_ok (v : View) (c nb : Ref) (n' : PathNode) :
  scores_ok v ->
  closed (nodeAt v c) = true ->
  g (nodeAt v c) + Z.of_nat (unclosed v) + 1 <= Z.of_nat cells ->
  closed (nodeAt v nb) = false -> closed n' = false ->
  g n' = g (nodeAt v c) + 1 -> parent n' = Some c ->
  let v' := withPathNode v (<[nb := n']> (pathNode v)) in
  scores_ok v' /\ closed (nodeAt v' c) = true
  /\ g (nodeAt v' c) + Z.of_nat (unclosed v') + 1 <= Z.of_nat cells
  /\ forall q, closed (nodeAt v' q) = closed (nodeAt v q).
Proof.
  intros [Hg Hp] Hc Hbound Hnb Hn' Hgn Hpn v'.
  assert (Hne : c <> nb) by congruence.
  assert (Hcl : forall q, closed (nodeAt v' q) = closed (nodeAt v q)).
  { intros q. unfold v'. rewrite nodeAt_setNode.
    destruct (decide (q = nb)) as [->|]; congruence. }
  assert (Hu : unclosed v' = unclosed v)
    by (apply countUnclosed_same; exact Hcl).
  assert (Hgc : g (nodeAt v' c) = g (nodeAt v c)).
  { unfold v'. rewrite nodeAt_setNode.
    destruct (decide (c = nb)); [contradiction|reflexivity]. }
  split; [split|].
  - intros r. rewrite Hu. unfold v'. rewrite nodeAt_setNode.
    destruct (decide (r = nb)) as [->|]; [|apply Hg].
    rewrite Hgn. destruct (Hg c). lia.
  - intros r p. unfold v'. rewrite !nodeAt_setNode.
    destruct (decide (r = nb)) as [->|Hr].
    + rewrite Hpn. intros [= <-].
      destruct (decide (c = nb)); [contradiction|]. auto.
    + intros Hpar. destruct (Hp r p Hpar) as [Hgr Hcp].
      destruct (decide (p = nb)) as [->|]; [congruence|]. auto.
  - rewrite Hcl, Hu, Hgc. auto.
Qed.

Section Loop.
Variable intersect : BoundingBox -> BoundingBox -> bool.
Variable Shapes : list (option Shape).

Lemma heuristic_pure (v : View) (a b : Ref) :
  match heuristic a b v with
  | Ret _ v' => v' = v
  | Crash => True
  | OutOfFuel => False
  end.
Proof.
  unfold heuristic. destruct a as [[x0 y0] z0], b as [[x1 y1] z1].
  unfold bind, get, orCrash, ret, crash.
  destruct (startBox (context v)); [|exact I].
  destruct (endBox (context v)); [|exact I]. reflexivity.
Qed.

Lemma wrap_succ_g (v : View) (c : Ref) :
  scores_ok v ->
  g (nodeAt v c) + Z.of_nat (unclosed v) + 1 <= Z.of_nat cells ->
  GoInt.add (g (nodeAt v c)) 1 = g (nodeAt v c) + 1.
Proof.
  intros [Hg _] Hb. destruct (Hg c) as [H0 _].
  apply GoIntFacts.wrap_id.
  assert (Z.of_nat cells = 221184) by reflexivity.
  unfold GoInt.in_range, GoInt.min_int, GoInt.max_int. lia.
Qed.

Lemma visit_ok (v : View) (c nb : Ref) (openList : list Ref) :
  mid_ok v openList c -> validRef nb ->
  match visit c nb openList v with
  | Ret openList' v' =>
      mid_ok v' openList' c /\ steady v v' /\ unclosed v' = unclosed v
  | Crash => True
  | OutOfFuel => False
  end.
Proof.
  intros Hmid Hnb. pose proof Hmid as (Hopen & Hscores & Hc & Hbound).
  pose proof (wrap_succ_g v c Hscores Hbound) as Hadd.
  unfold visit, bind at 1, get.
  destruct (closed (nodeAt v nb)) eqn:Hcl; cbn [negb].
  { unfold ret. split; [exact Hmid | split; [apply steady_refl|reflexivity]]. }
  destruct (visited (nodeAt v nb)) eqn:Hvis; cbn [negb].
  - destruct (GoInt.add (g (nodeAt v c)) 1 <? g (nodeAt v nb)).
    + unfold bind, setNode, ret.
      match goal with |- context [<[nb := ?n]> _] => set (n' := n) end.
      assert (Hn1 : closed n' = false) by reflexivity.
      assert (Hn2 : g n' = g (nodeAt v c) + 1) by exact Hadd.
      assert (Hn3 : parent n' = Some c) by reflexivity.
      destruct (adopt_ok v c nb n' Hscores Hc Hbound Hcl Hn1 Hn2 Hn3)
        as (Hs' & Hc' & Hb' & Hsame).
      split; [|split; [repeat split|apply countUnclosed_same; exact Hsame]].
      split; [|auto].
      destruct Hopen as [Hnd Hall]. split; [exact Hnd|].
      intros r Hr. destruct (Hall r Hr) as (Hv & Hcr & Hvr).
      rewrite Hsame, nodeAt_setNode.
      destruct (decide (r = nb)) as [->|]; auto.
    + unfold ret. split; [exact Hmid | split; [apply steady_refl|reflexivity]].
  - unfold bind at 1, orCrash.
    destruct (end_ (context v)) as [e|]; [|exact I]. unfold ret at 1.
    unfold bind at 1.
    pose proof (heuristic_pure v nb e) as Hh.
    destruct (heuristic nb e v) as [hv v1| |]; try exact Hh. subst v1.
    unfold bind, setNode, ret.
    match goal with |- context [<[nb := ?n]> _] => set (n' := n) end.
    assert (Hn1 : closed n' = false) by reflexivity.
    assert (Hn2 : g n' = g (nodeAt v c) + 1) by exact Hadd.
    assert (Hn3 : parent n' = Some c) by reflexivity.
    destruct (adopt_ok v c nb n' Hscores Hc Hbound Hcl Hn1 Hn2 Hn3)
      as (Hs' & Hc' & Hb' & Hsame).
    split; [|split; [repeat split|apply countUnclosed_same; exact Hsame]].
    split; [|auto].
    destruct Hopen as [Hnd Hall]. split.
    + apply NoDup_app. repeat split; [exact Hnd| |apply NoDup_singleton].
      intros r Hr Hr'. apply list_elem_of_singleton in Hr'. subst r.
      destruct (Hall nb Hr) as (_ & _ & Hvr). congruence.
    + intros r Hr. rewrite Hsame, nodeAt_setNode.
      apply elem_of_app in Hr as [Hr|Hr].
      * destruct (Hall r Hr) as (Hv & Hcr & Hvr).
        destruct (decide (r = nb)) as [->|]; auto.
      * apply list_elem_of_singleton in Hr. subst r.
        destruct (decide (nb = nb)); [|contradiction]. auto.
Qed.

Lemma expand_ok (neighbors : list Ref) (v : View) (c : Ref)
    (openList : list Ref) :
  mid_ok v openList c -> Forall validRef neighbors ->
  match expand c neighbors openList v with
  | Ret openList' v' =>
      mid_ok v' openList' c /\ steady v v' /\ unclosed v' = unclosed v
  | Crash => True
  | OutOfFuel => False
  end.
Proof.
  revert v openList.
  induction neighbors as [|nb rest IH]; intros v openList Hmid Hval.
  - simpl. unfold ret. split; [exact Hmid | split; [apply steady_refl|reflexivity]].
  - cbn [expand]. unfold bind.
    apply Forall_cons in Hval as [Hnb Hrest].
    pose proof (visit_ok v c nb openList Hmid Hnb) as Hv.
    destruct (visit c nb openList v) as [open1 v1| |]; try exact Hv.
    destruct Hv as (Hmid1 & Hst1 & Hu1).
    specialize (IH v1 open1 Hmid1 Hrest).
    destruct (expand c rest open1 v1) as [open2 v2| |]; try exact IH.
    destruct IH as (Hmid2 & Hst2 & Hu2).
    split; [exact Hmid2 |]. split; [eapply steady_trans; eassumption|].
    congruence.
Qed.

(** *** The open list *)

Lemma remove_lookup (s : list Ref) (i j : nat) (x : Ref) :
  (i < length s)%nat -> remove s i !! j = Some x ->
  (j < length s - 1)%nat
  /\ ((j = i /\ s !! (length s - 1)%nat = Some x)
      \/ (j <> i /\ s !! j = Some x)).
Proof.
  intros Hi. unfold remove. rewrite last_lookup.
  replace (pred (length s)) with (length s - 1)%nat by lia.
  destruct (s !! (length s - 1)%nat) as [l|] eqn:Hl.
  2:{ apply lookup_ge_None in Hl. lia. }
  rewrite lookup_take. destruct (decide (j < length s - 1)%nat); [|discriminate].
  rewrite list_lookup_insert.
  destruct (decide (i = j /\ (i < length s)%nat)) as [[-> _]|Hn].
  - intros [= <-]. auto.
  - intros Hj. split; [assumption|]. right. split; [lia | exact Hj].
Qed.

Lemma remove_ok (s : list Ref) (i : nat) :
  (i < length s)%nat -> NoDup s ->
  NoDup (remove s i)
  /\ forall x, x ∈ remove s i -> x ∈ s /\ x <> refAt s i.
Proof.
  intros Hi Hnd.
  destruct (lookup_lt_is_Some_2 s i Hi) as [a Ha].
  assert (Hc : refAt s i = a)
    by (unfold refAt, Ref in *; rewrite Ha; reflexivity).
  split.
  - apply NoDup_alt. intros j1 j2 x H1 H2.
    apply (remove_lookup s i j1 x Hi) in H1 as [L1 [[-> E1]|[N1 E1]]];
      apply (remove_lookup s i j2 x Hi) in H2 as [L2 [[-> E2]|[N2 E2]]];
      try reflexivity.
    + pose proof (NoDup_lookup _ _ _ _ Hnd E1 E2). lia.
    + pose proof (NoDup_lookup _ _ _ _ Hnd E1 E2). lia.
    + exact (NoDup_lookup _ _ _ _ Hnd E1 E2).
  - intros x Hx. apply list_elem_of_lookup in Hx as [j Hj].
    apply (remove_lookup s i j x Hi) in Hj as [L [[-> E]|[N E]]].
    + split; [eapply list_elem_of_lookup_2; exact E|].
      rewrite Hc. intros ->.
      pose proof (NoDup_lookup _ _ _ _ Hnd E Ha). lia.
    + split; [eapply list_elem_of_lookup_2; exact E|].
      rewrite Hc. intros ->.
      pose proof (NoDup_lookup _ _ _ _ Hnd E Ha). lia.
Qed.

Lemma fold_pick (fn : nat -> nat -> bool) (l : list nat) (a : nat) :
  let r := fold_left (fun acc i => if fn acc i then i else acc) l a in
  r = a \/ In r l.
Proof.
  revert a. induction l as [|i l IH]; intros a; simpl; [left; reflexivity|].
  destruct (IH (if fn a i then i else a)) as [H|H]; [|right; right; exact H].
  rewrite H. destruct (fn a i); [right; left; reflexivity | left; reflexivity].
Qed.

Lemma lowestF_lt (v : View) (openList : list Ref) :
  openList <> [] -> (lowestF v openList < length openList)%nat.
Proof.
  intros Hne. unfold lowestF.
  destruct (fold_pick
              (fun lowInd i =>
                 f (nodeAt v (refAt openList i))
                 <? f (nodeAt v (refAt openList lowInd)))
              (seq 0 (length openList)) 0%nat) as [H|H].
  - rewrite H. destruct openList; [contradiction|simpl; lia].
  - apply in_seq in H. lia.
Qed.

(** *** The way back along the parents *)

Lemma walkBack_fuel (v : View) :
  scores_ok v ->
  forall (fuel : nat) (r : Ref) (acc : list PathStep),
    g (nodeAt v r) < Z.of_nat fuel ->
    is_Some (walkBack fuel v r acc).
Proof.
  intros [Hg Hp]. induction fuel as [|fuel IH]; intros r acc Hr.
  - destruct (Hg r). lia.
  - cbn [walkBack]. destruct (parent (nodeAt v r)) as [p|] eqn:Hpar; [|eauto].
    destruct r as [[x y] z]. apply IH.
    destruct (Hp _ _ Hpar) as [Hgr _]. lia.
Qed.

(** *** One iteration *)

Lemma head_ok_nodes (v v' : View) (openList : list Ref) :
  (forall r, nodeAt v' r = nodeAt v r) ->
  head_ok v openList -> head_ok v' openList.
Proof.
  intros Hn (Hnd & Hall & Hvis). split; [exact Hnd|]. split.
  - intros r Hr. rewrite Hn. apply Hall. exact Hr.
  - destruct Hvis as [Hvis|Hlen]; [left|right; exact Hlen].
    intros r Hr. rewrite Hn. apply Hvis. exact Hr.
Qed.

Lemma scores_ok_nodes (v v' : View) :
  (forall r, nodeAt v' r = nodeAt v r) -> scores_ok v -> scores_ok v'.
Proof.
  intros Hn. apply scores_ok_frame. intros r. rewrite Hn. reflexivity.
Qed.

Lemma unclosed_nodes (v v' : View) :
  (forall r, nodeAt v' r = nodeAt v r) -> unclosed v' = unclosed v.
Proof.
  intros Hn. apply unclosed_frame. intros r. rewrite Hn. reflexivity.
Qed.

(** Closing the open cell at index [i] and taking it off the list. *)
Lemma close_step (v v2 : View) (openList : list Ref) (i : nat) :
  head_ok v openList -> scores_ok v -> (i < length openList)%nat ->
  close (refAt openList i) v = Ret tt v2 ->
  mid_ok v2 (remove openList i) (refAt openList i)
  /\ (unclosed v2 < unclosed v)%nat
  /\ steady v v2.
Proof.
  intros (Hnd & Hall & Hvis) [Hg Hp] Hi Hclose.
  set (c := refAt openList i) in *.
  assert (Hc : c ∈ openList).
  { destruct (lookup_lt_is_Some_2 openList i Hi) as [a Ha].
    apply list_elem_of_lookup. exists i. unfold c, refAt, Ref in *.
    rewrite Ha. reflexivity. }
  destruct (Hall c Hc) as [Hcv Hcc].
  unfold close, setNode in Hclose. injection Hclose as <-.
  match goal with |- context [<[c := ?n]> _] => set (n' := n) end.
  set (v2 := withPathNode v (<[c := n']> (pathNode v))).
  assert (Hnode : forall q, nodeAt v2 q = if decide (q = c) then n'
                                         else nodeAt v q)
    by (intros q; apply nodeAt_setNode).
  assert (Hgs : forall q, g (nodeAt v2 q) = g (nodeAt v q)).
  { intros q. rewrite Hnode. destruct (decide (q = c)) as [->|]; reflexivity. }
  assert (Hps : forall q, parent (nodeAt v2 q) = parent (nodeAt v q)).
  { intros q. rewrite Hnode. destruct (decide (q = c)) as [->|]; reflexivity. }
  assert (Hvs : forall q, visited (nodeAt v2 q) = visited (nodeAt v q)).
  { intros q. rewrite Hnode. destruct (decide (q = c)) as [->|]; reflexivity. }
  assert (Hmono : forall q, closed (nodeAt v q) = true ->
                            closed (nodeAt v2 q) = true).
  { intros q Hq. rewrite Hnode. destruct (decide (q = c)); auto. }
  assert (Hcc2 : closed (nodeAt v2 c) = true).
  { rewrite Hnode. destruct (decide (c = c)); [reflexivity|contradiction]. }
  assert (Hlt : (unclosed v2 < unclosed v)%nat).
  { apply (countUnclosed_close v v2 allCells c); auto.
    apply validRef_allCells. exact Hcv. }
  destruct (remove_ok openList i Hi Hnd) as [Hnd' Hin'].
  split; [|split; [exact Hlt | repeat split]].
  split; [|split; [split|split]].
  - split; [exact Hnd'|]. intros x Hx. destruct (Hin' x Hx) as [Hxo Hxc].
    destruct (Hall x Hxo) as [Hxv Hxcl].
    rewrite Hvs, Hnode. destruct (decide (x = c)); [contradiction|].
    repeat split; try assumption.
    destruct Hvis as [Hvis|Hlen]; [apply Hvis; exact Hxo|].
    exfalso. apply Hxc.
    destruct openList as [|a [|b l]]; simpl in Hlen; try lia.
    + inversion Hxo.
    + apply list_elem_of_singleton in Hxo, Hc. congruence.
  - intros r. rewrite Hgs. destruct (Hg r). lia.
  - intros r p. rewrite Hps, !Hgs. intros Hr.
    destruct (Hp r p Hr). auto.
  - exact Hcc2.
  - rewrite Hgs. destruct (Hg c). lia.
Qed.

(** *** The loop ends within its budget *)

Lemma findPathLoop_ok (fuel : nat) :
  forall (openList : list Ref) (v : View),
    head_ok v openList -> scores_ok v -> (unclosed v < fuel)%nat ->
    match findPathLoop intersect Shapes fuel openList v with
    | Ret _ v' => steady v v'
    | Crash => True
    | OutOfFuel => False
    end.
Proof.
  induction fuel as [|fuel IH]; intros openList v Hhead Hscores Hfuel; [lia|].
  cbn [findPathLoop].
  destruct openList as [|r0 rest] eqn:Hopen.
  { unfold ret. apply steady_refl. }
  rewrite <- Hopen in *.
  assert (Hne : openList <> []) by (rewrite Hopen; discriminate).
  clear Hopen r0 rest.
  unfold bind at 1, get.
  pose proof (lowestF_lt v openList Hne) as Hlow.
  set (lowInd := lowestF v openList) in *.
  destruct (refAt openList lowInd) as [[cx cy] cz] eqn:Hcur.
  unfold bind at 1, orCrash at 1.
  destruct (startBox (context v)) as [sb|] eqn:Hsb; [|exact I].
  unfold ret at 1. unfold bind at 1, updContext.
  match goal with |- context [withContext v ?c] => set (v1 := withContext v c) end.
  assert (Hn1 : forall r, nodeAt v1 r = nodeAt v r) by reflexivity.
  assert (Hst1 : steady v v1) by (repeat split).
  unfold bind at 1, orCrash at 1.
  destruct (endBox (context v)) as [eb|] eqn:Heb; [|exact I].
  unfold ret at 1.
  pose proof (scores_ok_nodes v v1 Hn1 Hscores) as Hscores1.
  pose proof (head_ok_nodes v v1 openList Hn1 Hhead) as Hhead1.
  pose proof (unclosed_nodes v v1 Hn1) as Hu1.
  destruct (intersect (SetPos sb cx cy cz) eb).
  - unfold bind, generatePath.
    destruct (walkBack_fuel v1 Hscores1 (S cells) (cx, cy, cz) []) as [p Hp].
    { destruct Hscores1 as [Hg _]. destruct (Hg (cx, cy, cz)). lia. }
    rewrite Hp. unfold ret. exact Hst1.
  - unfold bind at 1.
    destruct (close (cx, cy, cz) v1) as [[] v2| |] eqn:Hclose;
      try discriminate Hclose.
    rewrite <- Hcur in Hclose.
    destruct (close_step v1 v2 openList lowInd Hhead1 Hscores1 Hlow Hclose)
      as (Hmid2 & Hlt2 & Hst2).
    rewrite Hcur in Hmid2.
    unfold bind at 1.
    pose proof (astarNeighbors_framed intersect Shapes v2 (cx, cy, cz)) as Hnb.
    destruct (astarNeighbors intersect Shapes (cx, cy, cz) v2)
      as [nbs v3| |]; try exact Hnb.
    destruct Hnb as [Hfr3 Hval].
    assert (Hmid3 : mid_ok v3 (remove openList lowInd) (cx, cy, cz)).
    { destruct Hmid2 as (Ho & Hs & Hc & Hb).
      destruct Hfr3 as (_ & _ & _ & Hcore).
      pose proof (unclosed_frame v2 v3 Hcore) as Hu.
      pose proof (Hcore (cx, cy, cz)) as Hcc. unfold core in Hcc.
      split; [eapply open_ok_frame; eassumption|].
      split; [eapply scores_ok_frame; eassumption|].
      split; [congruence|]. rewrite Hu.
      replace (g (nodeAt v3 (cx, cy, cz))) with (g (nodeAt v2 (cx, cy, cz)))
        by congruence.
      exact Hb. }
    assert (Hu3 : unclosed v3 = unclosed v2).
    { apply unclosed_frame. apply Hfr3. }
    unfold bind at 1.
    pose proof (expand_ok nbs v3 (cx, cy, cz) (remove openList lowInd)
                  Hmid3 Hval) as Hex.
    destruct (expand (cx, cy, cz) nbs (remove openList lowInd) v3)
      as [open4 v4| |]; try exact Hex.
    destruct Hex as (Hmid4 & Hst4 & Hu4).
    destruct Hmid4 as ((Hnd4 & Hall4) & Hs4 & _ & _).
    assert (Hhead4 : head_ok v4 open4).
    { split; [exact Hnd4|]. split.
      - intros r Hr. destruct (Hall4 r Hr) as (? & ? & ?). auto.
      - left. intros r Hr. destruct (Hall4 r Hr) as (? & ? & ?). auto. }
    specialize (IH open4 v4 Hhead4 Hs4 ltac:(lia)).
    destruct (findPathLoop intersect Shapes fuel open4 v4) as [a v5| |];
      try exact IH.
    eapply steady_trans; [exact Hst1|].
    eapply steady_trans; [exact Hst2|].
    eapply steady_trans; [apply frame_steady; exact Hfr3|].
    eapply steady_trans; [exact Hst4 | exact IH].
Qed.

(** [findPath] returns or panics; it never runs out of its budget, and it
    leaves the window and the context as they were, but for the position
    of [startBox]. *)
Lemma findPath_ok (v : View) (s : Ref) :
  start (context v) = Some s -> validRef s ->
  match findPath intersect Shapes v with
  | Ret _ v' => steady v v'
  | Crash => True
  | OutOfFuel => False
  end.
Proof.
  intros Hstart Hvalid. unfold findPath, bind at 1, resetPathFind.
  unfold bind at 1, get. unfold bind at 1, orCrash at 1.
  cbn [context withPathNode]. rewrite Hstart. unfold ret at 1.
  set (v0 := withPathNode v ∅).
  assert (Hzero : forall r, nodeAt v0 r = zeroPathNode).
  { intros r. unfold nodeAt, v0. cbn [pathNode withPathNode].
    rewrite lookup_empty. reflexivity. }
  assert (Hhead : head_ok v0 [s]).
  { split; [apply NoDup_singleton|]. split.
    - intros r Hr. apply list_elem_of_singleton in Hr. subst r.
      rewrite Hzero. auto.
    - right. simpl. lia. }
  pose proof (unclosed_cells v0) as Hu.
  assert (Hscores : scores_ok v0).
  { split.
    - intros r. rewrite Hzero. simpl. lia.
    - intros r p. rewrite Hzero. discriminate. }
  pose proof (findPathLoop_ok (S cells) [s] v0 Hhead Hscores ltac:(lia))
    as Hloop.
  destruct (findPathLoop intersect Shapes (S cells) [s] v0) as [a v'| |];
    exact Hloop.
Qed.

(** *** The two passes of [FindPath] *)

(** The view [FindPath] hands to its first search: pathing, doors closed,
    from cell [s] to cell [e] with footprints [dSrc] and [dDst]. *)
Definition firstPass (view : View) (isFlying_ : bool) (s e : Ref)
    (dSrc dDst : Z) : View :=
  withContext view
    {| isFlying := isFlying_; isPathing := true; usePathThrough := false;
       pathThroughShapes := pathThroughShapes (context view);
       start := Some s; end_ := Some e;
       startBox := Some {| boxX := s.1.1; boxY := s.1.2; boxZ := s.2;
                           W := dSrc; H := dSrc; D := 4 |};
       endBox := Some {| boxX := e.1.1; boxY := e.1.2; boxZ := e.2;
                         W := dDst; H := dDst; D := 4 |} |}.

(** Opening the doors for the second search. *)
Definition doorsOpen (v : View) : View :=
  withContext v
    {| isFlying := isFlying (context v); isPathing := isPathing (context v);
       usePathThrough := true;
       pathThroughShapes := pathThroughShapes (context v);
       start := start (context v); end_ := end_ (context v);
       startBox := startBox (context v); endBox := endBox (context v) |}.

(** Leaving [FindPath]. *)
Definition notPathing (v : View) : View :=
  withContext v
    {| isFlying := isFlying (context v); isPathing := false;
       usePathThrough := usePathThrough (context v);
       pathThroughShapes := pathThroughShapes (context v);
       start := start (context v); end_ := end_ (context v);
       startBox := startBox (context v); endBox := endBox (context v) |}.

(** [FindPath] on end points inside the window, spelled out. *)
Lemma FindPath_unfold (view : View) (sx sy sz ex ey ez : Z)
    (isFlying_ : bool) (dSrc dDst : Z)
    (svx svy svz evx evy evz : Z) :
  toViewPos view sx sy sz = (svx, svy, svz, true) ->
  toViewPos view ex ey ez = (evx, evy, evz, true) ->
  FindPath intersect Shapes sx sy sz ex ey ez isFlying_ dSrc dDst view
  = match findPath intersect Shapes
            (firstPass view isFlying_ (svx, svy, svz) (evx, evy, evz)
               dSrc dDst) with
    | Ret (Some steps) v1 => Ret (Some steps) (notPathing v1)
    | Ret None v1 =>
        match findPath intersect Shapes (doorsOpen v1) with
        | Ret steps v2 => Ret steps (notPathing v2)
        | Crash => Crash
        | OutOfFuel => OutOfFuel
        end
    | Crash => Crash
    | OutOfFuel => OutOfFuel
    end.
Proof.
  intros Hs He.
  unfold FindPath. unfold bind at 1, updContext at 1.
  unfold bind at 1, get.
  change (toViewPos (withContext view _) sx sy sz)
    with (toViewPos view sx sy sz).
  change (toViewPos (withContext view _) ex ey ez)
    with (toViewPos view ex ey ez).
  rewrite Hs, He. cbn [andb].
  unfold bind at 1. unfold bind at 1. unfold updContext at 1.
  unfold bind at 1.
  change (withContext (withContext view _) _)
    with (firstPass view isFlying_ (svx, svy, svz) (evx, evy, evz)
            dSrc dDst).
  destruct (findPath intersect Shapes _) as [[steps|] v1| |];
    reflexivity.
Qed.

(** The searches of [FindPath] return or panic within their budget, and
    the second one runs exactly when the first one returns nil. *)
Lemma FindPath_passes (view : View) (sx sy sz ex ey ez : Z)
    (isFlying_ : bool) (dSrc dDst : Z)
    (svx svy svz evx evy evz : Z) :
  toViewPos view sx sy sz = (svx, svy, svz, true) ->
  toViewPos view ex ey ez = (evx, evy, evz, true) ->
  let first :=
    firstPass view isFlying_ (svx, svy, svz) (evx, evy, evz) dSrc dDst in
  let result :=
    FindPath intersect Shapes sx sy sz ex ey ez isFlying_ dSrc dDst view in
  usePathThrough (context first) = false
  /\ match findPath intersect Shapes first with
     | Ret (Some steps) v1 =>
         result = Ret (Some steps) (notPathing v1)
         /\ usePathThrough (context (notPathing v1)) = false
     | Ret None v1 =>
         usePathThrough (context (doorsOpen v1)) = true
         /\ match findPath intersect Shapes (doorsOpen v1) with
            | Ret steps v2 =>
                result = Ret steps (notPathing v2)
                /\ usePathThrough (context (notPathing v2)) = true
            | Crash => result = Crash
            | OutOfFuel => False
            end
     | Crash => result = Crash
     | OutOfFuel => False
     end.
Proof.
  intros Hs He first result.
  split; [reflexivity|].
  assert (Hsv : validRef (svx, svy, svz))
    by (unfold toViewPos in Hs; injection Hs as <- <- <- Hv; exact Hv).
  pose proof (FindPath_unfold view sx sy sz ex ey ez isFlying_ dSrc dDst
                svx svy svz evx evy evz Hs He) as Hres.
  fold first in Hres. fold result in Hres.
  pose proof (findPath_ok first (svx, svy, svz) eq_refl Hsv) as H1.
  clearbody result.
  destruct (findPath intersect Shapes first) as [[steps|] v1| |];
    try exact H1; try exact Hres.
  - split; [exact Hres|].
    destruct H1 as (_ & _ & _ & _ & Hu & _). exact Hu.
  - split; [reflexivity|].
    assert (Hstart1 : start (context (doorsOpen v1)) = Some (svx, svy, svz)).
    { destruct H1 as (_ & _ & _ & _ & _ & _ & Hst & _). exact Hst. }
    pose proof (findPath_ok (doorsOpen v1) (svx, svy, svz) Hstart1 Hsv) as H2.
    destruct (findPath intersect Shapes (doorsOpen v1)) as [steps v2| |];
      try exact H2; try exact Hres.
    split; [exact Hres|].
    destruct H2 as (_ & _ & _ & _ & Hu & _). exact Hu.
Qed.

End Loop.

End PathFacts.

(** ** What [usePathThrough] means for a search *)
Module DoorFacts.
Import Gfx PathFacts.

(** The view with another set of pass-through shapes. *)
Definition withShapes (v : View) (pts : gset (option Z)) : View :=
  withContext v
    {| isFlying := isFlying (context v); isPathing := isPathing (context v);
       usePathThrough := usePathThrough (context v);
       pathThroughShapes := pts;
       start := start (context v); end_ := end_ (context v);
       startBox := startBox (context v); endBox := endBox (context v) |}.

Definition lift {A : Type} (pts : gset (option Z)) (r : res A) : res A :=
  match r with
  | Ret a v' => Ret a (withShapes v' pts)
  | Crash => Crash
  | OutOfFuel => OutOfFuel
  end.


(** [blind m]: with [usePathThrough] false, [m] does the same whatever
    the set of pass-through shapes is, and leaves the flag false. *)
Definition blind {A : Type} (m : M A) : Prop :=
  forall v pts,
    usePathThrough (context v) = false ->
    m (withShapes v pts) = lift pts (m v)
    /\ match m v with
       | Ret _ v' => usePathThrough (context v') = false
       | _ => True
       end.

Lemma blind_ret {A : Type} (a : A) : blind (ret a).
Proof. intros v pts Hf. split; [reflexivity | exact Hf]. Qed.

Lemma blind_crash {A : Type} : blind (@crash A).
Proof. intros v pts Hf. split; [reflexivity | exact I]. Qed.

Lemma blind_orCrash {A : Type} (o : option A) : blind (orCrash o).
Proof. destruct o; [apply blind_ret | apply blind_crash]. Qed.

Lemma blind_bind {A B : Type} (m : M A) (k : A -> M B) :
  blind m -> (forall a, blind (k a)) -> blind (bind m k).
Proof.
  intros Hm Hk v pts Hf. unfold bind.
  destruct (Hm v pts Hf) as [Hm1 Hm2]. rewrite Hm1.
  destruct (m v) as [a v1| |]; simpl; try (split; [reflexivity|exact I]).
  apply Hk. exact Hm2.
Qed.

(** Reading the view: the continuation must not look at the set. *)
Lemma blind_get {A : Type} (body : View -> M A) :
  (forall v, blind (body v)) ->
  (forall v pts, body (withShapes v pts) = body v) ->
  blind (bind get body).
Proof.
  intros Hb He v pts Hf. unfold bind, get. rewrite He. apply Hb. exact Hf.
Qed.

Lemma blind_setNode (r : Ref) (n : PathNode) : blind (setNode r n).
Proof. intros v pts Hf. split; [reflexivity | exact Hf]. Qed.

Section Search.
Variable intersect : BoundingBox -> BoundingBox -> bool.
Variable Shapes : list (option Shape).

Lemma searchFrom_ext (v v' : View) (x y z : Z)
    (fx fx' : Ref -> SectionPosition -> option bool)
    (offsets : list (Z * Z * Z)) :
  blockPos v' = blockPos v -> (forall r p, fx' r p = fx r p) ->
  searchFrom v' x y z fx' offsets = searchFrom v x y z fx offsets.
Proof.
  intros Hb Hfx. induction offsets as [|[[ox oy] oz] rest IH];
    cbn [searchFrom]; [reflexivity|].
  rewrite Hb, IH.
  destruct (isValidViewPos _ _ _); [|reflexivity].
  destruct (pos _) as [p|]; [|reflexivity].
  rewrite Hfx. reflexivity.
Qed.

(** With the doors closed the set of pass-through shapes is not looked
    at: a listed shape blocks like any other. *)
Lemma passesThrough_doors_closed (v : View) (pts : gset (option Z))
    (p : SectionPosition) :
  usePathThrough (context v) = false ->
  passesThrough Shapes (withShapes v pts) p = passesThrough Shapes v p.
Proof.
  intros Hf. unfold passesThrough. cbn [context withShapes withContext
    isPathing usePathThrough end_ blockPos]. rewrite Hf. reflexivity.
Qed.

(** With the doors open a listed shape lets the mover through. *)
Lemma passesThrough_doors_open (v : View) (p : SectionPosition)
    (key : option Z) (e : Ref) :
  isPathing (context v) = true -> usePathThrough (context v) = true ->
  shapePtr Shapes (GoInt.sub (Block p) 1) = Some key ->
  key ∈ pathThroughShapes (context v) ->
  end_ (context v) = Some e ->
  passesThrough Shapes v p = Some true.
Proof.
  intros Hp Hu Hk Hin He. unfold passesThrough.
  rewrite Hp, Hu, Hk, He. rewrite bool_decide_eq_true_2 by exact Hin.
  destruct (pos (blockPos v e)) as [ep|]; [|reflexivity].
  destruct ((0 <? Block ep) && (Block p =? Block ep)); reflexivity.
Qed.

Lemma GetBlocker_doors_closed (v : View) (pts : gset (option Z))
    (x y z : Z) :
  usePathThrough (context v) = false ->
  GetBlocker intersect Shapes (withShapes v pts) x y z
  = GetBlocker intersect Shapes v x y z.
Proof.
  intros Hf. unfold GetBlocker.
  cbn [context withShapes withContext start blockPos].
  destruct (start (context v)) as [src|]; [|reflexivity].
  destruct (pos (blockPos v src)) as [p|]; [|reflexivity].
  destruct (Block p =? 0); [reflexivity|].
  change (toViewPos (withShapes v pts) x y z) with (toViewPos v x y z).
  destruct (toViewPos v x y z) as [[[tx ty] tz] valid].
  destruct (negb valid); [reflexivity|].
  unfold getBlockerAt, search. apply searchFrom_ext; [reflexivity|].
  intros r p'.
  rewrite passesThrough_doors_closed by exact Hf. reflexivity.
Qed.

Lemma blind_cell (x y z : Z) : blind (cell x y z).
Proof.
  unfold cell. destruct (isValidViewPos x y z);
    [apply blind_ret | apply blind_crash].
Qed.

Lemma blind_getBlockerWithCache (node : Ref) :
  blind (getBlockerWithCache intersect Shapes node).
Proof.
  intros v pts Hf. unfold getBlockerWithCache.
  rewrite GetBlocker_doors_closed by exact Hf.
  change (isPathing (context (withShapes v pts)))
    with (isPathing (context v)).
  change (blockPos (withShapes v pts)) with (blockPos v).
  change (nodeAt (withShapes v pts) node) with (nodeAt v node).
  destruct (isPathing (context v)).
  - destruct (negb (fitCalled (nodeAt v node))).
    + destruct (GetBlocker _ _ _ _ _ _); (split; [reflexivity|]);
        [exact Hf | exact I].
    + split; [reflexivity | exact Hf].
  - destruct (GetBlocker _ _ _ _ _ _); (split; [reflexivity|]);
      [exact Hf | exact I].
Qed.

Lemma blind_dropDown (x y : Z) (n : nat) :
  blind (dropDown intersect Shapes x y n).
Proof.
  induction n as [|n IH]; [apply blind_ret|].
  cbn [dropDown]. apply blind_bind; [apply blind_cell|]. intros node.
  apply blind_bind; [apply blind_getBlockerWithCache|].
  intros [s|]; [apply blind_ret | exact IH].
Qed.

Lemma blind_tryMove (x y z : Z) : blind (tryMove intersect Shapes x y z).
Proof.
  unfold tryMove. apply blind_bind.
  { destruct (0 <? z); [apply blind_dropDown | apply blind_ret]. }
  intros [z' standingOn]. apply blind_get; [|reflexivity]. intros v.
  apply blind_bind.
  { destruct standingOn as [s|]; [|apply blind_ret].
    destruct (negb (isFlying (context v))); [|apply blind_ret].
    apply blind_bind; [apply blind_orCrash|]. intros p.
    apply blind_bind; [apply blind_orCrash|]. intros sh. apply blind_ret. }
  intros noSupport. destruct noSupport; [apply blind_ret|].
  destruct (z' <? z).
  - apply blind_bind; [apply blind_cell|]. intros node. apply blind_ret.
  - apply blind_bind; [apply blind_cell|]. intros node.
    apply blind_bind; [apply blind_getBlockerWithCache|].
    intros [b|]; [|apply blind_ret].
    apply blind_bind; [apply blind_cell|]. intros node'.
    apply blind_bind; [apply blind_getBlockerWithCache|].
    intros [b'|]; apply blind_ret.
Qed.

Lemma blind_astarNeighbors (node : Ref) :
  blind (astarNeighbors intersect Shapes node).
Proof.
  unfold astarNeighbors. destruct node as [[x y] z].
  assert (Htry : forall (guard : bool) dx dy (l : list Ref),
             blind (if guard then
                      bind (tryInDir intersect Shapes (x, y, z) dx dy)
                        (fun newNode =>
                           match newNode with
                           | Some n => ret (l ++ [n])
                           | None => ret l
                           end)
                    else ret l)).
  { intros guard dx dy l. destruct guard; [|apply blind_ret].
    apply blind_bind; [apply blind_tryMove|].
    intros [n|]; apply blind_ret. }
  apply blind_bind; [apply Htry|]. intros l1.
  apply blind_bind; [apply Htry|]. intros l2.
  apply blind_bind; [apply Htry|]. intros l3.
  apply Htry.
Qed.

Lemma blind_heuristic (a b : Ref) : blind (heuristic a b).
Proof.
  unfold heuristic. destruct a as [[x0 y0] z0], b as [[x1 y1] z1].
  apply blind_get; [|reflexivity]. intros v.
  apply blind_bind; [apply blind_orCrash|]. intros sb.
  apply blind_bind; [apply blind_orCrash|]. intros eb. apply blind_ret.
Qed.

Lemma blind_visit (c nb : Ref) (openList : list Ref) :
  blind (visit c nb openList).
Proof.
  unfold visit. apply blind_get; [|reflexivity]. intros v.
  destruct (negb (closed (nodeAt v nb))); [|apply blind_ret].
  destruct (negb (visited (nodeAt v nb))).
  - apply blind_bind; [apply blind_orCrash|]. intros e.
    apply blind_bind; [apply blind_heuristic|]. intros hv.
    apply blind_bind; [apply blind_setNode|]. intros _. apply blind_ret.
  - destruct (_ <? _); [|apply blind_ret].
    apply blind_bind; [apply blind_setNode|]. intros _. apply blind_ret.
Qed.

Lemma blind_expand (c : Ref) (neighbors openList : list Ref) :
  blind (expand c neighbors openList).
Proof.
  revert openList. induction neighbors as [|nb rest IH]; intros openList.
  - apply blind_ret.
  - cbn [expand]. apply blind_bind; [apply blind_visit|]. exact IH.
Qed.

Lemma blind_close (r : Ref) : blind (close r).
Proof. intros v pts Hf. split; [reflexivity | exact Hf]. Qed.

Lemma walkBack_withShapes (fuel : nat) (v : View) (pts : gset (option Z))
    (r : Ref) (acc : list PathStep) :
  walkBack fuel (withShapes v pts) r acc = walkBack fuel v r acc.
Proof.
  revert r acc. induction fuel as [|fuel IH]; intros r acc; [reflexivity|].
  cbn [walkBack].
  change (nodeAt (withShapes v pts) r) with (nodeAt v r).
  destruct (parent (nodeAt v r)); [|reflexivity].
  destruct r as [[x y] z]. apply IH.
Qed.

Lemma blind_generatePath (fuel : nat) (r : Ref) :
  blind (generatePath fuel r).
Proof.
  intros v pts Hf. unfold generatePath. rewrite walkBack_withShapes.
  destruct (walkBack fuel v r []); (split; [reflexivity|]);
    [exact Hf | exact I].
Qed.

Lemma blind_findPathLoop (fuel : nat) (openList : list Ref) :
  blind (findPathLoop intersect Shapes fuel openList).
Proof.
  revert openList. induction fuel as [|fuel IH]; intros openList.
  { intros v pts Hf. split; [reflexivity | exact I]. }
  cbn [findPathLoop]. destruct openList as [|r0 rest]; [apply blind_ret|].
  apply blind_get; [|reflexivity]. intros v.
  destruct (refAt (r0 :: rest) (lowestF v (r0 :: rest))) as [[cx cy] cz].
  apply blind_bind; [apply blind_orCrash|]. intros sb.
  apply blind_bind.
  { intros v' pts Hf. split; [reflexivity | exact Hf]. }
  intros _. apply blind_bind; [apply blind_orCrash|]. intros eb.
  destruct (intersect _ _).
  - apply blind_bind; [apply blind_generatePath|]. intros path.
    apply blind_ret.
  - apply blind_bind; [apply blind_close|]. intros _.
    apply blind_bind; [apply blind_astarNeighbors|]. intros nbs.
    apply blind_bind; [apply blind_expand|]. exact IH.
Qed.

Lemma blind_findPath : blind (findPath intersect Shapes).
Proof.
  unfold findPath. apply blind_bind.
  { intros v pts Hf. split; [reflexivity | exact Hf]. }
  intros _. apply blind_get; [|reflexivity]. intros v.
  apply blind_bind; [apply blind_orCrash|]. intros s.
  apply blind_findPathLoop.
Qed.

(** The first search of [FindPath] does not read the list of pass-through
    shapes: whatever shapes are listed, it returns the same path and
    leaves the same scratch state. *)
Theorem first_pass_ignores_doors (view : View) (isFlying_ : bool)
    (s e : Ref) (dSrc dDst : Z) (pts : gset (option Z)) :
  let first := firstPass view isFlying_ s e dSrc dDst in
  findPath intersect Shapes (withShapes first pts)
  = lift pts (findPath intersect Shapes first).
Proof. intros first. apply blind_findPath. reflexivity. Qed.

Lemma searchFrom_found (v : View) (x y z : Z)
    (fx : Ref -> SectionPosition -> option bool)
    (offsets : list (Z * Z * Z)) (r : Ref) :
  searchFrom v x y z fx offsets = Some (Some r) ->
  exists p, pos (blockPos v r) = Some p /\ 0 < Block p
            /\ fx r p = Some true.
Proof.
  induction offsets as [|[[ox oy] oz] rest IH]; cbn [searchFrom];
    [intros H; discriminate H|].
  set (r0 := (GoInt.sub x ox, GoInt.sub y oy, GoInt.sub z oz)).
  destruct (isValidViewPos _ _ _); [|exact IH].
  destruct (pos (blockPos v r0)) as [p|] eqn:Hp; [|intros H; discriminate H].
  destruct (0 <? Block p) eqn:Hb; [|exact IH].
  destruct (fx r0 p) as [[|]|] eqn:Hfx;
    [|exact IH|intros H; discriminate H].
  intros [= <-]. exists p. repeat split; [exact Hp | lia | exact Hfx].
Qed.

Lemma search_found (v : View) (x y z : Z)
    (fx : Ref -> SectionPosition -> option bool) (r : Ref) :
  search v x y z fx = Some (Some r) ->
  exists p, pos (blockPos v r) = Some p /\ 0 < Block p
            /\ fx r p = Some true.
Proof. apply searchFrom_found. Qed.

Lemma getBlockerAt_search (v : View) (toViewX toViewY toViewZ : Z)
    (box : BoundingBox) (src : option Ref) :
  getBlockerAt intersect Shapes v toViewX toViewY toViewZ box src
  = search v (GoInt.add toViewX (W box)) (GoInt.add toViewY (H box))
      (GoInt.add toViewZ (D box))
      (fun bp p =>
         match passesThrough Shapes v p with
         | Some pathThrough =>
             Some (negb pathThrough && negb (bool_decide (Some bp = src))
                   && intersect (Gfx.box (blockPos v bp))
                        (SetPos box toViewX toViewY toViewZ))
         | None => None
         end).
Proof. reflexivity. Qed.

(** The second search treats pass-through shapes as open: with the doors
    open, what [getBlockerAt] reports as a blocker is never a cell whose
    shape is listed as pass-through. *)
Theorem open_doors_never_block (v : View) (toViewX toViewY toViewZ : Z)
    (box : BoundingBox) (src : option Ref) (bp : Ref) :
  isPathing (context v) = true -> usePathThrough (context v) = true ->
  getBlockerAt intersect Shapes v toViewX toViewY toViewZ box src
  = Some (Some bp) ->
  exists p key,
    pos (blockPos v bp) = Some p
    /\ shapePtr Shapes (GoInt.sub (Block p) 1) = Some key
    /\ key ∉ pathThroughShapes (context v).
Proof.
  intros Hp Hu Hb. rewrite getBlockerAt_search in Hb.
  apply search_found in Hb as (p & Hpos & _ & Hfx).
  exists p. unfold passesThrough in Hfx. rewrite Hp, Hu in Hfx.
  destruct (shapePtr Shapes (GoInt.sub (Block p) 1)) as [key|];
    [|discriminate Hfx].
  exists key. repeat split; [exact Hpos|]. intros Hin.
  rewrite bool_decide_eq_true_2 in Hfx by exact Hin.
  destruct (end_ (context v)) as [e|]; [|discriminate Hfx].
  destruct (pos (blockPos v e)) as [ep|];
    [destruct ((0 <? Block ep) && (Block p =? Block ep))|];
    cbn [negb andb] in Hfx; discriminate Hfx.
Qed.








End Search.




(** The room of [SampleWindow]: from the mover to the cell beyond the
    door.  With the door shape registered, the first search finds nothing
    and the second one goes through the door. *)
Example through_the_door :
  match FindPath SampleWindow.overlap SampleWindow.catalog
          4962 4962 0 4965 4962 0 false 1 1
          (SampleWindow.room {[Some 2]}) with
  | Ret steps v =>
      steps = Some [(4963, 4962, 0); (4964, 4962, 0); (4965, 4962, 0)]
      /\ usePathThrough (context v) = true
  | _ => False
  end
  /\ match findPath SampleWindow.overlap SampleWindow.catalog
             (firstPass (SampleWindow.room {[Some 2]}) false
                (10, 10, 0) (13, 10, 0) 1 1) with
     | Ret steps _ => steps = None
     | _ => False
     end.
Proof. vm_compute. repeat split. Qed.

(** With no shape registered both searches fail and [FindPath] returns
    nil. *)
Example door_stays_shut :
  match FindPath SampleWindow.overlap SampleWindow.catalog
          4962 4962 0 4965 4962 0 false 1 1 (SampleWindow.room ∅) with
  | Ret steps v => steps = None /\ usePathThrough (context v) = true
  | _ => False
  end.
Proof. vm_compute. repeat split. Qed.

(** A goal inside the room is reached by the first search: no second
    search is run. *)
Example inside_the_room :
  match FindPath SampleWindow.overlap SampleWindow.catalog
          4962 4962 0 4963 4963 0 false 1 1
          (SampleWindow.room {[Some 2]}) with
  | Ret steps v =>
      steps = Some [(4963, 4962, 0); (4963, 4963, 0)]
      /\ usePathThrough (context v) = false
  | _ => False
  end.
Proof. vm_compute. repeat split. Qed.

End DoorFacts.

(** ** Corner cases of the two layers *)
Module StoreCorners.
Import World StoreFacts.

Lemma sub_add_cancel (a b : Z) :
  GoInt.in_range a -> GoInt.sub (GoInt.add a b) b = a.
Proof.
  intros Ha. unfold GoInt.add, GoInt.sub.
  rewrite <- (GoIntFacts.wrap_id a Ha) at 2. apply GoIntFacts.wrap_congr.
  rewrite Zminus_mod, GoIntFacts.wrap_mod, <- Zminus_mod. f_equal. lia.
Qed.

Lemma add_one_zero (i : Z) :
  GoInt.in_range i -> (GoInt.add i 1 = 0 <-> i = -1).
Proof.
  intros Hi. split; [|intros ->; reflexivity].
  intros H0. pose proof (sub_add_cancel i 1 Hi) as Hc.
  rewrite H0 in Hc. rewrite <- Hc. reflexivity.
Qed.

(** The stored number [i + 1] is positive exactly for the indices
    [0 <= i < max_int]: the sum wraps at [max_int]. *)
Lemma add_one_pos (i : Z) :
  GoInt.in_range i -> (0 < GoInt.add i 1 <-> 0 <= i < GoInt.max_int).
Proof.
  unfold GoInt.in_range, GoInt.add, GoInt.min_int, GoInt.max_int.
  intros Hi. destruct (decide (i = 2 ^ 63 - 1)) as [->|Hne].
  - split; [|lia]. vm_compute. discriminate.
  - rewrite GoIntFacts.wrap_id
      by (unfold GoInt.in_range, GoInt.min_int, GoInt.max_int; lia).
    lia.
Qed.

Section Cache.
Context {codec : Codec}.

Lemma inEdges_nonneg (x y : Z) :
  0 <= x -> 0 <= y ->
  inEdges (GoInt.rem x SECTION_SIZE) (GoInt.rem y SECTION_SIZE) = true.
Proof.
  intros Hx Hy. unfold inEdges, SECTION_SIZE.
  rewrite !GoIntFacts.rem_mod by lia.
  pose proof (Z.mod_pos_bound x 200). pose proof (Z.mod_pos_bound y 200).
  repeat (apply andb_true_intro; split); lia.
Qed.

Lemma edgeAt_set (s : Section_) (ax ay v : Z) :
  edgeAt (setEdgeAt s ax ay v) ax ay = {| Shape := v |}.
Proof.
  unfold edgeAt, setEdgeAt. simpl. rewrite lookup_insert_eq. reflexivity.
Qed.

Lemma GetEdge_resident (loader : Loader) (x y now slot : Z) (s : Section_) :
  0 <= x -> 0 <= y ->
  resident loader (GoInt.div x SECTION_SIZE) (GoInt.div y SECTION_SIZE) slot ->
  sectionAt loader slot = Some s ->
  GetEdge loader x y now
  = (touched loader slot now,
     let v := Shape (edgeAt s (GoInt.rem x SECTION_SIZE)
                       (GoInt.rem y SECTION_SIZE)) in
     if v =? 0 then Done (0, false) else Done (GoInt.sub v 1, true)).
Proof.
  intros Hx Hy Hr Hs. unfold GetEdge.
  rewrite (atPos_resident _ _ _ _ _ _ _ _ Hr Hs).
  rewrite inEdges_nonneg by assumption.
  cbv zeta. destruct (_ =? 0); reflexivity.
Qed.

Lemma ClearEdge_resident (loader : Loader) (x y now slot : Z) (s : Section_) :
  0 <= x -> 0 <= y ->
  resident loader (GoInt.div x SECTION_SIZE) (GoInt.div y SECTION_SIZE) slot ->
  sectionAt loader slot = Some s ->
  ClearEdge loader x y now
  = (storeSection (touched loader slot now) slot
       (setEdgeAt s (GoInt.rem x SECTION_SIZE) (GoInt.rem y SECTION_SIZE) 0),
     Done tt).
Proof.
  intros Hx Hy Hr Hs. unfold ClearEdge.
  rewrite (atPos_resident _ _ _ _ _ _ _ _ Hr Hs).
  rewrite inEdges_nonneg by assumption. reflexivity.
Qed.

(** X6: the edge layer answers as it was told.  On non-negative
    coordinates [SetEdge] does not panic; when it returns, [GetEdge]
    returns the index that was set, with true, for every [int] but -1,
    for which it reports no edge; after [ClearEdge], [GetEdge] reports no
    edge. *)
Theorem edge_set_get_clear (loader : Loader) (x y i t1 t2 t3 t4 : Z) :
  0 <= x -> 0 <= y -> GoInt.in_range i ->
  (0 < length (cache (sectionCache loader)))%nat ->
  match SetEdge loader x y i t1 with
  | (l1, Done _) =>
      exists l2 l3 l4,
        GetEdge l1 x y t2
        = (l2, if i =? -1 then Done (0, false) else Done (i, true))
        /\ ClearEdge l2 x y t3 = (l3, Done tt)
        /\ GetEdge l3 x y t4 = (l4, Done (0, false))
  | (_, Failed _) => True
  | (_, Panic) => False
  end.
Proof.
  intros Hx Hy Hi Hlen.
  unfold SetEdge, atPos, getPosInSection.
  pose proof (getSection_no_panic loader (GoInt.div x SECTION_SIZE)
                (GoInt.div y SECTION_SIZE) t1 Hlen) as Hnp.
  destruct (getSection loader _ _ t1) as [l0 [slot|e|]] eqn:HG;
    [| exact I | exact (Hnp eq_refl)].
  pose proof (getSection_resident _ _ _ _ _ _ HG) as Hr0.
  destruct (resident_sectionAt _ _ _ _ Hr0) as (Hrange & s & Hs & Hkx & Hky).
  rewrite Hs, inEdges_nonneg by assumption.
  set (ax := GoInt.rem x SECTION_SIZE). set (ay := GoInt.rem y SECTION_SIZE).
  set (s1 := setEdgeAt s ax ay (GoInt.add i 1)).
  set (l1 := storeSection l0 slot s1).
  assert (Hr1 : resident l1 (GoInt.div x SECTION_SIZE)
                  (GoInt.div y SECTION_SIZE) slot)
    by (apply resident_store; [exact Hkx | exact Hky | exact Hr0]).
  assert (Hs1 : sectionAt l1 slot = Some s1)
    by (apply sectionAt_store; exact Hrange).
  set (l2 := touched l1 slot t2).
  set (s3 := setEdgeAt s1 ax ay 0).
  set (l3 := storeSection (touched l2 slot t3) slot s3).
  assert (Hr3 : resident l3 (GoInt.div x SECTION_SIZE)
                  (GoInt.div y SECTION_SIZE) slot).
  { apply resident_store; [exact Hkx | exact Hky |].
    apply resident_touch, resident_touch. exact Hr1. }
  assert (Hs3 : sectionAt l3 slot = Some s3).
  { apply sectionAt_store. apply (resident_sectionAt _ _ _ _ Hr1). }
  exists l2, l3, (touched l3 slot t4). repeat split.
  - rewrite (GetEdge_resident l1 x y t2 slot s1) by assumption.
    fold ax ay. unfold s1. rewrite edgeAt_set. cbn [Shape]. cbv zeta.
    fold l2. f_equal.
    destruct (i =? -1) eqn:E.
    + apply Z.eqb_eq in E. subst i. reflexivity.
    + destruct (GoInt.add i 1 =? 0) eqn:E0.
      * apply Z.eqb_eq, add_one_zero in E0; [lia|exact Hi].
      * rewrite sub_add_cancel by exact Hi. reflexivity.
  - rewrite (ClearEdge_resident l2 x y t3 slot s1);
      [| assumption .. | apply resident_touch; exact Hr1 | exact Hs1].
    reflexivity.
  - rewrite (GetEdge_resident l3 x y t4 slot s3) by assumption.
    fold ax ay. unfold s3. rewrite edgeAt_set. reflexivity.
Qed.

(** X7: the corner cases of the stored shape index.  On non-negative
    coordinates with [z] in [[0, 24)], after a [SetShape] that returns,
    [GetShape] returns the index with true for every [int] but -1; with
    -1 the cell reads as empty.  [EraseShape] then erases (and returns
    true) exactly for the indices [0 <= i < max_int]: a negative index,
    and [max_int], whose successor wraps around, are left in place. *)
Theorem shape_index_corner_cases (loader : Loader) (x y z i t1 t2 t3 t4 : Z) :
  0 <= x -> 0 <= y -> 0 <= z < SECTION_Z_SIZE -> GoInt.in_range i ->
  (0 < length (cache (sectionCache loader)))%nat ->
  match SetShape loader x y z i t1 with
  | (l1, Done _) =>
      exists l2 l3 l4,
        GetShape l1 x y z t2
        = (l2, if i =? -1 then Done (0, false) else Done (i, true))
        /\ EraseShape l2 x y z t3
           = (l3, Done (bool_decide (0 <= i < GoInt.max_int)))
        /\ GetShape l3 x y z t4
           = (l4, if bool_decide (0 <= i < GoInt.max_int) || (i =? -1)
                  then Done (0, false) else Done (i, true))
  | (_, Failed _) => True
  | (_, Panic) => False
  end.
Proof.
  intros Hx Hy Hz Hi Hlen.
  unfold SetShape, atPos, getPosInSection.
  pose proof (getSection_no_panic loader (GoInt.div x SECTION_SIZE)
                (GoInt.div y SECTION_SIZE) t1 Hlen) as Hnp.
  destruct (getSection loader _ _ t1) as [l0 [slot|e|]] eqn:HG;
    [| exact I | exact (Hnp eq_refl)].
  pose proof (getSection_resident _ _ _ _ _ _ HG) as Hr0.
  destruct (resident_sectionAt _ _ _ _ Hr0) as (Hrange & s & Hs & Hkx & Hky).
  rewrite Hs, inPosition_nonneg by assumption.
  set (ax := GoInt.rem x SECTION_SIZE). set (ay := GoInt.rem y SECTION_SIZE).
  set (v := GoInt.add i 1).
  set (s1 := setPositionAt s ax ay z v).
  set (l1 := storeSection l0 slot s1).
  assert (Hr1 : resident l1 (GoInt.div x SECTION_SIZE)
                  (GoInt.div y SECTION_SIZE) slot)
    by (apply resident_store; [exact Hkx | exact Hky | exact Hr0]).
  assert (Hs1 : sectionAt l1 slot = Some s1)
    by (apply sectionAt_store; exact Hrange).
  set (l2 := touched l1 slot t2).
  assert (Hr2 : resident l2 (GoInt.div x SECTION_SIZE)
                  (GoInt.div y SECTION_SIZE) slot)
    by (apply resident_touch; exact Hr1).
  assert (Hget : forall w, (if w =? 0 then Done (0, false)
                            else Done (GoInt.sub w 1, true))
                           = if w =? 0 then Done (0, false)
                             else @Done (Z * bool) (GoInt.sub w 1, true))
    by reflexivity.
  assert (Hv0 : (v =? 0) = (i =? -1)).
  { destruct (i =? -1) eqn:E.
    - apply Z.eqb_eq in E. subst i. reflexivity.
    - apply Z.eqb_neq. intros H0. apply add_one_zero in H0; [lia|exact Hi]. }
  assert (Hback : GoInt.sub v 1 = i) by (apply sub_add_cancel; exact Hi).
  assert (Hpos : (0 <? v) = bool_decide (0 <= i < GoInt.max_int)).
  { pose proof (add_one_pos i Hi) as Hp. fold v in Hp.
    destruct (bool_decide (0 <= i < GoInt.max_int)) eqn:E.
    - apply bool_decide_eq_true in E. apply Z.ltb_lt. tauto.
    - apply bool_decide_eq_false in E. apply Z.ltb_ge.
      destruct (Z_lt_le_dec 0 v); [tauto|lia]. }
  destruct (bool_decide (0 <= i < GoInt.max_int)) eqn:Herase.
  - set (s3 := setPositionAt s1 ax ay z 0).
    set (l3 := storeSection (touched l2 slot t3) slot s3).
    exists l2, l3, (touched l3 slot t4). repeat split.
    + rewrite (GetShape_resident l1 x y z t2 slot s1) by assumption.
      fold ax ay. unfold s1. rewrite positionAt_set. cbn [Shape]. cbv zeta.
      rewrite Hv0, Hback. destruct (i =? -1); reflexivity.
    + rewrite (EraseShape_resident l2 x y z t3 slot s1) by assumption.
      cbv zeta. fold ax ay. unfold s1 at 1. rewrite positionAt_set.
      cbn [Shape]. rewrite Hpos. reflexivity.
    + assert (Hr3 : resident l3 (GoInt.div x SECTION_SIZE)
                      (GoInt.div y SECTION_SIZE) slot).
      { apply resident_store; [exact Hkx | exact Hky |].
        apply resident_touch. exact Hr2. }
      assert (Hs3 : sectionAt l3 slot = Some s3).
      { apply sectionAt_store. apply (resident_sectionAt _ _ _ _ Hr1). }
      rewrite (GetShape_resident l3 x y z t4 slot s3) by assumption.
      fold ax ay. unfold s3. rewrite positionAt_set. reflexivity.
  - set (l3 := touched l2 slot t3).
    exists l2, l3, (touched l3 slot t4). repeat split.
    + rewrite (GetShape_resident l1 x y z t2 slot s1) by assumption.
      fold ax ay. unfold s1. rewrite positionAt_set. cbn [Shape]. cbv zeta.
      rewrite Hv0, Hback. destruct (i =? -1); reflexivity.
    + rewrite (EraseShape_resident l2 x y z t3 slot s1) by assumption.
      cbv zeta. fold ax ay. unfold s1 at 1. rewrite positionAt_set.
      cbn [Shape]. rewrite Hpos. reflexivity.
    + rewrite (GetShape_resident l3 x y z t4 slot s1);
        [| assumption .. | apply resident_touch; exact Hr2 | exact Hs1].
      fold ax ay. unfold s1. rewrite positionAt_set. cbn [Shape]. cbv zeta.
      rewrite Hv0, Hback. cbn [orb]. destruct (i =? -1); reflexivity.
Qed.

End Cache.

(** A store with one section loaded, to run the corner cases on. *)
Lemma edge_set_get_clear_witness :
  (0 <= 5001 /\ 0 <= 4999 /\ GoInt.in_range 7
   /\ (0 < length (cache (sectionCache ReferenceCodec.freshLoader)))%nat)
  /\ match SetEdge (codec := ReferenceCodec.codec)
             ReferenceCodec.freshLoader 5001 4999 7 10 with
     | (l1, Done _) =>
         exists l2 l3 l4,
           GetEdge (codec := ReferenceCodec.codec) l1 5001 4999 11
           = (l2, if 7 =? -1 then Done (0, false) else Done (7, true))
           /\ ClearEdge (codec := ReferenceCodec.codec) l2 5001 4999 12
              = (l3, Done tt)
           /\ GetEdge (codec := ReferenceCodec.codec) l3 5001 4999 13
              = (l4, Done (0, false))
     | (_, Failed _) => True
     | (_, Panic) => False
     end.
Proof.
  assert (H : 0 <= 5001 /\ 0 <= 4999 /\ GoInt.in_range 7
              /\ (0 < length (cache (sectionCache
                                       ReferenceCodec.freshLoader)))%nat).
  { unfold GoInt.in_range, GoInt.min_int, GoInt.max_int. cbn. lia. }
  split; [exact H|].
  destruct H as (H1 & H2 & H3 & H4).
  exact (edge_set_get_clear (codec := ReferenceCodec.codec)
           ReferenceCodec.freshLoader 5001 4999 7 10 11 12 13 H1 H2 H3 H4).
Defined.

(** The run of the witness does set the edge. *)
Example edge_set_runs :
  snd (SetEdge (codec := ReferenceCodec.codec) ReferenceCodec.freshLoader
         5001 4999 7 10) = Done tt.
Proof. vm_compute. reflexivity. Qed.

Lemma shape_index_corner_cases_witness :
  (0 <= 5001 /\ 0 <= 4999 /\ 0 <= 3 < SECTION_Z_SIZE
   /\ GoInt.in_range GoInt.max_int
   /\ (0 < length (cache (sectionCache ReferenceCodec.freshLoader)))%nat)
  /\ match SetShape (codec := ReferenceCodec.codec)
             ReferenceCodec.freshLoader 5001 4999 3 GoInt.max_int 10 with
     | (l1, Done _) =>
         exists l2 l3 l4,
           GetShape (codec := ReferenceCodec.codec) l1 5001 4999 3 11
           = (l2, if GoInt.max_int =? -1 then Done (0, false)
                  else Done (GoInt.max_int, true))
           /\ EraseShape (codec := ReferenceCodec.codec) l2 5001 4999 3 12
              = (l3, Done (bool_decide
                             (0 <= GoInt.max_int < GoInt.max_int)))
           /\ GetShape (codec := ReferenceCodec.codec) l3 5001 4999 3 13
              = (l4, if bool_decide (0 <= GoInt.max_int < GoInt.max_int)
                        || (GoInt.max_int =? -1)
                     then Done (0, false) else Done (GoInt.max_int, true))
     | (_, Failed _) => True
     | (_, Panic) => False
     end.
Proof.
  assert (H : 0 <= 5001 /\ 0 <= 4999 /\ 0 <= 3 < SECTION_Z_SIZE
              /\ GoInt.in_range GoInt.max_int
              /\ (0 < length (cache (sectionCache
                                       ReferenceCodec.freshLoader)))%nat).
  { unfold SECTION_Z_SIZE, GoInt.in_range, GoInt.min_int, GoInt.max_int.
    cbn. lia. }
  split; [exact H|].
  destruct H as (H1 & H2 & H3 & H4 & H5).
  exact (shape_index_corner_cases (codec := ReferenceCodec.codec)
           ReferenceCodec.freshLoader 5001 4999 3 GoInt.max_int 10 11 12 13
           H1 H2 H3 H4 H5).
Defined.

(** The largest index is stored, read back, and cannot be erased; the
    index -1 empties the cell. *)
Example largest_index_stays :
  let l1 := fst (SetShape (codec := ReferenceCodec.codec)
                   ReferenceCodec.freshLoader 5001 4999 3 GoInt.max_int 10) in
  snd (GetShape (codec := ReferenceCodec.codec) l1 5001 4999 3 11)
  = Done (GoInt.max_int, true)
  /\ snd (EraseShape (codec := ReferenceCodec.codec) l1 5001 4999 3 12)
     = Done false
  /\ snd (GetShape (codec := ReferenceCodec.codec)
            (fst (SetShape (codec := ReferenceCodec.codec) l1
                    5001 4999 3 (-1) 13)) 5001 4999 3 14)
     = Done (0, false).
Proof. vm_compute. repeat split. Qed.

End StoreCorners.

(** ** The focal point stays in the world *)
Module FocusFacts.
Import World.

(** A sequence of [MoveTo] calls. *)
Fixpoint moveAll (loader : Loader) (targets : list (Z * Z)) : Loader :=
  match targets with
  | [] => loader
  | (x, y) :: rest => moveAll (fst (MoveTo loader x y)) rest
  end.

Lemma MoveTo_keeps (loader : Loader) (x y : Z) :
  0 <= X loader -> 0 <= Y loader ->
  let l' := fst (MoveTo loader x y) in
  0 <= X l' /\ 0 <= Y l'
  /\ sectionCache l' = sectionCache loader /\ disk l' = disk loader
  /\ observer l' = observer loader.
Proof.
  intros HX HY. unfold MoveTo.
  destruct ((0 <=? x) && (0 <=? y)
            && (negb (X loader =? x) || negb (Y loader =? y))) eqn:E; simpl.
  - apply andb_true_iff in E as [E _]. apply andb_true_iff in E as [E1 E2].
    repeat split; lia.
  - repeat split; assumption.
Qed.

Lemma moveAll_keeps (targets : list (Z * Z)) (loader : Loader) :
  0 <= X loader -> 0 <= Y loader ->
  let l' := moveAll loader targets in
  0 <= X l' /\ 0 <= Y l'
  /\ sectionCache l' = sectionCache loader /\ disk l' = disk loader
  /\ observer l' = observer loader.
Proof.
  revert loader. induction targets as [|[x y] rest IH]; intros loader HX HY.
  - repeat split; assumption.
  - simpl. destruct (MoveTo_keeps loader x y HX HY) as (H1 & H2 & H3 & H4 & H5).
    destruct (IH _ H1 H2) as (K1 & K2 & K3 & K4 & K5).
    repeat split; try assumption; congruence.
Qed.

(** X8: the focal point never leaves the world.  Whatever targets
    [MoveTo] has been called with since [NewLoader], negative ones
    included, the focal point is non-negative, so that [GetSectionPos] is
    the floor of the focal point over the section size; a second [MoveTo]
    to the same target always returns false; and nothing has been loaded,
    saved or announced. *)
Theorem focal_point_stays_in_the_world (fs : FileSystem) (u g : string)
    (targets : list (Z * Z)) (x y : Z) :
  let l := moveAll (NewLoader fs u g) targets in
  0 <= X l /\ 0 <= Y l
  /\ GetSectionPos l = (X l / 200, Y l / 200)
  /\ snd (MoveTo (fst (MoveTo l x y)) x y) = false
  /\ sectionCache l = NewSectionCache /\ disk l = fs /\ observer l = [].
Proof.
  intros l.
  destruct (moveAll_keeps targets (NewLoader fs u g)) as (H1 & H2 & H3 & H4 & H5);
    [simpl; lia | simpl; lia |].
  fold l in H1, H2, H3, H4, H5.
  split; [exact H1|]. split; [exact H2|]. split.
  { unfold GetSectionPos, SECTION_SIZE.
    rewrite !GoIntFacts.div_floor by lia. reflexivity. }
  split; [|auto].
  unfold MoveTo.
  destruct ((0 <=? x) && (0 <=? y)
            && (negb (X l =? x) || negb (Y l =? y))) eqn:E; cbn [fst snd X Y].
  - rewrite !Z.eqb_refl. cbn [negb orb]. rewrite andb_false_r. reflexivity.
  - rewrite E. reflexivity.
Qed.

(** Negative targets are skipped on the way. *)
Example moves_with_negatives :
  let l := moveAll ReferenceCodec.freshLoader
             [(10, 20); (-1, 5); (430, 0); (7, -7)] in
  (X l, Y l) = (430, 0) /\ GetSectionPos l = (2, 0).
Proof. split; reflexivity. Qed.

End FocusFacts.

(** ** The names of the map files *)
Module FileNames.
Import World.
Import Stdlib.Strings.Ascii.

(** The section keys whose two hexadecimal coordinates fill exactly two
    characters each. *)
Definition twoDigits (k : Z) : Prop := 0 <= k < 256.

(** No path separator in the string. *)
Fixpoint plain (s : string) : bool :=
  match s with
  | EmptyString => true
  | String c s' => negb (Ascii.eqb c "/"%char) && plain s'
  end.

Lemma fmt02x_table :
  forallb (fun n => (String.length (fmt02x n) =? 2)%nat && plain (fmt02x n))
    (seqZ 0 256) = true.
Proof. vm_compute. reflexivity. Qed.

Lemma fmt02x_shape (n : Z) :
  twoDigits n -> String.length (fmt02x n) = 2%nat /\ plain (fmt02x n) = true.
Proof.
  intros Hn. pose proof fmt02x_table as Ht.
  rewrite forallb_forall in Ht.
  specialize (Ht n). rewrite andb_true_iff, Nat.eqb_eq in Ht.
  apply Ht. apply list_elem_of_In, elem_of_seqZ. unfold twoDigits in Hn. lia.
Qed.

Lemma fmt02x_distinct : NoDup (fmt02x <$> seqZ 0 256).
Proof.
  apply (bool_decide_unpack (NoDup (fmt02x <$> seqZ 0 256))).
  vm_compute. exact I.
Qed.

Lemma fmt02x_inj (a b : Z) :
  twoDigits a -> twoDigits b -> fmt02x a = fmt02x b -> a = b.
Proof.
  unfold twoDigits. intros Ha Hb Hab.
  assert (Hl : forall n, 0 <= n < 256 ->
             (fmt02x <$> seqZ 0 256) !! Z.to_nat n = Some (fmt02x n)).
  { intros n Hn. rewrite list_lookup_fmap, lookup_seqZ_lt by lia.
    simpl. f_equal. f_equal. lia. }
  pose proof (Hl a Ha) as H1. pose proof (Hl b Hb) as H2.
  rewrite Hab in H1.
  pose proof (NoDup_lookup _ _ _ _ fmt02x_distinct H1 H2). lia.
Qed.

Lemma append_length_inj (a a' b b' : string) :
  String.length a = String.length a' ->
  String.append a b = String.append a' b' -> a = a' /\ b = b'.
Proof.
  revert a'. induction a as [|c a IH]; intros [|c' a'] Hlen Heq;
    try discriminate; simpl in *.
  - auto.
  - injection Heq as -> Heq. injection Hlen as Hlen.
    destruct (IH a' Hlen Heq) as [-> ->]. auto.
Qed.

Lemma mapFileName_inj (sx sy sx' sy' : Z) :
  twoDigits sx -> twoDigits sy -> twoDigits sx' -> twoDigits sy' ->
  mapFileName sx sy = mapFileName sx' sy' -> sx = sx' /\ sy = sy'.
Proof.
  intros Hx Hy Hx' Hy' Heq. unfold mapFileName in Heq.
  apply String.app_inj in Heq.
  apply append_length_inj in Heq as [H1 H2].
  - split; apply fmt02x_inj; assumption.
  - destruct (fmt02x_shape sx Hx) as [-> _].
    destruct (fmt02x_shape sx' Hx') as [-> _]. reflexivity.
Qed.

Lemma plain_append (a b : string) :
  plain (String.append a b) = plain a && plain b.
Proof.
  induction a as [|c a IH]; simpl; [reflexivity|].
  rewrite IH, andb_assoc. reflexivity.
Qed.

Lemma mapFileName_plain (sx sy : Z) :
  twoDigits sx -> twoDigits sy ->
  plain (mapFileName sx sy) = true /\ mapFileName sx sy <> EmptyString.
Proof.
  intros Hx Hy. unfold mapFileName. split; [|discriminate].
  rewrite !plain_append.
  destruct (fmt02x_shape sx Hx) as [_ ->].
  destruct (fmt02x_shape sy Hy) as [_ ->]. reflexivity.
Qed.

(** A directory prefix: empty, or ending in the separator. *)
Definition dirPrefix (a : string) : Prop :=
  a = EmptyString \/ exists a', a = String.append a' "/".

Lemma dirPrefix_tail (c : Ascii.ascii) (a : string) :
  dirPrefix (String c a) -> dirPrefix a.
Proof.
  intros [H|[a' H]]; [discriminate|].
  destruct a' as [|c' a']; simpl in H; injection H as -> ->.
  - left. reflexivity.
  - right. exists a'. reflexivity.
Qed.

Lemma not_plain_dir (a n : string) :
  a <> EmptyString -> dirPrefix a -> plain (String.append a n) = false.
Proof.
  intros Hne [H|[a' ->]]; [contradiction|].
  rewrite !plain_append. simpl. rewrite andb_false_r. reflexivity.
Qed.

(** Two paths with plain last components are equal only when the
    components are. *)
Lemma last_component (a b n1 n2 : string) :
  plain n1 = true -> plain n2 = true -> dirPrefix a -> dirPrefix b ->
  String.append a n1 = String.append b n2 -> n1 = n2.
Proof.
  intros H1 H2. revert b. induction a as [|c a IH]; intros b Ha Hb Heq.
  - destruct b as [|d b]; [exact Heq|].
    assert (Hf : plain (String.append (String d b) n2) = false)
      by (apply not_plain_dir; [discriminate|exact Hb]).
    rewrite <- Heq in Hf. change (plain n1 = false) in Hf. congruence.
  - destruct b as [|d b].
    + assert (Hf : plain (String.append (String c a) n1) = false)
        by (apply not_plain_dir; [discriminate|exact Ha]).
      rewrite Heq in Hf. change (plain n2 = false) in Hf. congruence.
    + simpl in Heq. injection Heq as _ Heq.
      apply (IH b); [eapply dirPrefix_tail; exact Ha
                    |eapply dirPrefix_tail; exact Hb|exact Heq].
Qed.

Lemma append_assoc (a b c : string) :
  String.append (String.append a b) c = String.append a (String.append b c).
Proof.
  induction a as [|x a IH]; [reflexivity|].
  change (String x (String.append (String.append a b) c)
          = String x (String.append a (String.append b c))).
  rewrite IH. reflexivity.
Qed.

(** Where [load] and [save] look: a directory prefix and the file name. *)
Lemma join_user (u n : string) :
  n <> EmptyString ->
  exists a, dirPrefix a /\ filepath_Join [u; n] = String.append a n.
Proof.
  intros Hn. simpl.
  destruct (decide (n = EmptyString)) as [|_]; [contradiction|].
  destruct (decide (EmptyString = EmptyString)) as [_|]; [|contradiction].
  destruct (decide (u = EmptyString)).
  - exists EmptyString. split; [left; reflexivity|reflexivity].
  - destruct (decide (n = EmptyString)); [contradiction|].
    exists (String.append u "/"). split; [right; eauto|].
    rewrite append_assoc. reflexivity.
Qed.

Lemma join_game (g n : string) :
  n <> EmptyString ->
  exists a, dirPrefix a /\ filepath_Join [g; "maps"; n] = String.append a n.
Proof.
  intros Hn. simpl.
  destruct (decide (n = EmptyString)) as [|_]; [contradiction|].
  destruct (decide (EmptyString = EmptyString)) as [_|]; [|contradiction].
  destruct (decide ("maps" = EmptyString)) as [|_]; [discriminate|].
  destruct (decide (n = EmptyString)) as [|_]; [contradiction|].
  destruct (decide (g = EmptyString)).
  - exists "maps/". split; [right; exists "maps"; reflexivity|reflexivity].
  - destruct (decide (_ = EmptyString)) as [|_]; [discriminate|].
    exists (String.append g "/maps/").
    split; [right; exists (String.append g "/maps")|].
    + rewrite append_assoc. reflexivity.
    + rewrite append_assoc. reflexivity.
Qed.

End FileNames.

(** ** The store as a map from cells to numbers *)
Module WorldMap.
Import World StoreFacts CacheInvariant StoreCorners FileNames.

(** The slot the scan of [getSection] stops at, if any. *)
Definition hit (c : SectionCache) (kx ky : Z) : option Z :=
  match scan c kx ky (length (cache c)) 0 (-1) with
  | inl i => Some i
  | inr _ => None
  end.

Lemma scan_same_cache (c c' : SectionCache) (kx ky : Z) (n : nat)
    (i o o' : Z) :
  cache c' = cache c ->
  match scan c kx ky n i o, scan c' kx ky n i o' with
  | inl a, inl b => a = b
  | inr _, inr _ => True
  | _, _ => False
  end.
Proof.
  intros Hc. revert i o o'. induction n as [|n IH]; intros i o o'; simpl.
  - exact I.
  - rewrite Hc. destruct (holds _ _ _); [reflexivity|]. apply IH.
Qed.

Lemma hit_same_cache (c c' : SectionCache) (kx ky : Z) :
  cache c' = cache c -> hit c' kx ky = hit c kx ky.
Proof.
  intros Hc. unfold hit. rewrite Hc.
  pose proof (scan_same_cache c c' kx ky (length (cache c)) 0 (-1) (-1) Hc).
  destruct (scan c _ _ _ _ _), (scan c' _ _ _ _ _); try contradiction;
    congruence.
Qed.

Lemma hit_some (c : SectionCache) (kx ky j : Z) :
  hit c kx ky = Some j ->
  0 <= j /\ exists s, cache c !! Z.to_nat j = Some (Some s)
                      /\ secX s = kx /\ secY s = ky.
Proof.
  unfold hit. destruct (scan _ _ _ _ _ _) as [i|] eqn:Hs; [|discriminate].
  intros [= ->]. apply scan_hit in Hs as (Hr & Hh & _).
  apply holds_key in Hh. split; [lia|exact Hh].
Qed.

Lemma hit_none (c : SectionCache) (kx ky : Z) :
  hit c kx ky = None ->
  forall i s, cache c !! i = Some (Some s) -> ~ (secX s = kx /\ secY s = ky).
Proof.
  unfold hit. destruct (scan _ _ _ _ _ _) as [|o] eqn:Hs; [discriminate|].
  intros _ i s Hi [Hx Hy]. apply scan_miss in Hs as [Hnone _].
  pose proof (lookup_lt_Some _ _ _ Hi) as Hlt.
  specialize (Hnone (Z.of_nat i) ltac:(lia)).
  rewrite Nat2Z.id, Hi in Hnone. simpl in Hnone.
  rewrite Hx, Hy, !Z.eqb_refl in Hnone. discriminate.
Qed.

Lemma scan_all_miss (c : SectionCache) (kx ky : Z) (n : nat) (i o : Z) :
  (forall k, i <= k < i + Z.of_nat n ->
             holds (cache c !! Z.to_nat k) kx ky = false) ->
  exists o', scan c kx ky n i o = inr o'.
Proof.
  revert i o. induction n as [|n IH]; intros i o Hk; simpl; [eauto|].
  rewrite Hk by lia. apply IH. intros k Hk'. apply Hk. lia.
Qed.

Lemma hit_absent (c : SectionCache) (kx ky : Z) :
  (forall i s, cache c !! i = Some (Some s) ->
               ~ (secX s = kx /\ secY s = ky)) ->
  hit c kx ky = None.
Proof.
  intros Hno. unfold hit.
  destruct (scan_all_miss c kx ky (length (cache c)) 0 (-1)) as [o ->];
    [|reflexivity].
  intros k Hk. destruct (holds _ _ _) eqn:Hh; [|reflexivity].
  apply holds_key in Hh as (s & Hs & Hx & Hy).
  exfalso. exact (Hno _ _ Hs (conj Hx Hy)).
Qed.

Lemma hit_present (loader : Loader) (i : nat) (s : Section_) :
  cache_inv loader ->
  cache (sectionCache loader) !! i = Some (Some s) ->
  hit (sectionCache loader) (secX s) (secY s) = Some (Z.of_nat i).
Proof.
  intros (_ & _ & Hd) Hi.
  destruct (hit (sectionCache loader) (secX s) (secY s)) as [j|] eqn:Hh.
  - apply hit_some in Hh as (Hj & t & Ht & Hx & Hy).
    assert (Z.to_nat j = i).
    { apply (Hd _ _ t s Ht Hi). unfold key. congruence. }
    f_equal. lia.
  - exfalso. exact (hit_none _ _ _ Hh i s Hi (conj eq_refl eq_refl)).
Qed.

Section Store.
Context {codec : Codec}.

(** The section stored under a key: the one in the cache when the key is
    resident, what [load] reads from the disk otherwise. *)
Definition stored (loader : Loader) (kx ky : Z) : Section_ + error :=
  match hit (sectionCache loader) kx ky ≫= sectionAt loader with
  | Some s => inl s
  | None => load loader kx ky
  end.

(** The loaders the store works on: the invariant of the cache, a disk
    on which creating and opening a file does not fail, and resident
    keys with two hexadecimal digits. *)
Definition sound (loader : Loader) : Prop :=
  cache_inv loader /\ denied (disk loader) = ∅
  /\ forall i s, cache (sectionCache loader) !! i = Some (Some s) ->
                 twoDigits (secX s) /\ twoDigits (secY s).

(** [load] reads the directories, the mode and the disk. *)
Lemma load_ext (l l' : Loader) (kx ky : Z) :
  userDir l' = userDir l -> gameDir l' = gameDir l ->
  ioMode l' = ioMode l -> disk l' = disk l ->
  load l' kx ky = load l kx ky.
Proof.
  intros Hu Hg Hm Hd. unfold load, loadPath. rewrite Hu, Hg, Hm, Hd.
  reflexivity.
Qed.

Lemma stored_resident (loader : Loader) (i : nat) (s : Section_) :
  cache_inv loader ->
  cache (sectionCache loader) !! i = Some (Some s) ->
  stored loader (secX s) (secY s) = inl s.
Proof.
  intros Hinv Hi. unfold stored. rewrite (hit_present _ _ _ Hinv Hi). simpl.
  unfold sectionAt. rewrite Nat2Z.id, Hi. reflexivity.
Qed.

Lemma stored_absent (loader : Loader) (kx ky : Z) :
  hit (sectionCache loader) kx ky = None ->
  stored loader kx ky = load loader kx ky.
Proof. intros Hh. unfold stored. rewrite Hh. reflexivity. Qed.


(** [p] is a path to a file called [n]. *)
Definition pathOf (p n : string) : Prop :=
  exists a, dirPrefix a /\ p = String.append a n.

Lemma pathOf_inj (p n1 n2 : string) :
  plain n1 = true -> plain n2 = true ->
  pathOf p n1 -> pathOf p n2 -> n1 = n2.
Proof.
  intros H1 H2 (a & Ha & ->) (b & Hb & Heq).
  exact (last_component a b n1 n2 H1 H2 Ha Hb Heq).
Qed.

Lemma savePath_pathOf (loader : Loader) (n : string) :
  n <> EmptyString -> pathOf (savePath loader n) n.
Proof.
  intros Hn. unfold savePath. destruct (ioMode loader =? EDITOR_MODE).
  - apply join_game. exact Hn.
  - apply join_user. exact Hn.
Qed.

Lemma key_paths_differ (loader : Loader) (p : string) (ox oy kx ky : Z) :
  twoDigits ox -> twoDigits oy -> twoDigits kx -> twoDigits ky ->
  (ox, oy) <> (kx, ky) ->
  pathOf p (mapFileName ox oy) -> ~ pathOf p (mapFileName kx ky).
Proof.
  intros Hox Hoy Hkx Hky Hne Hp Hq.
  destruct (mapFileName_plain ox oy Hox Hoy) as [Hpo _].
  destruct (mapFileName_plain kx ky Hkx Hky) as [Hpk _].
  pose proof (pathOf_inj p _ _ Hpo Hpk Hp Hq) as Heq.
  apply mapFileName_inj in Heq as [-> ->]; try assumption.
  apply Hne. reflexivity.
Qed.

(** Writing the file of one key leaves what [load] reads for another. *)
Lemma load_other (loader l1 : Loader) (content : list Byte.byte)
    (ox oy kx ky : Z) :
  userDir l1 = userDir loader -> gameDir l1 = gameDir loader ->
  ioMode l1 = ioMode loader ->
  denied (disk l1) = denied (disk loader) ->
  files (disk l1)
  = <[savePath loader (mapFileName ox oy) := content]> (files (disk loader)) ->
  twoDigits ox -> twoDigits oy -> twoDigits kx -> twoDigits ky ->
  (ox, oy) <> (kx, ky) ->
  load l1 kx ky = load loader kx ky.
Proof.
  intros Hu Hg Hm Hden Hfiles Hox Hoy Hkx Hky Hne.
  destruct (mapFileName_plain ox oy Hox Hoy) as [_ Hno].
  destruct (mapFileName_plain kx ky Hkx Hky) as [_ Hnk].
  pose proof (savePath_pathOf loader _ Hno) as Hp.
  pose proof (key_paths_differ loader _ ox oy kx ky Hox Hoy Hkx Hky Hne Hp)
    as Hdiff.
  assert (Hlook : forall q, pathOf q (mapFileName kx ky) ->
            files (disk l1) !! q = files (disk loader) !! q).
  { intros q Hq. rewrite Hfiles. apply lookup_insert_ne.
    intros <-. exact (Hdiff Hq). }
  assert (Hpath : loadPath l1 (mapFileName kx ky)
                  = loadPath loader (mapFileName kx ky)).
  { unfold loadPath, fileExists. rewrite Hu, Hg, Hm.
    rewrite (Hlook (filepath_Join [userDir loader; mapFileName kx ky]))
      by (apply join_user; exact Hnk).
    reflexivity. }
  assert (Hq : pathOf (loadPath loader (mapFileName kx ky))
                 (mapFileName kx ky)).
  { unfold loadPath. destruct (ioMode loader =? EDITOR_MODE);
      [apply join_game; exact Hnk|].
    destruct (fileExists _ _);
      [apply join_user; exact Hnk|apply join_game; exact Hnk]. }
  unfold load. rewrite Hpath, (Hlook _ Hq), Hden. reflexivity.
Qed.

Context (laws : CodecLaws codec).

(** What [save] does on a disk that lets it. *)
Lemma save_sound (loader : Loader) (s : Section_) :
  denied (disk loader) = ∅ ->
  exists l1,
    save loader s = (l1, None)
    /\ sectionCache l1 = sectionCache loader
    /\ userDir l1 = userDir loader /\ gameDir l1 = gameDir loader
    /\ ioMode l1 = ioMode loader
    /\ X l1 = X loader /\ Y l1 = Y loader
    /\ denied (disk l1) = ∅
    /\ files (disk l1)
       = <[savePath loader (mapFileName (secX s) (secY s))
           := gzipWriter (VERSION :: gobEncodePosition (position s)
                                  ++ gobEncodeEdges (edges s))]>
           (files (disk loader)).
Proof.
  intros Hden. unfold save. rewrite Hden.
  destruct (decide _) as [Hin|_]; [exfalso; set_solver|].
  eexists. split; [reflexivity|]. repeat split.
Qed.

(** A section saved is the section loaded. *)
Lemma load_saved (loader l1 : Loader) (s : Section_) :
  save loader s = (l1, None) -> load l1 (secX s) (secY s) = inl s.
Proof.
  intros Hsave.
  destruct (Persistence.loadPath_after_save _ _ _ Hsave)
    as (Hpath & Hden & Hfile).
  unfold load. rewrite Hpath, Hfile.
  destruct (decide _) as [Hd|_]; [contradiction|].
  rewrite gzip_read_write, gob_position_read_write.
  rewrite <- (app_nil_r (gobEncodeEdges (edges s))).
  rewrite gob_edges_read_write. destruct s; reflexivity.
Qed.


(** [l'] stores the same sections as [l], under every key. *)
Definition sameWorld (l l' : Loader) : Prop :=
  forall kx ky, twoDigits kx -> twoDigits ky ->
                stored l' kx ky = stored l kx ky.

Definition sameSetup (l l' : Loader) : Prop :=
  userDir l' = userDir l /\ gameDir l' = gameDir l
  /\ ioMode l' = ioMode l /\ X l' = X l /\ Y l' = Y l.

Lemma sameWorld_refl (l : Loader) : sameWorld l l.
Proof. intros kx ky _ _. reflexivity. Qed.

Lemma sameWorld_trans (l1 l2 l3 : Loader) :
  sameWorld l1 l2 -> sameWorld l2 l3 -> sameWorld l1 l3.
Proof.
  intros H1 H2 kx ky Hx Hy. rewrite (H2 kx ky Hx Hy). apply H1; assumption.
Qed.

Lemma sameSetup_refl (l : Loader) : sameSetup l l.
Proof. repeat split. Qed.

Lemma sameSetup_trans (l1 l2 l3 : Loader) :
  sameSetup l1 l2 -> sameSetup l2 l3 -> sameSetup l1 l3.
Proof. unfold sameSetup. intuition congruence. Qed.

(** A loader with the same cache contents and the same files stores the
    same world. *)
Lemma stored_ext (l l' : Loader) (kx ky : Z) :
  cache (sectionCache l') = cache (sectionCache l) ->
  userDir l' = userDir l -> gameDir l' = gameDir l ->
  ioMode l' = ioMode l -> disk l' = disk l ->
  stored l' kx ky = stored l kx ky.
Proof.
  intros Hc Hu Hg Hm Hd. unfold stored.
  rewrite (hit_same_cache _ _ kx ky Hc).
  rewrite (load_ext l l' kx ky Hu Hg Hm Hd).
  destruct (hit (sectionCache l) kx ky) as [j|]; [|reflexivity].
  simpl. unfold sectionAt. rewrite Hc. reflexivity.
Qed.

(** The step of [getSection] that makes room: the section in the slot
    goes to the disk. *)
Lemma evict_stored (loader l1 : Loader) (o : nat) (old : Section_) :
  sound loader ->
  cache (sectionCache loader) !! o = Some (Some old) ->
  save loader old = (l1, None) ->
  sectionCache l1 = sectionCache loader
  /\ denied (disk l1) = ∅ /\ sameSetup loader l1
  /\ load l1 (secX old) (secY old) = inl old
  /\ forall kx ky, twoDigits kx -> twoDigits ky ->
        (secX old, secY old) <> (kx, ky) ->
        load l1 kx ky = load loader kx ky.
Proof.
  intros (Hinv & Hden & Hkeys) Ho Hsave.
  destruct (save_sound loader old Hden)
    as (l1' & Hs & Hc & Hu & Hg & Hm & HX & HY & Hd & Hf).
  rewrite Hsave in Hs. injection Hs as <-.
  destruct (Hkeys _ _ Ho) as [Hox Hoy].
  repeat split; try assumption.
  - exact (load_saved _ _ _ Hsave).
  - intros kx ky Hkx Hky Hne.
    eapply load_other; try eassumption. congruence.
Qed.


(** The loader [l1] after the slot [o] of [loader] has been written out
    (or found empty). *)
Definition madeRoom (loader l1 : Loader) (o : Z) : Prop :=
  sectionCache l1 = sectionCache loader
  /\ denied (disk l1) = ∅ /\ sameSetup loader l1
  /\ (forall old,
        cache (sectionCache loader) !! Z.to_nat o = Some (Some old) ->
        load l1 (secX old) (secY old) = inl old)
  /\ (forall kx ky, twoDigits kx -> twoDigits ky ->
        (forall old,
           cache (sectionCache loader) !! Z.to_nat o = Some (Some old) ->
           (secX old, secY old) <> (kx, ky)) ->
        load l1 kx ky = load loader kx ky).

Lemma madeRoom_world (loader l1 : Loader) (o : Z) :
  sound loader -> madeRoom loader l1 o -> sound l1 /\ sameWorld loader l1.
Proof.
  intros (Hinv & Hden & Hkeys) (Hc & Hd & Hset & Hold & Hother).
  split.
  - unfold sound, cache_inv. rewrite Hc. auto.
  - intros kx ky Hkx Hky. unfold stored. rewrite Hc.
    destruct (hit (sectionCache loader) kx ky) as [j|] eqn:Hh.
    + simpl. unfold sectionAt. rewrite Hc.
      apply hit_some in Hh as (_ & s & -> & _). reflexivity.
    + simpl. apply Hother; try assumption.
      intros old Ho Hk. injection Hk as <- <-.
      exact (hit_none _ _ _ Hh _ _ Ho (conj eq_refl eq_refl)).
Qed.

Lemma placed_world (loader l1 : Loader) (o sx sy now : Z)
    (section : Section_) (ev : Event) :
  sound loader -> twoDigits sx -> twoDigits sy ->
  hit (sectionCache loader) sx sy = None ->
  0 <= o < 4 -> madeRoom loader l1 o ->
  load l1 sx sy = inl section ->
  let l' := notify (withCache l1 (place (sectionCache l1) o section now)) ev in
  cache_inv l' -> sound l' /\ sameWorld loader l'.
Proof.
  intros Hsound Hsx Hsy Hmiss Ho Hroom Hload l' Hinv'.
  pose proof Hsound as (Hinv & Hden & Hkeys).
  pose proof Hroom as (Hc & Hd & (Hu & Hg & Hm & _) & Hold & Hother).
  destruct (load_key _ _ _ _ Hload) as [Hkx Hky].
  assert (Hlen : length (cache (sectionCache loader)) = 4%nat)
    by apply Hinv.
  assert (Hcache : cache (sectionCache l')
                   = <[Z.to_nat o := Some section]>
                       (cache (sectionCache loader)))
    by (unfold l'; cbn [notify withCache sectionCache place cache];
        rewrite Hc; reflexivity).
  assert (Hat : cache (sectionCache l') !! Z.to_nat o = Some (Some section))
    by (rewrite Hcache; apply list_lookup_insert_eq; lia).
  assert (Hloads : forall kx ky, load l' kx ky = load l1 kx ky)
    by (intros kx ky; apply load_ext; reflexivity).
  split.
  - split; [exact Hinv'|]. split; [exact Hd|].
    intros i s Hi.
    destruct (decide (i = Z.to_nat o)) as [->|Hne].
    + rewrite Hat in Hi. injection Hi as <-. rewrite Hkx, Hky. auto.
    + rewrite Hcache, list_lookup_insert_ne in Hi by congruence.
      apply (Hkeys _ _ Hi).
  - intros kx ky Hx Hy.
    destruct (decide ((kx, ky) = (sx, sy))) as [[= -> ->]|Hne].
    { rewrite (stored_absent loader sx sy Hmiss).
      rewrite <- Hkx, <- Hky at 1.
      rewrite (stored_resident l' _ _ Hinv' Hat).
      rewrite <- Hload. apply Hother; try assumption.
      intros old Hsl Hk. injection Hk as <- <-.
      exact (hit_none _ _ _ Hmiss _ _ Hsl (conj eq_refl eq_refl)). }
    destruct (hit (sectionCache loader) kx ky) as [j|] eqn:Hh.
    + pose proof (hit_some _ _ _ _ Hh) as (Hj & t & Ht & Htx & Hty).
      assert (Hst : stored loader kx ky = inl t)
        by (rewrite <- Htx, <- Hty; exact (stored_resident _ _ _ Hinv Ht)).
      rewrite Hst.
      destruct (decide (Z.to_nat j = Z.to_nat o)) as [Heq|Hjo].
      * rewrite Heq in Ht.
        assert (Hnot : hit (sectionCache l') kx ky = None).
        { apply hit_absent. intros i u Hi [Hux Huy].
          destruct (decide (i = Z.to_nat o)) as [->|Hio].
          - rewrite Hat in Hi. injection Hi as <-. apply Hne. congruence.
          - rewrite Hcache, list_lookup_insert_ne in Hi by congruence.
            destruct Hinv as (_ & _ & Hdist).
            apply Hio. apply (Hdist _ _ u t Hi Ht). unfold key. congruence. }
        rewrite (stored_absent l' kx ky Hnot), Hloads.
        rewrite <- Htx, <- Hty. apply Hold. exact Ht.
      * assert (Hi : cache (sectionCache l') !! Z.to_nat j = Some (Some t))
          by (rewrite Hcache, list_lookup_insert_ne by congruence; exact Ht).
        rewrite <- Htx, <- Hty. exact (stored_resident l' _ _ Hinv' Hi).
    + rewrite (stored_absent loader kx ky Hh).
      assert (Hnot : hit (sectionCache l') kx ky = None).
      { apply hit_absent. intros i u Hi [Hux Huy].
        destruct (decide (i = Z.to_nat o)) as [->|Hio].
        - rewrite Hat in Hi. injection Hi as <-. apply Hne. congruence.
        - rewrite Hcache, list_lookup_insert_ne in Hi by congruence.
          exact (hit_none _ _ _ Hh _ _ Hi (conj Hux Huy)). }
      rewrite (stored_absent l' kx ky Hnot), Hloads.
      apply Hother; try assumption.
      intros old Hsl Hk. injection Hk as <- <-.
      exact (hit_none _ _ _ Hh _ _ Hsl (conj eq_refl eq_refl)).
Qed.


Lemma sound_notify (loader : Loader) (ev : Event) :
  sound loader -> sound (notify loader ev).
Proof. intros H. exact H. Qed.

(** A query keeps the stored world: on a hit nothing but a time changes;
    on a miss the section that leaves the cache is on the disk, and the
    section that enters it is the one that was on the disk. *)
Lemma getSection_stored (loader : Loader) (sx sy now : Z) :
  sound loader -> twoDigits sx -> twoDigits sy ->
  let r := getSection loader sx sy now in
  sound (fst r) /\ sameWorld loader (fst r) /\ sameSetup loader (fst r)
  /\ match snd r with
     | Done slot =>
         exists s, sectionAt (fst r) slot = Some s
                   /\ stored loader sx sy = inl s
                   /\ resident (fst r) sx sy slot
     | Failed e => stored loader sx sy = inr e
     | Panic => False
     end.
Proof.
  intros Hsound Hsx Hsy r.
  pose proof Hsound as (Hinv & Hden & Hkeys).
  pose proof (cache_inv_getSection loader sx sy now Hinv) as Hinv'.
  fold r in Hinv'.
  assert (Hlen : length (cache (sectionCache loader)) = 4%nat)
    by apply Hinv.
  destruct (hit (sectionCache loader) sx sy) as [i|] eqn:Hhit.
  - assert (Hres : resident loader sx sy i).
    { unfold resident. unfold hit in Hhit.
      destruct (scan _ _ _ _ _ _); congruence. }
    subst r. rewrite (resident_getSection _ _ _ _ now Hres) in *.
    cbn [fst snd] in *.
    pose proof (hit_some _ _ _ _ Hhit) as (Hi & s & Hs & Hx & Hy).
    split; [split; [exact Hinv'|split; [exact Hden|exact Hkeys]]|].
    split; [intros kx ky _ _; apply stored_ext; reflexivity|].
    split; [repeat split|].
    exists s. split; [unfold sectionAt; simpl; rewrite Hs; reflexivity|].
    split; [|apply resident_touch; exact Hres].
    rewrite <- Hx, <- Hy. exact (stored_resident _ _ _ Hinv Hs).
  - pose proof (stored_absent loader sx sy Hhit) as Hst.
    unfold hit in Hhit. rewrite Hlen in Hhit.
    destruct (scan _ _ _ _ _ _) as [|o] eqn:Hscan; [discriminate|].
    pose proof (scan_miss_slot _ _ _ _ _ Hscan) as Ho.
    assert (Hroom : exists l1,
               madeRoom loader l1 o
               /\ (match cache (sectionCache loader) !! Z.to_nat o with
                   | Some (Some oldSection) =>
                       save (notify loader
                               (SectionSave (secX oldSection)
                                  (secY oldSection))) oldSection
                   | _ => (loader, None)
                   end) = (l1, None)).
    { destruct (cache (sectionCache loader) !! Z.to_nat o) as [[old|]|] eqn:Hsl.
      - destruct (save_sound
                    (notify loader (SectionSave (secX old) (secY old))) old
                    Hden) as (l1 & Hsave & _).
        exists l1. split; [|exact Hsave].
        destruct (evict_stored
                    (notify loader (SectionSave (secX old) (secY old)))
                    l1 (Z.to_nat o) old Hsound Hsl Hsave)
          as (Hc & Hd & Hset & Hold & Hother).
        split; [exact Hc|]. split; [exact Hd|]. split; [exact Hset|].
        split.
        + intros old' Hsl'. rewrite Hsl in Hsl'. injection Hsl' as <-.
          exact Hold.
        + intros kx ky Hkx Hky Hne.
          rewrite (Hother kx ky Hkx Hky (Hne old Hsl)).
          apply load_ext; reflexivity.
      - exists loader. split; [|reflexivity].
        split; [reflexivity|]. split; [exact Hden|].
        split; [apply sameSetup_refl|].
        split; [intros old' Hsl'; rewrite Hsl in Hsl'; discriminate|].
        reflexivity.
      - exists loader. split; [|reflexivity].
        split; [reflexivity|]. split; [exact Hden|].
        split; [apply sameSetup_refl|].
        split; [intros old' Hsl'; rewrite Hsl in Hsl'; discriminate|].
        reflexivity. }
    destruct Hroom as (l1 & Hroom & Hsave).
    assert (Hr : r = match load l1 sx sy with
                     | inl section =>
                         (notify
                            (withCache l1
                               (place (sectionCache l1) o section now))
                            (SectionLoad sx sy), Done o)
                     | inr e => (l1, Failed e)
                     end).
    { subst r. unfold getSection. rewrite Hlen, Hscan.
      destruct (o <? 0) eqn:E; [lia|].
      destruct (cache (sectionCache loader) !! Z.to_nat o) as [slot0|] eqn:Hsl.
      2:{ apply lookup_ge_None in Hsl. lia. }
      destruct slot0 as [old|];
        [rewrite Hsave|injection Hsave as <-]; reflexivity. }
    assert (Hl1 : load l1 sx sy = load loader sx sy).
    { apply Hroom; try assumption. intros old Hsl Hk.
      injection Hk as <- <-. apply scan_miss in Hscan as [Hnone _].
      specialize (Hnone o ltac:(lia)). rewrite Hsl in Hnone. simpl in Hnone.
      rewrite !Z.eqb_refl in Hnone. discriminate. }
    assert (Hmiss : hit (sectionCache loader) sx sy = None)
      by (unfold hit; rewrite Hlen, Hscan; reflexivity).
    rewrite Hr in *. clear Hr.
    destruct (load l1 sx sy) as [section|e] eqn:Hload; cbn [fst snd] in *.
    + destruct (placed_world loader l1 o sx sy now section
                  (SectionLoad sx sy) Hsound Hsx Hsy Hmiss ltac:(lia)
                  Hroom Hload Hinv') as [Hs' Hw'].
      split; [exact Hs'|]. split; [exact Hw'|].
      split; [apply Hroom|].
      exists section. split.
      * unfold sectionAt. cbn [notify withCache sectionCache place cache].
        destruct Hroom as (-> & _).
        rewrite list_lookup_insert_eq by lia. reflexivity.
      * split; [congruence|].
        assert (HG : getSection loader sx sy now
                     = (notify
                          (withCache l1
                             (place (sectionCache l1) o section now))
                          (SectionLoad sx sy), Done o)).
        { unfold getSection. rewrite Hlen, Hscan.
          destruct (o <? 0) eqn:E; [lia|].
          destruct (cache (sectionCache loader) !! Z.to_nat o)
            as [slot0|] eqn:Hsl.
          2:{ apply lookup_ge_None in Hsl. lia. }
          destruct slot0 as [old|];
            [rewrite Hsave|injection Hsave as <-]; rewrite Hload;
            reflexivity. }
        exact (getSection_resident _ _ _ _ _ _ HG).
    + destruct (madeRoom_world loader l1 o Hsound Hroom) as [Hs' Hw'].
      split; [exact Hs'|]. split; [exact Hw'|].
      split; [apply Hroom|]. congruence.
Qed.


(** Writing through the pointer [getSection] handed out. *)
Lemma stored_storeSection (loader : Loader) (slot : Z) (s s' : Section_) :
  sound loader -> 0 <= slot -> sectionAt loader slot = Some s ->
  secX s' = secX s -> secY s' = secY s ->
  let l' := storeSection loader slot s' in
  sound l' /\ sameSetup loader l'
  /\ forall kx ky,
       stored l' kx ky
       = if decide ((kx, ky) = (secX s, secY s)) then inl s'
         else stored loader kx ky.
Proof.
  intros Hsound Hslot Hs Hx Hy l'.
  pose proof Hsound as (Hinv & Hden & Hkeys).
  assert (Hinv' : cache_inv l')
    by (apply (cache_inv_store loader slot s s' Hinv Hslot Hs);
        unfold key; congruence).
  unfold sectionAt in Hs.
  destruct (cache (sectionCache loader) !! Z.to_nat slot) as [[s0|]|] eqn:H0;
    try discriminate.
  simpl in Hs. injection Hs as ->.
  pose proof (lookup_lt_Some _ _ _ H0) as Hlt.
  assert (Hcache : cache (sectionCache l')
                   = <[Z.to_nat slot := Some s']> (cache (sectionCache loader)))
    by reflexivity.
  assert (Hat : cache (sectionCache l') !! Z.to_nat slot = Some (Some s'))
    by (rewrite Hcache; apply list_lookup_insert_eq; exact Hlt).
  split; [|split; [repeat split|]].
  - split; [exact Hinv'|]. split; [exact Hden|].
    intros i t Hi. destruct (decide (i = Z.to_nat slot)) as [->|Hne].
    + rewrite Hat in Hi. injection Hi as <-. rewrite Hx, Hy.
      exact (Hkeys _ _ H0).
    + rewrite Hcache, list_lookup_insert_ne in Hi by congruence.
      exact (Hkeys _ _ Hi).
  - intros kx ky. destruct (decide ((kx, ky) = (secX s, secY s))) as [Hk|Hk].
    + injection Hk as -> ->. rewrite <- Hx, <- Hy.
      exact (stored_resident l' _ _ Hinv' Hat).
    + assert (Hload : load l' kx ky = load loader kx ky)
        by (apply load_ext; reflexivity).
      destruct (hit (sectionCache loader) kx ky) as [j|] eqn:Hh.
      * pose proof (hit_some _ _ _ _ Hh) as (Hj & t & Ht & Htx & Hty).
        assert (Hne : Z.to_nat j <> Z.to_nat slot).
        { intros Heq. rewrite Heq, H0 in Ht. injection Ht as <-.
          apply Hk. congruence. }
        assert (Hi : cache (sectionCache l') !! Z.to_nat j = Some (Some t))
          by (rewrite Hcache, list_lookup_insert_ne by congruence; exact Ht).
        rewrite <- Htx, <- Hty.
        rewrite (stored_resident l' _ _ Hinv' Hi).
        rewrite (stored_resident loader _ _ Hinv Ht). reflexivity.
      * rewrite (stored_absent loader kx ky Hh).
        rewrite <- Hload. apply stored_absent. apply hit_absent.
        intros i u Hi [Hux Huy].
        destruct (decide (i = Z.to_nat slot)) as [->|Hio].
        -- rewrite Hat in Hi. injection Hi as <-. apply Hk. congruence.
        -- rewrite Hcache, list_lookup_insert_ne in Hi by congruence.
           exact (hit_none _ _ _ Hh _ _ Hi (conj Hux Huy)).
Qed.

(** The world coordinates of the sections with two-digit keys. *)
Definition inWorld (x : Z) : Prop := 0 <= x < 256 * SECTION_SIZE.

Lemma inWorld_key (x : Z) :
  inWorld x ->
  twoDigits (x / 200)
  /\ GoInt.div x SECTION_SIZE = x / 200
  /\ GoInt.rem x SECTION_SIZE = x mod 200
  /\ 0 <= x mod 200 < 200.
Proof.
  unfold inWorld, twoDigits, SECTION_SIZE. intros Hx.
  rewrite GoIntFacts.div_floor, GoIntFacts.rem_mod by lia.
  pose proof (Z.mod_pos_bound x 200).
  assert (0 <= x / 200) by (apply Z.div_pos; lia).
  assert (x / 200 < 256) by (apply Z.div_lt_upper_bound; lia).
  repeat split; lia.
Qed.

(** Every accessor starts by resolving its cell: on a sound loader this
    finds the stored section of the cell, or fails as [load] does. *)
Lemma atPos_stored {A : Type} (loader : Loader) (x y z now : Z)
    (k : Loader -> Z -> Section_ -> Z -> Z -> Z -> Loader * outcome A) :
  sound loader -> inWorld x -> inWorld y ->
  exists l1,
    sound l1 /\ sameWorld loader l1 /\ sameSetup loader l1
    /\ match stored loader (x / 200) (y / 200) with
       | inl s =>
           exists slot,
             0 <= slot /\ sectionAt l1 slot = Some s
             /\ secX s = x / 200 /\ secY s = y / 200
             /\ atPos (getPosInSection loader x y z now) k
                = k l1 slot s (x mod 200) (y mod 200) z
       | inr e =>
           atPos (getPosInSection loader x y z now) k = (l1, Failed e)
       end.
Proof.
  intros Hsound Hx Hy.
  destruct (inWorld_key x Hx) as (Hkx & Hdx & Hrx & _).
  destruct (inWorld_key y Hy) as (Hky & Hdy & Hry & _).
  pose proof (getSection_stored loader (x / 200) (y / 200) now
                Hsound Hkx Hky) as H. cbv zeta in H.
  unfold atPos, getPosInSection. rewrite Hdx, Hdy, Hrx, Hry.
  destruct (getSection loader (x / 200) (y / 200) now) as [l1 [slot|e|]];
    cbn [fst snd] in H; destruct H as (Hs1 & Hw1 & Hset1 & H).
  - exists l1. split; [exact Hs1|]. split; [exact Hw1|].
    split; [exact Hset1|].
    destruct H as (s & Hs & Hst & Hres). rewrite Hst.
    exists slot. rewrite Hs.
    destruct (resident_sectionAt _ _ _ _ Hres) as (Hr & s2 & Hs2 & Hx2 & Hy2).
    rewrite Hs in Hs2. injection Hs2 as <-.
    repeat split; try assumption; lia.
  - exists l1. split; [exact Hs1|]. split; [exact Hw1|].
    split; [exact Hset1|]. rewrite H. reflexivity.
  - contradiction.
Qed.


(** *** The world cell by cell *)

(** What is stored for a cell of the shape layer and of the edge layer:
    the number in the array, or the error of the section's file. *)
Definition shapeCell (loader : Loader) (x y z : Z) : Z + error :=
  match stored loader (x / 200) (y / 200) with
  | inl s => inl (Shape (positionAt s (x mod 200) (y mod 200) z))
  | inr e => inr e
  end.

Definition edgeCell (loader : Loader) (x y : Z) : Z + error :=
  match stored loader (x / 200) (y / 200) with
  | inl s => inl (Shape (edgeAt s (x mod 200) (y mod 200)))
  | inr e => inr e
  end.

(** How [GetShape] and [GetEdge] report a cell. *)
Definition report (cell : Z + error) : outcome (Z * bool) :=
  match cell with
  | inl v => if v =? 0 then Done (0, false) else Done (GoInt.sub v 1, true)
  | inr e => Failed e
  end.

Lemma cells_sameWorld (l l' : Loader) :
  sameWorld l l' ->
  (forall x y z, inWorld x -> inWorld y ->
     shapeCell l' x y z = shapeCell l x y z)
  /\ (forall x y, inWorld x -> inWorld y -> edgeCell l' x y = edgeCell l x y).
Proof.
  intros Hw. split; intros; unfold shapeCell, edgeCell;
    rewrite Hw; try reflexivity; apply inWorld_key; assumption.
Qed.

Lemma inPosition_cell (x y z : Z) :
  inWorld x -> inWorld y -> 0 <= z < SECTION_Z_SIZE ->
  inPosition (x mod 200) (y mod 200) z = true.
Proof.
  intros Hx Hy Hz. unfold inPosition, SECTION_SIZE, SECTION_Z_SIZE in *.
  pose proof (Z.mod_pos_bound x 200). pose proof (Z.mod_pos_bound y 200).
  repeat (apply andb_true_intro; split); lia.
Qed.

Lemma inEdges_cell (x y : Z) :
  inWorld x -> inWorld y -> inEdges (x mod 200) (y mod 200) = true.
Proof.
  intros Hx Hy. unfold inEdges, SECTION_SIZE.
  pose proof (Z.mod_pos_bound x 200). pose proof (Z.mod_pos_bound y 200).
  repeat (apply andb_true_intro; split); lia.
Qed.

Lemma GetShape_cell (loader : Loader) (x y z now : Z) :
  sound loader -> inWorld x -> inWorld y -> 0 <= z < SECTION_Z_SIZE ->
  let r := GetShape loader x y z now in
  snd r = report (shapeCell loader x y z)
  /\ sound (fst r) /\ sameWorld loader (fst r) /\ sameSetup loader (fst r).
Proof.
  intros Hsound Hx Hy Hz r. subst r. unfold GetShape.
  match goal with
  | |- context [atPos _ ?k] =>
      destruct (atPos_stored loader x y z now k Hsound Hx Hy)
        as (l1 & Hs1 & Hw1 & Hset1 & H)
  end.
  unfold shapeCell.
  destruct (stored loader (x / 200) (y / 200)) as [s|e].
  - destruct H as (slot & _ & _ & _ & _ & ->).
    rewrite inPosition_cell by assumption. cbv zeta. simpl.
    destruct (_ =? 0); auto.
  - rewrite H. auto.
Qed.

Lemma GetEdge_cell (loader : Loader) (x y now : Z) :
  sound loader -> inWorld x -> inWorld y ->
  let r := GetEdge loader x y now in
  snd r = report (edgeCell loader x y)
  /\ sound (fst r) /\ sameWorld loader (fst r) /\ sameSetup loader (fst r).
Proof.
  intros Hsound Hx Hy r. subst r. unfold GetEdge.
  match goal with
  | |- context [atPos _ ?k] =>
      destruct (atPos_stored loader x y 0 now k Hsound Hx Hy)
        as (l1 & Hs1 & Hw1 & Hset1 & H)
  end.
  unfold edgeCell.
  destruct (stored loader (x / 200) (y / 200)) as [s|e].
  - destruct H as (slot & _ & _ & _ & _ & ->).
    rewrite inEdges_cell by assumption. cbv zeta. simpl.
    destruct (_ =? 0); auto.
  - rewrite H. auto.
Qed.


Lemma positionAt_setPositionAt (s : Section_) (ax ay az v bx by_ bz : Z) :
  positionAt (setPositionAt s ax ay az v) bx by_ bz
  = if decide ((bx, by_, bz) = (ax, ay, az)) then {| Shape := v |}
    else positionAt s bx by_ bz.
Proof.
  unfold positionAt, setPositionAt. simpl.
  destruct (decide _) as [->|Hne].
  - rewrite lookup_insert_eq. reflexivity.
  - rewrite lookup_insert_ne by congruence. reflexivity.
Qed.

Lemma edgeAt_setEdgeAt (s : Section_) (ax ay v bx by_ : Z) :
  edgeAt (setEdgeAt s ax ay v) bx by_
  = if decide ((bx, by_) = (ax, ay)) then {| Shape := v |}
    else edgeAt s bx by_.
Proof.
  unfold edgeAt, setEdgeAt. simpl.
  destruct (decide _) as [->|Hne].
  - rewrite lookup_insert_eq. reflexivity.
  - rewrite lookup_insert_ne by congruence. reflexivity.
Qed.

Lemma same_cell (x w : Z) :
  x / 200 = w / 200 -> x mod 200 = w mod 200 -> x = w.
Proof.
  intros Hd Hm. rewrite (Z.div_mod x 200), (Z.div_mod w 200) by lia.
  rewrite Hd, Hm. reflexivity.
Qed.

(** The effect of a write through the section of the cell [(wx, wy)]. *)
Lemma write_cells (l1 : Loader) (slot wx wy : Z) (s s' : Section_) :
  sound l1 -> 0 <= slot -> sectionAt l1 slot = Some s ->
  stored l1 (wx / 200) (wy / 200) = inl s ->
  secX s = wx / 200 -> secY s = wy / 200 ->
  secX s' = secX s -> secY s' = secY s ->
  let l' := storeSection l1 slot s' in
  sound l' /\ sameSetup l1 l'
  /\ (forall x y z,
        shapeCell l' x y z
        = if decide ((x / 200, y / 200) = (wx / 200, wy / 200))
          then inl (Shape (positionAt s' (x mod 200) (y mod 200) z))
          else shapeCell l1 x y z)
  /\ (forall x y,
        edgeCell l' x y
        = if decide ((x / 200, y / 200) = (wx / 200, wy / 200))
          then inl (Shape (edgeAt s' (x mod 200) (y mod 200)))
          else edgeCell l1 x y).
Proof.
  intros Hsound Hslot Hs Hst Hkx Hky Hx Hy l'.
  destruct (stored_storeSection l1 slot s s' Hsound Hslot Hs Hx Hy)
    as (Hs' & Hset & Hstored).
  fold l' in Hs', Hset, Hstored.
  split; [exact Hs'|]. split; [exact Hset|].
  split; intros; unfold shapeCell, edgeCell; rewrite Hstored, Hkx, Hky;
    destruct (decide _); reflexivity.
Qed.

(** Setting one cell of the shape layer, and one of the edge layer. *)
Lemma shape_write_cells (l1 : Loader) (slot x y z v : Z) (s : Section_) :
  sound l1 -> 0 <= slot -> sectionAt l1 slot = Some s ->
  stored l1 (x / 200) (y / 200) = inl s ->
  secX s = x / 200 -> secY s = y / 200 ->
  let l' := storeSection l1 slot
              (setPositionAt s (x mod 200) (y mod 200) z v) in
  sound l' /\ sameSetup l1 l'
  /\ (forall x' y' z',
        shapeCell l' x' y' z'
        = if decide ((x', y', z') = (x, y, z)) then inl v
          else shapeCell l1 x' y' z')
  /\ (forall x' y', edgeCell l' x' y' = edgeCell l1 x' y').
Proof.
  intros Hs1 Hslot Hsec Hst1 Hkx Hky l'.
  destruct (write_cells l1 slot x y s
              (setPositionAt s (x mod 200) (y mod 200) z v)
              Hs1 Hslot Hsec Hst1 Hkx Hky eq_refl eq_refl)
    as (Hs' & Hset' & Hshape & Hedge).
  fold l' in Hs', Hset', Hshape, Hedge.
  split; [exact Hs'|]. split; [exact Hset'|]. split.
  - intros x' y' z'. rewrite Hshape, positionAt_setPositionAt.
    destruct (decide ((x' / 200, y' / 200) = (x / 200, y / 200)))
      as [[= Hd1 Hd2]|Hk].
    + destruct (decide ((x' mod 200, y' mod 200, z') = (x mod 200, y mod 200, z)))
        as [[= Hm1 Hm2 ->]|Hc].
      * rewrite (same_cell x' x Hd1 Hm1), (same_cell y' y Hd2 Hm2).
        rewrite decide_True by reflexivity. reflexivity.
      * rewrite decide_False by (intros [= -> -> ->]; apply Hc; reflexivity).
        unfold shapeCell. rewrite Hd1, Hd2, Hst1. reflexivity.
    + rewrite decide_False by (intros [= -> -> ->]; apply Hk; reflexivity).
      reflexivity.
  - intros x' y'. rewrite Hedge.
    destruct (decide ((x' / 200, y' / 200) = (x / 200, y / 200)))
      as [[= Hd1 Hd2]|Hk]; [|reflexivity].
    unfold edgeCell. rewrite Hd1, Hd2, Hst1. reflexivity.
Qed.

Lemma edge_write_cells (l1 : Loader) (slot x y v : Z) (s : Section_) :
  sound l1 -> 0 <= slot -> sectionAt l1 slot = Some s ->
  stored l1 (x / 200) (y / 200) = inl s ->
  secX s = x / 200 -> secY s = y / 200 ->
  let l' := storeSection l1 slot
              (setEdgeAt s (x mod 200) (y mod 200) v) in
  sound l' /\ sameSetup l1 l'
  /\ (forall x' y' z', shapeCell l' x' y' z' = shapeCell l1 x' y' z')
  /\ (forall x' y',
        edgeCell l' x' y'
        = if decide ((x', y') = (x, y)) then inl v else edgeCell l1 x' y').
Proof.
  intros Hs1 Hslot Hsec Hst1 Hkx Hky l'.
  destruct (write_cells l1 slot x y s
              (setEdgeAt s (x mod 200) (y mod 200) v)
              Hs1 Hslot Hsec Hst1 Hkx Hky eq_refl eq_refl)
    as (Hs' & Hset' & Hshape & Hedge).
  fold l' in Hs', Hset', Hshape, Hedge.
  split; [exact Hs'|]. split; [exact Hset'|]. split.
  - intros x' y' z'. rewrite Hshape.
    destruct (decide ((x' / 200, y' / 200) = (x / 200, y / 200)))
      as [[= Hd1 Hd2]|Hk]; [|reflexivity].
    unfold shapeCell. rewrite Hd1, Hd2, Hst1. reflexivity.
  - intros x' y'. rewrite Hedge, edgeAt_setEdgeAt.
    destruct (decide ((x' / 200, y' / 200) = (x / 200, y / 200)))
      as [[= Hd1 Hd2]|Hk].
    + destruct (decide ((x' mod 200, y' mod 200) = (x mod 200, y mod 200)))
        as [[= Hm1 Hm2]|Hc].
      * rewrite (same_cell x' x Hd1 Hm1), (same_cell y' y Hd2 Hm2).
        rewrite decide_True by reflexivity. reflexivity.
      * rewrite decide_False by (intros [= -> ->]; apply Hc; reflexivity).
        unfold edgeCell. rewrite Hd1, Hd2, Hst1. reflexivity.
    + rewrite decide_False by (intros [= -> ->]; apply Hk; reflexivity).
      reflexivity.
Qed.

(** What the world looks like after each operation: [after] gives the
    cells of the two layers in terms of the cells before. *)
Definition shapeAfter (op : Op) (before : Z -> Z -> Z -> Z + error)
    (x y z : Z) : Z + error :=
  match op with
  | OpSetShape a b c i =>
      if decide ((x, y, z) = (a, b, c)) then inl (GoInt.add i 1)
      else before x y z
  | OpEraseShape a b c =>
      if decide ((x, y, z) = (a, b, c))
      then match before x y z with
           | inl v => inl (if 0 <? v then 0 else v)
           | inr e => inr e
           end
      else before x y z
  | _ => before x y z
  end.

Definition edgeAfter (op : Op) (before : Z -> Z -> Z + error)
    (x y : Z) : Z + error :=
  match op with
  | OpSetEdge a b i =>
      if decide ((x, y) = (a, b)) then inl (GoInt.add i 1) else before x y
  | OpClearEdge a b =>
      if decide ((x, y) = (a, b)) then inl 0 else before x y
  | _ => before x y
  end.

(** The cell an operation works on, and whether it is in the world. *)
Definition opCell (op : Op) : Z * Z * Z :=
  match op with
  | OpGetShape x y z | OpSetShape x y z _ | OpEraseShape x y z => (x, y, z)
  | OpGetEdge x y | OpSetEdge x y _ | OpClearEdge x y => (x, y, 0)
  end.

Definition opInWorld (op : Op) : Prop :=
  let '(x, y, z) := opCell op in
  inWorld x /\ inWorld y /\ 0 <= z < SECTION_Z_SIZE.

(** One operation on a sound loader: it fails exactly when the section
    of its cell cannot be read, and otherwise leaves a sound loader whose
    world is the one before with the operation applied. *)
Lemma exec_cells (loader : Loader) (op : Op) (now : Z) :
  sound loader -> opInWorld op ->
  let r := exec loader op now in
  let '(x, y, z) := opCell op in
  match stored loader (x / 200) (y / 200) with
  | inr e => snd r = Failed e
  | inl _ =>
      snd r = Done tt /\ sound (fst r) /\ sameSetup loader (fst r)
      /\ (forall x' y' z', inWorld x' -> inWorld y' ->
            shapeCell (fst r) x' y' z'
            = shapeAfter op (shapeCell loader) x' y' z')
      /\ (forall x' y', inWorld x' -> inWorld y' ->
            edgeCell (fst r) x' y' = edgeAfter op (edgeCell loader) x' y')
  end.
Proof.
  intros Hsound Hop r. subst r. unfold opInWorld in Hop.
  destruct (opCell op) as [[x y] z] eqn:Hcell.
  destruct Hop as (Hx & Hy & Hz).
  assert (Hforget : forall (A : Type) (q : Loader * outcome A),
             fst (forget q) = fst q
             /\ snd (forget q) = match snd q with
                                 | Done _ => Done tt
                                 | Failed e => Failed e
                                 | Panic => Panic
                                 end)
    by (intros A [l [a|e|]]; split; reflexivity).
  destruct op as [a b c|a b c i|a b c|a b|a b i|a b];
    injection Hcell as Ha Hb Hc; subst; cbn [exec];
    match goal with
    | |- context [forget ?q] =>
        destruct (Hforget _ q) as [-> ->]
    end;
    [unfold World.GetShape | unfold World.SetShape | unfold World.EraseShape
    | unfold World.GetEdge | unfold World.SetEdge | unfold World.ClearEdge];
    match goal with
    | |- context [atPos (getPosInSection _ _ _ ?zz _) ?k] =>
        destruct (atPos_stored loader x y zz now k Hsound Hx Hy)
          as (l1 & Hs1 & Hw1 & Hset1 & H)
    end;
    destruct (cells_sameWorld _ _ Hw1) as [Hsh Hed];
    (destruct (stored loader (x / 200) (y / 200)) as [s|e] eqn:Hst;
     [|rewrite H; reflexivity]);
    destruct H as (slot & Hslot & Hsec & Hkx & Hky & ->);
    assert (Hst1 : stored l1 (x / 200) (y / 200) = inl s)
      by (rewrite Hw1; [exact Hst|apply inWorld_key; assumption ..]);
    rewrite ?inPosition_cell, ?inEdges_cell by assumption; cbv zeta.
  - (* GetShape *)
    destruct (_ =? 0); cbn [fst snd];
      (split; [reflexivity|]; split; [exact Hs1|]; split; [exact Hset1|];
       split; [exact Hsh|exact Hed]).
  - (* SetShape *)
    destruct (shape_write_cells l1 slot x y z (GoInt.add i 1) s
                Hs1 Hslot Hsec Hst1 Hkx Hky) as (Hs' & Hset' & Hshape & Hedge).
    cbn [fst snd]. split; [reflexivity|]. split; [exact Hs'|].
    split; [eapply sameSetup_trans; eassumption|]. split.
    + intros x' y' z' Hx' Hy'. rewrite Hshape. cbn [shapeAfter].
      destruct (decide _); [reflexivity|]. apply Hsh; assumption.
    + intros x' y' Hx' Hy'. rewrite Hedge. apply Hed; assumption.
  - (* EraseShape *)
    assert (Hcur : shapeCell loader x y z
                   = inl (Shape (positionAt s (x mod 200) (y mod 200) z)))
      by (unfold shapeCell; rewrite Hst; reflexivity).
    destruct (0 <? Shape (positionAt s (x mod 200) (y mod 200) z)) eqn:Hpos.
    + destruct (shape_write_cells l1 slot x y z 0 s
                  Hs1 Hslot Hsec Hst1 Hkx Hky)
        as (Hs' & Hset' & Hshape & Hedge).
      cbn [fst snd]. split; [reflexivity|]. split; [exact Hs'|].
      split; [eapply sameSetup_trans; eassumption|]. split.
      * intros x' y' z' Hx' Hy'. rewrite Hshape. cbn [shapeAfter].
        destruct (decide _) as [[= -> -> ->]|];
          [rewrite Hcur, Hpos; reflexivity|]. apply Hsh; assumption.
      * intros x' y' Hx' Hy'. rewrite Hedge. apply Hed; assumption.
    + cbn [fst snd]. split; [reflexivity|]. split; [exact Hs1|].
      split; [exact Hset1|]. split; [|exact Hed].
      intros x' y' z' Hx' Hy'. rewrite Hsh by assumption. cbn [shapeAfter].
      destruct (decide _) as [[= -> -> ->]|]; [|reflexivity].
      rewrite Hcur, Hpos. reflexivity.
  - (* GetEdge *)
    destruct (_ =? 0); cbn [fst snd];
      (split; [reflexivity|]; split; [exact Hs1|]; split; [exact Hset1|];
       split; [exact Hsh|exact Hed]).
  - (* SetEdge *)
    destruct (edge_write_cells l1 slot x y (GoInt.add i 1) s
                Hs1 Hslot Hsec Hst1 Hkx Hky) as (Hs' & Hset' & Hshape & Hedge).
    cbn [fst snd]. split; [reflexivity|]. split; [exact Hs'|].
    split; [eapply sameSetup_trans; eassumption|]. split.
    + intros x' y' z' Hx' Hy'. rewrite Hshape. apply Hsh; assumption.
    + intros x' y' Hx' Hy'. rewrite Hedge. cbn [edgeAfter].
      destruct (decide _); [reflexivity|]. apply Hed; assumption.
  - (* ClearEdge *)
    destruct (edge_write_cells l1 slot x y 0 s
                Hs1 Hslot Hsec Hst1 Hkx Hky) as (Hs' & Hset' & Hshape & Hedge).
    cbn [fst snd]. split; [reflexivity|]. split; [exact Hs'|].
    split; [eapply sameSetup_trans; eassumption|]. split.
    + intros x' y' z' Hx' Hy'. rewrite Hshape. apply Hsh; assumption.
    + intros x' y' Hx' Hy'. rewrite Hedge. cbn [edgeAfter].
      destruct (decide _); [reflexivity|]. apply Hed; assumption.
Qed.


(** *** Sequences of operations *)

Fixpoint shapesAfter (ops : list (Op * Z))
    (before : Z -> Z -> Z -> Z + error) : Z -> Z -> Z -> Z + error :=
  match ops with
  | [] => before
  | (op, _) :: rest => shapesAfter rest (shapeAfter op before)
  end.

Fixpoint edgesAfter (ops : list (Op * Z))
    (before : Z -> Z -> Z + error) : Z -> Z -> Z + error :=
  match ops with
  | [] => before
  | (op, _) :: rest => edgesAfter rest (edgeAfter op before)
  end.

Lemma shapesAfter_ext (ops : list (Op * Z))
    (b1 b2 : Z -> Z -> Z -> Z + error) (x y z : Z) :
  b1 x y z = b2 x y z -> shapesAfter ops b1 x y z = shapesAfter ops b2 x y z.
Proof.
  revert b1 b2. induction ops as [|[op t] ops IH]; intros b1 b2 Hb; simpl.
  - exact Hb.
  - apply IH. destruct op; simpl; try exact Hb;
      destruct (decide _); try reflexivity; try exact Hb.
    rewrite Hb. reflexivity.
Qed.

Lemma edgesAfter_ext (ops : list (Op * Z))
    (b1 b2 : Z -> Z -> Z + error) (x y : Z) :
  b1 x y = b2 x y -> edgesAfter ops b1 x y = edgesAfter ops b2 x y.
Proof.
  revert b1 b2. induction ops as [|[op t] ops IH]; intros b1 b2 Hb; simpl.
  - exact Hb.
  - apply IH. destruct op; simpl; try exact Hb;
      destruct (decide _); try reflexivity; exact Hb.
Qed.

(** A run that reaches its end leaves a sound loader whose world is the
    one before with the operations applied in order. *)
Lemma run_cells (ops : list (Op * Z)) (loader l' : Loader) :
  sound loader -> Forall (fun o => opInWorld (fst o)) ops ->
  run loader ops = (l', Done tt) ->
  sound l' /\ sameSetup loader l'
  /\ (forall x y z, inWorld x -> inWorld y ->
        shapeCell l' x y z = shapesAfter ops (shapeCell loader) x y z)
  /\ (forall x y, inWorld x -> inWorld y ->
        edgeCell l' x y = edgesAfter ops (edgeCell loader) x y).
Proof.
  revert loader. induction ops as [|[op t] ops IH]; intros loader Hs Hall Hrun.
  - simpl in Hrun. injection Hrun as <-.
    split; [exact Hs|]. split; [apply sameSetup_refl|]. split; reflexivity.
  - apply Forall_cons in Hall as [Hop Hall]. simpl in Hop.
    pose proof (exec_cells loader op t Hs Hop) as H. cbv zeta in H.
    simpl in Hrun.
    destruct (opCell op) as [[x y] z].
    destruct (exec loader op t) as [l1 [[]|e|]] eqn:Hexec;
      try discriminate; cbn [fst snd] in H.
    destruct (stored loader (x / 200) (y / 200)); [|discriminate].
    destruct H as (_ & Hs1 & Hset1 & Hsh1 & Hed1).
    destruct (IH l1 Hs1 Hall Hrun) as (Hs' & Hset' & Hsh' & Hed').
    split; [exact Hs'|]. split; [eapply sameSetup_trans; eassumption|].
    split.
    + intros a b c Ha Hb. rewrite Hsh' by assumption. simpl.
      apply shapesAfter_ext. apply Hsh1; assumption.
    + intros a b Ha Hb. rewrite Hed' by assumption. simpl.
      apply edgesAfter_ext. apply Hed1; assumption.
Qed.

(** A new loader is sound when its disk lets it create and open files. *)
Lemma sound_new (fs : FileSystem) (u g : string) (mode : Z) :
  denied fs = ∅ -> sound (SetIoMode (NewLoader fs u g) mode).
Proof.
  intros Hden. split; [exact (cache_inv_new fs u g)|]. split; [exact Hden|].
  intros i s Hi. simpl in Hi. destruct i as [|[|[|[|i]]]]; discriminate.
Qed.


Lemma shapesAfter_app (ops1 ops2 : list (Op * Z))
    (before : Z -> Z -> Z -> Z + error) :
  shapesAfter (ops1 ++ ops2) before = shapesAfter ops2 (shapesAfter ops1 before).
Proof.
  revert before. induction ops1 as [|[op t] ops1 IH]; intros before; simpl;
    [reflexivity|apply IH].
Qed.

(** The operations that write the cell [(x, y, z)] of the shape layer. *)
Definition writes (x y z : Z) (op : Op) : bool :=
  match op with
  | OpSetShape a b c _ | OpEraseShape a b c =>
      bool_decide ((a, b, c) = (x, y, z))
  | _ => false
  end.

Lemma shapesAfter_untouched (ops : list (Op * Z))
    (before : Z -> Z -> Z -> Z + error) (x y z : Z) :
  Forall (fun o => writes x y z (fst o) = false) ops ->
  shapesAfter ops before x y z = before x y z.
Proof.
  revert before. induction ops as [|[op t] ops IH]; intros before Hall; simpl;
    [reflexivity|].
  apply Forall_cons in Hall as [Hop Hall]. rewrite (IH _ Hall).
  simpl in Hop. destruct op; simpl in *; try reflexivity;
    apply bool_decide_eq_false in Hop;
    (rewrite decide_False; [reflexivity|congruence]).
Qed.

(** Every section readable: no cell whose section file is broken. *)
Definition readable (loader : Loader) : Prop :=
  forall x y z, inWorld x -> inWorld y ->
                exists v, shapeCell loader x y z = inl v.

Lemma shapeAfter_inl (op : Op) (before : Z -> Z -> Z -> Z + error)
    (x y z : Z) :
  (exists v, before x y z = inl v) ->
  exists v, shapeAfter op before x y z = inl v.
Proof.
  intros [v Hv]. destruct op; simpl; eauto;
    destruct (decide _); eauto. rewrite Hv. eauto.
Qed.

Lemma run_readable (ops : list (Op * Z)) (loader : Loader) :
  sound loader -> readable loader ->
  Forall (fun o => opInWorld (fst o)) ops ->
  exists l', run loader ops = (l', Done tt).
Proof.
  revert loader. induction ops as [|[op t] ops IH]; intros loader Hs Hr Hall.
  - eexists. reflexivity.
  - apply Forall_cons in Hall as [Hop Hall]. simpl in Hop.
    pose proof (exec_cells loader op t Hs Hop) as H. cbv zeta in H.
    pose proof Hop as Hop'. unfold opInWorld in Hop'.
    destruct (opCell op) as [[x y] z]. destruct Hop' as (Hx & Hy & _).
    destruct (Hr x y 0 Hx Hy) as [v Hv]. unfold shapeCell in Hv.
    destruct (stored loader (x / 200) (y / 200)); [|discriminate].
    destruct H as (Hdone & Hs1 & _ & Hsh1 & _).
    simpl. destruct (exec loader op t) as [l1 [[]|e|]];
      cbn [fst snd] in *; try discriminate.
    apply IH; try assumption.
    intros a b c Ha Hb. rewrite Hsh1 by assumption.
    apply shapeAfter_inl. apply Hr; assumption.
Qed.

Lemma stored_empty_disk (u g : string) (mode kx ky : Z) :
  stored (SetIoMode (NewLoader {| files := ∅; denied := ∅ |} u g) mode) kx ky
  = inl {| secX := kx; secY := ky; position := ∅; edges := ∅ |}.
Proof.
  unfold stored. rewrite hit_absent.
  - simpl. unfold load. cbn [disk SetIoMode NewLoader files].
    rewrite lookup_empty. reflexivity.
  - intros i s Hi. simpl in Hi. destruct i as [|[|[|[|i]]]]; discriminate.
Qed.


(** [SaveAll], slot by slot. *)
Lemma saveEach_spec (slots : list (option Section_)) (loader : Loader) :
  denied (disk loader) = ∅ ->
  (forall i s, slots !! i = Some (Some s) ->
               twoDigits (secX s) /\ twoDigits (secY s)) ->
  (forall (i j : nat) s t,
     slots !! i = Some (Some s) -> slots !! j = Some (Some t) ->
     key s = key t -> i = j) ->
  exists l',
    saveEach loader slots = (l', None)
    /\ sectionCache l' = sectionCache loader
    /\ observer l' = observer loader
    /\ sameSetup loader l' /\ denied (disk l') = ∅
    /\ (forall i s, slots !! i = Some (Some s) ->
                    load l' (secX s) (secY s) = inl s)
    /\ (forall kx ky, twoDigits kx -> twoDigits ky ->
          (forall i s, slots !! i = Some (Some s) ->
                       (secX s, secY s) <> (kx, ky)) ->
          load l' kx ky = load loader kx ky).
Proof.
  revert loader. induction slots as [|[c|] rest IH];
    intros loader Hden Hkeys Hdist.
  - exists loader. split; [reflexivity|]. split; [reflexivity|].
    split; [reflexivity|]. split; [apply sameSetup_refl|].
    split; [exact Hden|]. split; [intros i s Hi; discriminate|reflexivity].
  - destruct (save_sound loader c Hden)
      as (l1 & Hsave & Hc1 & Hu & Hg & Hm & HX & HY & Hd1 & Hf1).
    assert (Hobs1 : observer l1 = observer loader)
      by (apply save_cache in Hsave; apply Hsave).
    destruct (Hkeys 0%nat c eq_refl) as [Hcx Hcy].
    destruct (IH l1 Hd1) as (l' & Hrun & Hc' & Hobs' & Hset' & Hd' & Hin & Hout).
    { intros i s Hi. exact (Hkeys (S i) s Hi). }
    { intros i j s t Hi Hj Hk.
      enough (S i = S j) by lia. exact (Hdist (S i) (S j) s t Hi Hj Hk). }
    exists l'. simpl. rewrite Hsave, Hrun.
    split; [reflexivity|]. split; [congruence|]. split; [congruence|].
    split; [eapply sameSetup_trans; [|exact Hset']; repeat split; assumption|].
    split; [exact Hd'|]. split.
    + intros [|i] s Hi.
      * injection Hi as <-. rewrite Hout; try assumption.
        -- exact (load_saved _ _ _ Hsave).
        -- intros j t Hj Hk.
           discriminate (Hdist (S j) 0%nat t c Hj eq_refl
                           ltac:(unfold key; congruence)).
      * exact (Hin i s Hi).
    + intros kx ky Hkx Hky Hno. rewrite Hout; try assumption.
      * eapply load_other; try eassumption; [congruence|].
        exact (Hno 0%nat c eq_refl).
      * intros i s Hi. exact (Hno (S i) s Hi).
  - destruct (IH loader Hden) as (l' & Hrun & Hrest).
    { intros i s Hi. exact (Hkeys (S i) s Hi). }
    { intros i j s t Hi Hj Hk.
      enough (S i = S j) by lia. exact (Hdist (S i) (S j) s t Hi Hj Hk). }
    exists l'. simpl. split; [exact Hrun|].
    destruct Hrest as (Hc' & Hobs' & Hset' & Hd' & Hin & Hout).
    repeat (split; [assumption|]). split.
    + intros [|i] s Hi; [discriminate|exact (Hin i s Hi)].
    + intros kx ky Hkx Hky Hno. apply Hout; try assumption.
      intros i s Hi. exact (Hno (S i) s Hi).
Qed.


(** X1: on an empty disk the store is a map from cells to numbers.  Any
    sequence of shape and edge operations on cells of the world runs to
    its end, whatever the cache evicts on the way, and afterwards
    [GetShape] and [GetEdge] report, for every cell, what the operations
    applied in order to an all-empty world leave there: the two layers
    do not interfere. *)
Theorem store_is_a_map (u g : string) (mode : Z) (ops : list (Op * Z))
    (x y z t : Z) :
  Forall (fun o => opInWorld (fst o)) ops ->
  inWorld x -> inWorld y -> 0 <= z < SECTION_Z_SIZE ->
  let r := run (SetIoMode (NewLoader {| files := ∅; denied := ∅ |} u g) mode)
               ops in
  snd r = Done tt
  /\ snd (GetShape (fst r) x y z t)
     = report (shapesAfter ops (fun _ _ _ => inl 0) x y z)
  /\ snd (GetEdge (fst r) x y t)
     = report (edgesAfter ops (fun _ _ => inl 0) x y).
Proof.
  intros Hall Hx Hy Hz r. subst r.
  set (init := SetIoMode (NewLoader {| files := ∅; denied := ∅ |} u g) mode).
  assert (Hs : sound init) by (apply sound_new; reflexivity).
  assert (Hsh0 : forall a b c, shapeCell init a b c = inl 0)
    by (intros a b c; unfold shapeCell, init;
        rewrite stored_empty_disk; reflexivity).
  assert (Hed0 : forall a b, edgeCell init a b = inl 0)
    by (intros a b; unfold edgeCell, init;
        rewrite stored_empty_disk; reflexivity).
  destruct (run_readable ops init Hs) as [l' Hrun]; [|exact Hall|].
  { intros a b c _ _. rewrite Hsh0. eauto. }
  rewrite Hrun. cbn [fst snd]. split; [reflexivity|].
  destruct (run_cells ops init l' Hs Hall Hrun) as (Hs' & _ & Hsh & Hed).
  destruct (GetShape_cell l' x y z t Hs' Hx Hy Hz) as [-> _].
  destruct (GetEdge_cell l' x y t Hs' Hx Hy) as [-> _].
  rewrite Hsh, Hed by assumption.
  rewrite (shapesAfter_ext ops _ (fun _ _ _ => inl 0) x y z (Hsh0 x y z)).
  rewrite (edgesAfter_ext ops _ (fun _ _ => inl 0) x y (Hed0 x y)).
  split; reflexivity.
Qed.

(** X2: the last write wins, whatever is on the disk.  On a disk that
    lets the loader create and open files, with the operations and the
    cell in the part of the world whose section keys print as two hex
    digits ([inWorld]: coordinates below [256 * 200]): after any
    operations, a [SetShape] of the index [i] (any [int] but -1) on the
    cell, and then any operations that do not write that cell, [GetShape]
    on the cell returns [(i, true)], however often its section has left
    the cache meanwhile. *)
Theorem last_write_wins (fs : FileSystem) (u g : string) (mode : Z)
    (ops0 ops1 : list (Op * Z)) (x y z i t t' : Z) (l : Loader) :
  denied fs = ∅ ->
  Forall (fun o => opInWorld (fst o)) (ops0 ++ ops1) ->
  inWorld x -> inWorld y -> 0 <= z < SECTION_Z_SIZE ->
  GoInt.in_range i -> i <> -1 ->
  Forall (fun o => writes x y z (fst o) = false) ops1 ->
  run (SetIoMode (NewLoader fs u g) mode)
      (ops0 ++ (OpSetShape x y z i, t) :: ops1) = (l, Done tt) ->
  snd (GetShape l x y z t') = Done (i, true).
Proof.
  intros Hden Hall Hx Hy Hz Hi Hne Hun Hrun.
  pose proof (sound_new fs u g mode Hden) as Hs.
  apply Forall_app in Hall as [Hall0 Hall1].
  assert (Hall : Forall (fun o => opInWorld (fst o))
                   (ops0 ++ (OpSetShape x y z i, t) :: ops1)).
  { apply Forall_app. split; [exact Hall0|].
    apply Forall_cons. split; [|exact Hall1].
    simpl. unfold opInWorld. simpl. auto. }
  destruct (run_cells _ _ l Hs Hall Hrun) as (Hs' & _ & Hsh & _).
  destruct (GetShape_cell l x y z t' Hs' Hx Hy Hz) as [-> _].
  rewrite Hsh by assumption.
  rewrite shapesAfter_app. simpl.
  rewrite shapesAfter_untouched by exact Hun.
  simpl. rewrite decide_True by reflexivity. simpl.
  destruct (GoInt.add i 1 =? 0) eqn:E.
  - apply Z.eqb_eq, add_one_zero in E; [contradiction|exact Hi].
  - rewrite sub_add_cancel by exact Hi. reflexivity.
Qed.

(** X3: what a query evicts can be loaded back.  When [getSection] on a
    sound loader has made room for a section whose key coordinates are in
    [0, 256), every section that was in the cache before and is not in it
    any more is read back by [load] under its key exactly as it was,
    shapes and edges. *)
Theorem evicted_section_reloads (loader l' : Loader) (sx sy now slot : Z)
    (i : nat) (s : Section_) :
  sound loader -> twoDigits sx -> twoDigits sy ->
  getSection loader sx sy now = (l', Done slot) ->
  cache (sectionCache loader) !! i = Some (Some s) ->
  (forall j, cache (sectionCache l') !! j <> Some (Some s)) ->
  load l' (secX s) (secY s) = inl s.
Proof.
  intros Hs Hsx Hsy HG Hi Hgone.
  pose proof (getSection_stored loader sx sy now Hs Hsx Hsy) as H.
  cbv zeta in H. rewrite HG in H. cbn [fst snd] in H.
  destruct H as (Hs' & Hw & _ & _).
  destruct Hs as (Hinv & _ & Hkeys). destruct (Hkeys _ _ Hi) as [Hkx Hky].
  pose proof (Hw _ _ Hkx Hky) as Hst.
  rewrite (stored_resident loader _ _ Hinv Hi) in Hst.
  unfold stored in Hst.
  destruct (hit (sectionCache l') (secX s) (secY s)) as [j|] eqn:Hh;
    [|exact Hst].
  apply hit_some in Hh as (_ & u' & Hu & _). simpl in Hst.
  unfold sectionAt in Hst. rewrite Hu in Hst. simpl in Hst.
  injection Hst as ->. exfalso. exact (Hgone _ Hu).
Qed.

(** X5: after [SaveAll] the disk holds the world.  On a sound loader
    [SaveAll] succeeds, leaves the cache and the observer alone, and a new
    loader started on the disk it leaves (same directories, same mode)
    reads every cell of both layers with coordinates below [256 * 200] as
    the old loader does. *)
Theorem SaveAll_then_restart (loader : Loader) (x y z t : Z) :
  sound loader -> inWorld x -> inWorld y -> 0 <= z < SECTION_Z_SIZE ->
  exists l',
    SaveAll loader = (l', None)
    /\ sectionCache l' = sectionCache loader
    /\ observer l' = observer loader
    /\ let fresh := SetIoMode
                      (NewLoader (disk l') (userDir l') (gameDir l'))
                      (ioMode l') in
       snd (GetShape fresh x y z t) = snd (GetShape loader x y z t)
       /\ snd (GetEdge fresh x y t) = snd (GetEdge loader x y t).
Proof.
  intros Hs Hx Hy Hz. pose proof Hs as (Hinv & Hden & Hkeys).
  destruct (saveEach_spec (cache (sectionCache loader)) loader Hden Hkeys)
    as (l' & Hrun & Hc & Hobs & (Hu & Hg & Hm & _) & Hd & Hin & Hout).
  { apply Hinv. }
  exists l'. split; [exact Hrun|]. split; [exact Hc|]. split; [exact Hobs|].
  intros fresh.
  assert (Hsf : sound fresh) by (apply sound_new; exact Hd).
  assert (Hw : sameWorld loader fresh).
  { intros kx ky Hkx Hky.
    assert (Hf : stored fresh kx ky = load l' kx ky).
    { unfold stored. rewrite hit_absent.
      - simpl. apply load_ext; reflexivity.
      - intros j s Hj. simpl in Hj. destruct j as [|[|[|[|j]]]]; discriminate. }
    rewrite Hf.
    destruct (hit (sectionCache loader) kx ky) as [j|] eqn:Hh.
    - pose proof (hit_some _ _ _ _ Hh) as (_ & s & Hsl & <- & <-).
      rewrite (stored_resident loader _ _ Hinv Hsl). exact (Hin _ _ Hsl).
    - rewrite (stored_absent loader kx ky Hh). apply Hout; try assumption.
      intros j s Hj Hk. injection Hk as <- <-.
      exact (hit_none _ _ _ Hh _ _ Hj (conj eq_refl eq_refl)). }
  destruct (cells_sameWorld _ _ Hw) as [Hsh Hed].
  destruct (GetShape_cell fresh x y z t Hsf Hx Hy Hz) as [-> _].
  destruct (GetShape_cell loader x y z t Hs Hx Hy Hz) as [-> _].
  destruct (GetEdge_cell fresh x y t Hsf Hx Hy) as [-> _].
  destruct (GetEdge_cell loader x y t Hs Hx Hy) as [-> _].
  rewrite Hsh, Hed by assumption. auto.
Qed.

End Store.

(** X4: the file names of the sections.  Two different sections whose
    key coordinates lie in [[0, 256)] never share a map file. *)
Theorem map_file_names_distinct (sx sy sx' sy' : Z) :
  twoDigits sx -> twoDigits sy -> twoDigits sx' -> twoDigits sy' ->
  (sx, sy) <> (sx', sy') ->
  mapFileName sx sy <> mapFileName sx' sy'.
Proof.
  intros Hx Hy Hx' Hy' Hne Heq. apply Hne.
  destruct (mapFileName_inj sx sy sx' sy' Hx Hy Hx' Hy' Heq) as [-> ->].
  reflexivity.
Qed.

(** Beyond two digits the names run into each other: the sections
    [(0x123, 0x4)] and [(0x12, 0x304)] share the file [map12304]. *)
Example map_file_names_collide : mapFileName 291 4 = mapFileName 18 772.
Proof. reflexivity. Qed.

End WorldMap.

(** ** Runs of the store *)
Module WorldMapRuns.
Import World StoreFacts CacheInvariant FileNames WorldMap.

(** Five sections through the four slots, edges and an erase on the way. *)
Definition traffic : list (Op * Z) :=
  [(OpSetShape 0 0 0 1, 10); (OpSetShape 200 0 0 1, 11);
   (OpSetEdge 400 0 6, 12); (OpSetShape 600 0 0 1, 13);
   (OpGetShape 800 0 0, 14); (OpEraseShape 200 0 0, 15)].

Ltac in_world :=
  unfold opInWorld, inWorld, SECTION_SIZE, SECTION_Z_SIZE; simpl; lia.

Lemma traffic_in_world : Forall (fun o => opInWorld (fst o)) traffic.
Proof. unfold traffic. repeat (constructor; [in_world|]). constructor. Qed.

Lemma store_is_a_map_witness :
  (Forall (fun o => opInWorld (fst o)) traffic
   /\ inWorld 0 /\ inWorld 0 /\ 0 <= 0 < SECTION_Z_SIZE)
  /\ snd (run (codec := ReferenceCodec.codec)
            (SetIoMode (NewLoader {| files := ∅; denied := ∅ |} "user" "game")
               RUNNER_MODE) traffic) = Done tt
  /\ snd (GetShape (codec := ReferenceCodec.codec)
            (fst (run (codec := ReferenceCodec.codec)
                    (SetIoMode
                       (NewLoader {| files := ∅; denied := ∅ |} "user" "game")
                       RUNNER_MODE) traffic)) 0 0 0 20)
     = report (shapesAfter traffic (fun _ _ _ => inl 0) 0 0 0)
  /\ snd (GetEdge (codec := ReferenceCodec.codec)
            (fst (run (codec := ReferenceCodec.codec)
                    (SetIoMode
                       (NewLoader {| files := ∅; denied := ∅ |} "user" "game")
                       RUNNER_MODE) traffic)) 0 0 20)
     = report (edgesAfter traffic (fun _ _ => inl 0) 0 0).
Proof.
  assert (H : Forall (fun o => opInWorld (fst o)) traffic
              /\ inWorld 0 /\ inWorld 0 /\ 0 <= 0 < SECTION_Z_SIZE).
  { split; [exact traffic_in_world|]. repeat split; in_world. }
  split; [exact H|].
  destruct H as (H1 & H2 & H3 & H4).
  exact (store_is_a_map (codec := ReferenceCodec.codec) reference_codec_laws
           "user" "game" RUNNER_MODE traffic 0 0 0 20 H1 H2 H3 H4).
Defined.

(** What the run of the witness leaves in the cell that was evicted and
    came back. *)
Example traffic_first_cell :
  snd (GetShape (codec := ReferenceCodec.codec)
         (fst (run (codec := ReferenceCodec.codec)
                 (SetIoMode
                    (NewLoader {| files := ∅; denied := ∅ |} "user" "game")
                    RUNNER_MODE) traffic)) 0 0 0 20)
  = Done (1, true).
Proof. vm_compute. reflexivity. Qed.


Definition emptyStore : Loader :=
  SetIoMode (NewLoader {| files := ∅; denied := ∅ |} "user" "game")
    RUNNER_MODE.

(** Four sections fill the four slots. *)
Definition fill : list (Op * Z) :=
  [(OpSetShape 0 0 0 1, 10); (OpSetShape 200 0 0 1, 11);
   (OpSetEdge 400 0 6, 12); (OpSetShape 600 0 0 1, 13)].

Definition full : Loader :=
  fst (run (codec := ReferenceCodec.codec) emptyStore fill).

Lemma fill_in_world : Forall (fun o => opInWorld (fst o)) fill.
Proof. unfold fill. repeat (constructor; [in_world|]). constructor. Qed.

Lemma full_sound : sound full.
Proof.
  apply (run_cells (codec := ReferenceCodec.codec) reference_codec_laws
           fill emptyStore full).
  - apply sound_new. reflexivity.
  - exact fill_in_world.
  - vm_compute. reflexivity.
Qed.

Lemma map_file_names_distinct_witness :
  (twoDigits 25 /\ twoDigits 3 /\ twoDigits 3 /\ twoDigits 25
   /\ (25, 3) <> (3, 25))
  /\ mapFileName 25 3 <> mapFileName 3 25.
Proof.
  assert (H : twoDigits 25 /\ twoDigits 3 /\ twoDigits 3 /\ twoDigits 25
              /\ (25, 3) <> (3, 25))
    by (unfold twoDigits; repeat split; try lia; discriminate).
  split; [exact H|].
  destruct H as (H1 & H2 & H3 & H4 & H5).
  exact (map_file_names_distinct 25 3 3 25 H1 H2 H3 H4 H5).
Defined.

Lemma last_write_wins_witness :
  (denied {| files := ∅; denied := ∅ |} = ∅
   /\ Forall (fun o => opInWorld (fst o)) ([(OpSetShape 0 0 0 9, 1)] ++ fill)
   /\ inWorld 800 /\ inWorld 0 /\ 0 <= 3 < SECTION_Z_SIZE
   /\ GoInt.in_range 7 /\ 7 <> -1
   /\ Forall (fun o => writes 800 0 3 (fst o) = false) fill
   /\ run (codec := ReferenceCodec.codec) emptyStore
        ([(OpSetShape 0 0 0 9, 1)] ++ (OpSetShape 800 0 3 7, 2) :: fill)
      = (fst (run (codec := ReferenceCodec.codec) emptyStore
                ([(OpSetShape 0 0 0 9, 1)]
                   ++ (OpSetShape 800 0 3 7, 2) :: fill)), Done tt))
  /\ snd (GetShape (codec := ReferenceCodec.codec)
            (fst (run (codec := ReferenceCodec.codec) emptyStore
                    ([(OpSetShape 0 0 0 9, 1)]
                       ++ (OpSetShape 800 0 3 7, 2) :: fill))) 800 0 3 20)
     = Done (7, true).
Proof.
  assert (H : denied {| files := ∅; denied := ∅ |} = ∅
   /\ Forall (fun o => opInWorld (fst o)) ([(OpSetShape 0 0 0 9, 1)] ++ fill)
   /\ inWorld 800 /\ inWorld 0 /\ 0 <= 3 < SECTION_Z_SIZE
   /\ GoInt.in_range 7 /\ 7 <> -1
   /\ Forall (fun o => writes 800 0 3 (fst o) = false) fill
   /\ run (codec := ReferenceCodec.codec) emptyStore
        ([(OpSetShape 0 0 0 9, 1)] ++ (OpSetShape 800 0 3 7, 2) :: fill)
      = (fst (run (codec := ReferenceCodec.codec) emptyStore
                ([(OpSetShape 0 0 0 9, 1)]
                   ++ (OpSetShape 800 0 3 7, 2) :: fill)), Done tt)).
  { split; [reflexivity|].
    split; [constructor; [in_world|exact fill_in_world]|].
    split; [in_world|]. split; [in_world|]. split; [in_world|].
    split; [unfold GoInt.in_range, GoInt.min_int, GoInt.max_int; lia|].
    split; [lia|].
    split; [unfold fill; repeat (constructor; [reflexivity|]); constructor|].
    vm_compute. reflexivity. }
  split; [exact H|].
  destruct H as (H1 & H2 & H3 & H4 & H5 & H6 & H7 & H8 & H9).
  exact (last_write_wins (codec := ReferenceCodec.codec) reference_codec_laws
           _ "user" "game" RUNNER_MODE _ fill 800 0 3 7 2 20 _
           H1 H2 H3 H4 H5 H6 H7 H8 H9).
Defined.

(** The section in the first slot of the full cache: the one the next
    miss evicts. *)
Definition firstSection : Section_ :=
  setPositionAt {| secX := 0; secY := 0; position := ∅; edges := ∅ |}
    0 0 0 2.

Lemma evicted_section_reloads_witness :
  (sound full
   /\ twoDigits 4 /\ twoDigits 0
   /\ getSection (codec := ReferenceCodec.codec) full 4 0 20
      = (fst (getSection (codec := ReferenceCodec.codec) full 4 0 20), Done 0)
   /\ cache (sectionCache full) !! 0%nat = Some (Some firstSection)
   /\ (forall j,
         cache (sectionCache
                  (fst (getSection (codec := ReferenceCodec.codec)
                          full 4 0 20))) !! j
         <> Some (Some firstSection)))
  /\ load (codec := ReferenceCodec.codec)
       (fst (getSection (codec := ReferenceCodec.codec) full 4 0 20)) 0 0
     = inl firstSection.
Proof.
  assert (H : sound full
   /\ twoDigits 4 /\ twoDigits 0
   /\ getSection (codec := ReferenceCodec.codec) full 4 0 20
      = (fst (getSection (codec := ReferenceCodec.codec) full 4 0 20), Done 0)
   /\ cache (sectionCache full) !! 0%nat = Some (Some firstSection)
   /\ (forall j,
         cache (sectionCache
                  (fst (getSection (codec := ReferenceCodec.codec)
                          full 4 0 20))) !! j
         <> Some (Some firstSection))).
  { split; [exact full_sound|].
    split; [unfold twoDigits; lia|]. split; [unfold twoDigits; lia|].
    split; [vm_compute; reflexivity|].
    split; [vm_compute; reflexivity|].
    intros j Hj.
    destruct j as [|[|[|[|j]]]]; vm_compute in Hj; discriminate Hj. }
  split; [exact H|].
  destruct H as (H1 & H2 & H3 & H4 & H5 & H6).
  exact (evicted_section_reloads (codec := ReferenceCodec.codec)
           reference_codec_laws full _ 4 0 20 0 0%nat firstSection
           H1 H2 H3 H4 H5 H6).
Defined.

Lemma SaveAll_then_restart_witness :
  (sound full
   /\ inWorld 0 /\ inWorld 0 /\ 0 <= 0 < SECTION_Z_SIZE)
  /\ exists l',
       SaveAll (codec := ReferenceCodec.codec) full = (l', None)
       /\ sectionCache l' = sectionCache full
       /\ observer l' = observer full
       /\ snd (GetShape (codec := ReferenceCodec.codec)
                 (SetIoMode (NewLoader (disk l') (userDir l') (gameDir l'))
                    (ioMode l')) 0 0 0 30)
          = snd (GetShape (codec := ReferenceCodec.codec) full 0 0 0 30)
       /\ snd (GetEdge (codec := ReferenceCodec.codec)
                 (SetIoMode (NewLoader (disk l') (userDir l') (gameDir l'))
                    (ioMode l')) 0 0 30)
          = snd (GetEdge (codec := ReferenceCodec.codec) full 0 0 30).
Proof.
  assert (H : sound full
              /\ inWorld 0 /\ inWorld 0 /\ 0 <= 0 < SECTION_Z_SIZE).
  { split; [exact full_sound|]. repeat split; in_world. }
  split; [exact H|].
  destruct H as (H1 & H2 & H3 & H4).
  exact (SaveAll_then_restart (codec := ReferenceCodec.codec)
           reference_codec_laws full 0 0 0 30 H1 H2 H3 H4).
Defined.

(** The restarted loader of the witness reads the shape back. *)
Example restart_reads_back :
  snd (GetShape (codec := ReferenceCodec.codec)
         (SetIoMode
            (NewLoader
               (disk (fst (SaveAll (codec := ReferenceCodec.codec) full)))
               "user" "game") RUNNER_MODE) 0 0 0 30)
  = Done (1, true).
Proof. vm_compute. reflexivity. Qed.

End WorldMapRuns.

(** ** Directions *)
Module DirectionFacts.
Import Direction.

(** X16: [GetDelta] after [GetDir].  For a step of at most one cell on
    each axis [GetDelta (GetDir dx dy)] is the step again; any other pair
    maps to [DIR_NONE] and comes back as [(0, 0)]. *)
Theorem GetDelta_GetDir (dx dy : Z) :
  GetDelta (GetDir dx dy)
  = if (Z.abs dx <=? 1) && (Z.abs dy <=? 1) then (dx, dy) else (0, 0).
Proof.
  unfold GetDir, DIR_W, DIR_SW, DIR_S, DIR_SE, DIR_E, DIR_NE, DIR_N,
    DIR_NW, DIR_NONE.
  destruct (Z.eqb_spec dx 1), (Z.eqb_spec dx (-1)), (Z.eqb_spec dx 0),
    (Z.eqb_spec dy 1), (Z.eqb_spec dy (-1)), (Z.eqb_spec dy 0);
    subst; try lia; cbn; try reflexivity;
    repeat match goal with
           | |- context [Z.abs ?a <=? 1] => destruct (Z.leb_spec (Z.abs a) 1)
           end; cbn; try reflexivity; lia.
Qed.

(** X17: [GetDir] after [GetDelta].  The nine directions 0..8 are the
    fixed points of [GetDir] after [GetDelta]; every other value of the
    type comes back as [DIR_NONE]. *)
Theorem GetDir_GetDelta (dir : Z) :
  GetDir (fst (GetDelta dir)) (snd (GetDelta dir))
  = if (0 <=? dir) && (dir <=? 8) then dir else DIR_NONE.
Proof.
  unfold GetDelta, DIR_W, DIR_SW, DIR_S, DIR_SE, DIR_E, DIR_NE, DIR_N,
    DIR_NW, DIR_NONE.
  destruct (Z.eqb_spec dir 0), (Z.eqb_spec dir 1), (Z.eqb_spec dir 2),
    (Z.eqb_spec dir 3), (Z.eqb_spec dir 4), (Z.eqb_spec dir 5),
    (Z.eqb_spec dir 6), (Z.eqb_spec dir 7);
    subst; try lia; cbn; try reflexivity.
  destruct (Z.leb_spec 0 dir), (Z.leb_spec dir 8); cbn; try reflexivity.
  unfold DIR_NONE. lia.
Qed.

End DirectionFacts.

(** ** The cells of the window *)
Module CellFacts.
Import Gfx.

(** X9: the visible part of the window is all of it.  [isVisibleViewPos]
    accepts exactly the columns of the window (the drawn half-width is
    half the window) at every level from 0 up, so a cell is valid exactly
    when it is visible and below the top level. *)
Theorem valid_is_visible_below_top (viewX viewY viewZ : Z) :
  (isVisibleViewPos viewX viewY viewZ = true
   <-> 0 <= viewX < SIZE /\ 0 <= viewY < SIZE /\ 0 <= viewZ)
  /\ isValidViewPos viewX viewY viewZ
     = isVisibleViewPos viewX viewY viewZ
       && (viewZ <? World.SECTION_Z_SIZE).
Proof.
  unfold isVisibleViewPos, isValidViewPos, SIZE, DRAW_SIZE,
    World.SECTION_Z_SIZE, GoInt.div.
  change (Z.quot 96 2) with 48. split.
  - rewrite !andb_true_iff, !Z.leb_le, !Z.ltb_lt. lia.
  - repeat match goal with
           | |- context [?a <=? ?b] => destruct (Z.leb_spec a b)
           | |- context [?a <? ?b] => destruct (Z.ltb_spec a b)
           end; cbn; try reflexivity; lia.
Qed.

Lemma fold_left_flat_map {A B S : Type} (fn : S -> B -> S) (g : A -> list B)
    (l : list A) (s : S) :
  fold_left fn (flat_map g l) s
  = fold_left (fun acc a => fold_left fn (g a) acc) l s.
Proof.
  revert s. induction l as [|a l IH]; intros s; simpl; [reflexivity|].
  rewrite fold_left_app. apply IH.
Qed.

Lemma fold_left_map {A B S : Type} (fn : S -> B -> S) (g : A -> B)
    (l : list A) (s : S) :
  fold_left fn (map g l) s = fold_left (fun acc a => fn acc (g a)) l s.
Proof.
  revert s. induction l as [|a l IH]; intros s; simpl; [reflexivity|apply IH].
Qed.

Lemma fold_left_ext_in {A S : Type} (f1 f2 : S -> A -> S) (l : list A)
    (s : S) :
  (forall acc a, In a l -> f1 acc a = f2 acc a) ->
  fold_left f1 l s = fold_left f2 l s.
Proof.
  revert s. induction l as [|a l IH]; intros s H; simpl; [reflexivity|].
  rewrite H by (left; reflexivity). apply IH.
  intros acc b Hb. apply H. right. exact Hb.
Qed.

(** The cells of a box, in the order of three nested loops. *)
Definition box3 (xs ys zs : list Z) : list Ref :=
  flat_map (fun x => flat_map (fun y => map (fun z => (x, y, z)) zs) ys) xs.

Lemma elem_of_box3 (xs ys zs : list Z) (x y z : Z) :
  (x, y, z) ∈ box3 xs ys zs <-> x ∈ xs /\ y ∈ ys /\ z ∈ zs.
Proof.
  unfold box3. rewrite !list_elem_of_In, in_flat_map. split.
  - intros (a & Ha & H). apply in_flat_map in H as (b & Hb & H).
    apply in_map_iff in H as (c & [= <- <- <-] & Hc). auto.
  - intros (Hx & Hy & Hz). exists x. split; [exact Hx|].
    apply in_flat_map. exists y. split; [exact Hy|].
    apply in_map. exact Hz.
Qed.

Lemma NoDup_flat_map {A B : Type} (g : A -> list B) (l : list A) :
  NoDup l -> (forall a, a ∈ l -> NoDup (g a)) ->
  (forall a a' b, a ∈ l -> a' ∈ l -> b ∈ g a -> b ∈ g a' -> a = a') ->
  NoDup (flat_map g l).
Proof.
  induction l as [|a l IH]; intros Hnd Hg Hdisj; simpl; [constructor|].
  apply NoDup_cons in Hnd as [Ha Hnd].
  apply NoDup_app. split; [apply Hg; left|]. split.
  - intros b Hb Hin. apply list_elem_of_In, in_flat_map in Hin as (a' & Ha' & Hb').
    apply list_elem_of_In in Ha', Hb'.
    assert (a = a') by (eapply Hdisj; [left | right; exact Ha' | exact Hb | exact Hb']).
    subst a'. contradiction.
  - apply IH; [exact Hnd | intros; apply Hg; right; assumption |].
    intros a1 a2 b H1 H2. apply Hdisj; right; assumption.
Qed.

Lemma NoDup_box3 (xs ys zs : list Z) :
  NoDup xs -> NoDup ys -> NoDup zs -> NoDup (box3 xs ys zs).
Proof.
  intros Hx Hy Hz. unfold box3. apply NoDup_flat_map; [exact Hx| |].
  - intros x _. apply NoDup_flat_map; [exact Hy| |].
    + intros y _. apply NoDup_fmap_2; [|exact Hz]. intros a b [= ->]. reflexivity.
    + intros y y' b _ _ H1 H2.
      apply list_elem_of_In, in_map_iff in H1 as (c & <- & _).
      apply list_elem_of_In, in_map_iff in H2 as (c' & [= -> _] & _). reflexivity.
  - intros x x' b _ _ H1 H2.
    apply list_elem_of_In, in_flat_map in H1 as (y & _ & H1).
    apply in_map_iff in H1 as (c & <- & _).
    apply list_elem_of_In, in_flat_map in H2 as (y' & _ & H2).
    apply in_map_iff in H2 as (c' & [= -> _ _] & _). reflexivity.
Qed.

(** Three nested loops are one pass over the box. *)
Lemma forRange3 {S : Type} (x0 x1 y0 y1 z0 z1 : Z)
    (fx : Z -> Z -> Z -> S -> S) (s : S) :
  forRange x0 x1 (fun x =>
    forRange y0 y1 (fun y => forRange z0 z1 (fun z => fx x y z))) s
  = fold_left (fun acc r => let '(x, y, z) := r in fx x y z acc)
      (box3 (seqZ x0 (x1 - x0)) (seqZ y0 (y1 - y0)) (seqZ z0 (z1 - z0))) s.
Proof.
  unfold forRange, box3. rewrite fold_left_flat_map.
  apply fold_left_ext_in. intros acc x _.
  rewrite fold_left_flat_map. apply fold_left_ext_in. intros acc' y _.
  rewrite fold_left_map. reflexivity.
Qed.

(** X10: [traverse] calls its callback once on every cell of the window
    and on nothing else: its effect on the state of the callback is one
    pass over a list that holds each valid view position exactly once. *)
Theorem traverse_visits_each_cell_once :
  exists cells : list Ref,
    NoDup cells
    /\ (forall x y z, (x, y, z) ∈ cells <-> isValidViewPos x y z = true)
    /\ forall (S : Type) (fx : Z -> Z -> Z -> S -> S) (s : S),
         traverse fx s
         = fold_left (fun acc r => let '(x, y, z) := r in fx x y z acc)
             cells s.
Proof.
  exists (box3 (seqZ 0 SIZE) (seqZ 0 SIZE) (seqZ 0 World.SECTION_Z_SIZE)).
  split; [apply NoDup_box3; apply NoDup_seqZ|]. split.
  - intros x y z. rewrite elem_of_box3, !elem_of_seqZ.
    rewrite WindowFacts.isValidViewPos_spec.
    unfold SIZE, World.SECTION_Z_SIZE. lia.
  - intros S fx s. unfold traverse. rewrite forRange3.
    rewrite !Z.sub_0_r. reflexivity.
Qed.

(** X11: [traverseForDraw] calls its callback once on every cell of the
    middle 48 by 48 columns of the window, all of them valid view
    positions, and on nothing else. *)
Theorem traverseForDraw_visits_the_middle :
  exists cells : list Ref,
    NoDup cells
    /\ (forall x y z,
          (x, y, z) ∈ cells
          <-> 24 <= x < 72 /\ 24 <= y < 72 /\ 0 <= z < 24)
    /\ (forall x y z, (x, y, z) ∈ cells -> isValidViewPos x y z = true)
    /\ forall (S : Type) (fx : Z -> Z -> Z -> S -> S) (s : S),
         traverseForDraw fx s
         = fold_left (fun acc r => let '(x, y, z) := r in fx x y z acc)
             cells s.
Proof.
  exists (box3 (seqZ 24 48) (seqZ 24 48) (seqZ 0 24)).
  assert (Hin : forall x y z,
            (x, y, z) ∈ box3 (seqZ 24 48) (seqZ 24 48) (seqZ 0 24)
            <-> 24 <= x < 72 /\ 24 <= y < 72 /\ 0 <= z < 24)
    by (intros x y z; rewrite elem_of_box3, !elem_of_seqZ; lia).
  split; [apply NoDup_box3; apply NoDup_seqZ|]. split; [exact Hin|]. split.
  - intros x y z Hc. apply Hin in Hc.
    apply WindowFacts.isValidViewPos_spec. lia.
  - intros S fx s. unfold traverseForDraw.
    rewrite (forRange3 (GoInt.div (- DRAW_SIZE) 2) (GoInt.div DRAW_SIZE 2)
               (GoInt.div (- DRAW_SIZE) 2) (GoInt.div DRAW_SIZE 2)
               0 World.SECTION_Z_SIZE
               (fun x y z => fx (GoInt.add x (GoInt.div SIZE 2))
                                (GoInt.add y (GoInt.div SIZE 2)) z)).
    change (GoInt.div (- DRAW_SIZE) 2) with (-24).
    change (GoInt.div DRAW_SIZE 2) with 24.
    change (GoInt.div SIZE 2) with 48.
    change (24 - -24) with 48. change (World.SECTION_Z_SIZE - 0) with 24.
    unfold box3.
    rewrite !fold_left_flat_map.
    replace (seqZ 24 48) with (map (fun x => x + 48) (seqZ (-24) 48))
      by reflexivity.
    rewrite fold_left_map. apply fold_left_ext_in. intros acc x Hx.
    rewrite !fold_left_flat_map. rewrite fold_left_map.
    apply fold_left_ext_in. intros acc' y Hy.
    rewrite !fold_left_map. apply fold_left_ext_in. intros acc'' z _.
    apply list_elem_of_In, elem_of_seqZ in Hx, Hy.
    unfold GoInt.add.
    rewrite !GoIntFacts.wrap_id
      by (unfold GoInt.in_range, GoInt.min_int, GoInt.max_int; lia).
    reflexivity.
Qed.

End CellFacts.

(** ** The list helpers of the path finder *)
Module ListFacts.
Import Gfx.

Lemma snoc_case {A : Type} (l : list A) :
  l = [] \/ exists l' y, l = l' ++ [y].
Proof. induction l as [|y l' _] using rev_ind; eauto. Qed.

(** The swaps of [reverse] on the middle part [m] of the slice, with [i]
    elements done on either side. *)
Lemma reverseLoop_middle (n : nat) (a m b : list PathStep) :
  length a = length b -> n = (length m / 2)%nat ->
  reverseLoop n (length a) (a ++ m ++ b) = a ++ rev m ++ b.
Proof.
  revert a m b. induction n as [|n IH]; intros a m b Hab Hn.
  - assert (Hm : (length m < 2)%nat)
      by (apply Nat.div_small_iff; [lia|symmetry; exact Hn]).
    simpl. destruct m as [|x [|y m]]; try reflexivity. simpl in Hm. lia.
  - destruct m as [|x m]; [discriminate|].
    destruct (snoc_case m) as [->|(m' & y & ->)]; [discriminate|].
    assert (Hn' : n = (length m' / 2)%nat).
    { assert (Hl : length (x :: m' ++ [y]) = (length m' + 1 * 2)%nat)
        by (simpl; rewrite length_app; simpl; lia).
      rewrite Hl, Nat.div_add in Hn by lia. lia. }
    cbn [reverseLoop].
    assert (Hi : (a ++ (x :: m' ++ [y]) ++ b) !! length a = Some x).
    { rewrite lookup_app_r by lia. rewrite Nat.sub_diag. reflexivity. }
    assert (Hlen : (length (a ++ (x :: m' ++ [y]) ++ b) - length a - 1
                    = length a + S (length m'))%nat).
    { rewrite !length_app. simpl. rewrite length_app. simpl. lia. }
    rewrite Hlen.
    assert (Hj : (a ++ (x :: m' ++ [y]) ++ b) !! (length a + S (length m'))%nat
                 = Some y).
    { rewrite lookup_app_r by lia.
      replace (length a + S (length m') - length a)%nat
        with (S (length m')) by lia.
      simpl. rewrite <- app_assoc. rewrite lookup_app_r by lia.
      rewrite Nat.sub_diag. reflexivity. }
    rewrite Hi, Hj.
    assert (Hswap : <[(length a + S (length m'))%nat := x]>
                      (<[length a := y]> (a ++ (x :: m' ++ [y]) ++ b))
                    = (a ++ [y]) ++ m' ++ ([x] ++ b)).
    { rewrite insert_app_r_alt by lia. rewrite Nat.sub_diag. simpl.
      rewrite insert_app_r_alt by lia.
      replace (length a + S (length m') - length a)%nat
        with (S (length m')) by lia.
      simpl. rewrite <- !app_assoc.
      rewrite insert_app_r_alt by lia. rewrite Nat.sub_diag. simpl.
      reflexivity. }
    rewrite Hswap.
    replace (S (length a)) with (length (a ++ [y]))
      by (rewrite length_app; simpl; lia).
    rewrite IH; [| rewrite !length_app; simpl; lia | exact Hn'].
    simpl. rewrite rev_app_distr. simpl. rewrite <- !app_assoc. reflexivity.
Qed.

(** X12: the swap loop of [reverse] reverses.  Exchanging [nodes[i]] and
    [nodes[len - i - 1]] for [i] below half the length, in place, leaves
    the slice in reverse order, for every length, odd or even. *)
Theorem reverse_swaps_reverse (nodes : list PathStep) :
  reverseInPlace nodes = reverse nodes
  /\ length (reverseInPlace nodes) = length nodes
  /\ forall i, (i < length nodes)%nat ->
       reverseInPlace nodes !! i = nodes !! (length nodes - i - 1)%nat.
Proof.
  assert (H : reverseInPlace nodes = rev nodes).
  { unfold reverseInPlace.
    pose proof (reverseLoop_middle (length nodes / 2) [] nodes []
                  eq_refl eq_refl) as H.
    simpl in H. rewrite !app_nil_r in H. exact H. }
  rewrite H. split; [reflexivity|]. split; [apply length_rev|].
  intros i Hi. rewrite rev_alt.
  replace (length nodes - i - 1)%nat with (length nodes - S i)%nat by lia.
  rewrite <- (reverse_lookup nodes i Hi). reflexivity.
Qed.

Lemma remove_of_middle (a b : list Ref) (x l : Ref) :
  remove (a ++ x :: b ++ [l]) (length a) = a ++ l :: b.
Proof.
  unfold remove. rewrite !app_comm_cons, app_assoc, last_snoc.
  rewrite <- app_assoc, <- app_comm_cons.
  rewrite insert_app_r_alt by lia. rewrite Nat.sub_diag. simpl.
  replace (length (a ++ x :: b ++ [l]) - 1)%nat
    with (length (a ++ l :: b)).
  - rewrite app_comm_cons, app_assoc. apply take_app_length.
  - rewrite !length_app. simpl. rewrite length_app. simpl. lia.
Qed.

Lemma remove_of_last (a : list Ref) (x : Ref) :
  remove (a ++ [x]) (length a) = a.
Proof.
  unfold remove. rewrite last_snoc.
  rewrite insert_app_r_alt by lia. rewrite Nat.sub_diag. simpl.
  replace (length (a ++ [x]) - 1)%nat with (length a)
    by (rewrite length_app; simpl; lia).
  apply take_app_length.
Qed.

(** X13: [remove] takes out the element at the index, up to order.  For
    an index inside the slice, the result is one shorter and the slice is
    a permutation of the removed element followed by the result: the last
    element moves into the gap, no element is lost or repeated. *)
Theorem remove_takes_one_out (s : list Ref) (i : nat) :
  (i < length s)%nat ->
  exists x,
    s !! i = Some x
    /\ length (remove s i) = (length s - 1)%nat
    /\ s ≡ₚ x :: remove s i
    /\ (forall j, (j < length s - 1)%nat -> j <> i ->
          remove s i !! j = s !! j).
Proof.
  intros Hi. destruct (lookup_lt_is_Some_2 s i Hi) as [x Hx].
  exists x. split; [exact Hx|].
  pose proof (take_drop_middle s i x Hx) as Hs.
  assert (Hla : length (take i s) = i) by (rewrite length_take; lia).
  remember (take i s) as a eqn:Ha. clear Ha.
  remember (drop (S i) s) as d eqn:Hd. clear Hd. subst s i. clear Hi Hx.
  destruct (snoc_case d) as [->|(b & l & ->)].
  - rewrite remove_of_last. rewrite length_app. simpl.
    split; [lia|]. split.
    + symmetry. apply Permutation_cons_append.
    + intros j Hj Hne. rewrite lookup_app_l by lia. reflexivity.
  - rewrite remove_of_middle. rewrite !length_app. simpl.
    rewrite length_app. simpl. split; [lia|]. split.
    + rewrite <- Permutation_middle. apply perm_skip.
      apply Permutation_app_head. symmetry. apply Permutation_cons_append.
    + intros j Hj Hne. destruct (decide (j < length a)%nat).
      * rewrite !lookup_app_l by lia. reflexivity.
      * rewrite !lookup_app_r by lia.
        replace (j - length a)%nat with (S (j - length a - 1)) by lia.
        simpl. rewrite lookup_app_l by lia. reflexivity.
Qed.

End ListFacts.

(** ** What the blocker search finds *)
Module BlockerFacts.
Import Gfx.

(** The cell the search looks at for one offset. *)
Definition probed (x y z : Z) (o : Z * Z * Z) : Ref :=
  let '(ox, oy, oz) := o in (GoInt.sub x ox, GoInt.sub y oy, GoInt.sub z oz).

Lemma searchOffsets_spec (ox oy oz : Z) :
  In (ox, oy, oz) searchOffsets
  <-> 0 <= ox < SEARCH_SIZE /\ 0 <= oy < SEARCH_SIZE /\ 0 <= oz < SEARCH_SIZE.
Proof.
  unfold searchOffsets. rewrite in_flat_map. split.
  - intros (a & Ha & Hin). apply in_flat_map in Hin as (b & Hb & Hin).
    apply in_map_iff in Hin as (c & [= <- <- <-] & Hc).
    apply list_elem_of_In, elem_of_seqZ in Ha, Hb, Hc. lia.
  - intros (Hx & Hy & Hz). exists ox.
    split; [apply list_elem_of_In, elem_of_seqZ; lia|].
    apply in_flat_map. exists oy.
    split; [apply list_elem_of_In, elem_of_seqZ; lia|].
    apply in_map. apply list_elem_of_In, elem_of_seqZ. lia.
Qed.

Lemma searchFrom_hit (v : View) (x y z : Z)
    (fx : Ref -> SectionPosition -> option bool)
    (offsets : list (Z * Z * Z)) (r : Ref) :
  searchFrom v x y z fx offsets = Some (Some r) ->
  exists o p,
    In o offsets /\ r = probed x y z o
    /\ PathFacts.validRef r
    /\ pos (blockPos v r) = Some p /\ 0 < Block p /\ fx r p = Some true.
Proof.
  induction offsets as [|[[ox oy] oz] rest IH]; cbn [searchFrom];
    [intros Hs; discriminate Hs|].
  set (r0 := (GoInt.sub x ox, GoInt.sub y oy, GoInt.sub z oz)).
  assert (Hrest : searchFrom v x y z fx rest = Some (Some r) ->
            exists o p,
              In o ((ox, oy, oz) :: rest) /\ r = probed x y z o
              /\ PathFacts.validRef r
              /\ pos (blockPos v r) = Some p /\ 0 < Block p
              /\ fx r p = Some true).
  { intros Hs. destruct (IH Hs) as (o & p & Ho & Hrest).
    exists o, p. split; [right; exact Ho|exact Hrest]. }
  destruct (isValidViewPos _ _ _) eqn:Hv; [|exact Hrest].
  destruct (pos (blockPos v r0)) as [p|] eqn:Hp; [|intros Hs; discriminate Hs].
  destruct (0 <? Block p) eqn:Hb; [|exact Hrest].
  destruct (fx r0 p) as [[|]|] eqn:Hfx;
    [|exact Hrest|intros Hs; discriminate Hs].
  intros [= <-]. exists (ox, oy, oz), p.
  split; [left; reflexivity|]. split; [reflexivity|].
  split; [exact Hv|]. split; [exact Hp|]. split; [lia|exact Hfx].
Qed.

Lemma searchFrom_miss (v : View) (x y z : Z)
    (fx : Ref -> SectionPosition -> option bool)
    (offsets : list (Z * Z * Z)) :
  searchFrom v x y z fx offsets = Some None ->
  forall o, In o offsets -> PathFacts.validRef (probed x y z o) ->
    exists p, pos (blockPos v (probed x y z o)) = Some p
              /\ (0 < Block p -> fx (probed x y z o) p = Some false).
Proof.
  induction offsets as [|[[ox oy] oz] rest IH]; cbn [searchFrom];
    [intros _ o []|].
  set (r0 := (GoInt.sub x ox, GoInt.sub y oy, GoInt.sub z oz)).
  intros Hs o [<-|Ho] Hvalid.
  - change (probed x y z (ox, oy, oz)) with r0 in *.
    unfold PathFacts.validRef, r0 in Hvalid. rewrite Hvalid in Hs.
    fold r0 in Hs.
    destruct (pos (blockPos v r0)) as [p|]; [|discriminate Hs].
    exists p. split; [reflexivity|]. intros Hb.
    apply Z.ltb_lt in Hb. rewrite Hb in Hs.
    destruct (fx r0 p) as [[|]|]; [discriminate Hs|reflexivity|discriminate Hs].
  - apply IH; try assumption.
    destruct (isValidViewPos _ _ _); [|exact Hs].
    destruct (pos (blockPos v r0)) as [p|]; [|discriminate Hs].
    destruct (0 <? Block p); [|exact Hs].
    destruct (fx r0 p) as [[|]|]; [discriminate Hs|exact Hs|discriminate Hs].
Qed.

Lemma search_hit (v : View) (x y z : Z)
    (fx : Ref -> SectionPosition -> option bool) (r : Ref) :
  search v x y z fx = Some (Some r) ->
  exists o p,
    In o searchOffsets /\ r = probed x y z o
    /\ PathFacts.validRef r
    /\ pos (blockPos v r) = Some p /\ 0 < Block p /\ fx r p = Some true.
Proof. apply searchFrom_hit. Qed.

Lemma search_miss (v : View) (x y z : Z)
    (fx : Ref -> SectionPosition -> option bool) :
  search v x y z fx = Some None ->
  forall o, In o searchOffsets -> PathFacts.validRef (probed x y z o) ->
    exists p, pos (blockPos v (probed x y z o)) = Some p
              /\ (0 < Block p -> fx (probed x y z o) p = Some false).
Proof. apply searchFrom_miss. Qed.

Section Blockers.
Variable intersect : BoundingBox -> BoundingBox -> bool.
Variable Shapes : list (option Shape).

(** The call of [GetBlocker] goes through to the search: the mover's
    cell [src] holds a shape and the target is the window cell
    [(tx, ty, tz)]. *)
Definition searching (v : View) (toWorldX toWorldY toWorldZ : Z)
    (src : Ref) (tx ty tz : Z) : Prop :=
  start (context v) = Some src
  /\ (exists sp, pos (blockPos v src) = Some sp /\ Block sp <> 0)
  /\ toViewPos v toWorldX toWorldY toWorldZ = (tx, ty, tz, true).

(** The box of the mover, moved to the target. *)
Definition movedBox (v : View) (src : Ref) (tx ty tz : Z) : BoundingBox :=
  SetPos (box (blockPos v src)) tx ty tz.

(** The cell the search reaches with the offset [o] from the far corner
    of the moved box. *)
Definition reached (v : View) (src : Ref) (tx ty tz : Z) (o : Z * Z * Z)
  : Ref :=
  probed (GoInt.add tx (W (box (blockPos v src))))
         (GoInt.add ty (H (box (blockPos v src))))
         (GoInt.add tz (D (box (blockPos v src)))) o.

Lemma GetBlocker_searching (v : View) (wx wy wz : Z) (res : option Ref) :
  GetBlocker intersect Shapes v wx wy wz = Some res ->
  res = None
  \/ exists src tx ty tz,
       searching v wx wy wz src tx ty tz
       /\ GetBlocker intersect Shapes v wx wy wz
          = getBlockerAt intersect Shapes v tx ty tz
              (box (blockPos v src)) (Some src).
Proof.
  unfold GetBlocker, searching.
  destruct (start (context v)) as [src|]; [|intros Hg; discriminate Hg].
  destruct (pos (blockPos v src)) as [sp|] eqn:Hsp;
    [|intros Hg; discriminate Hg].
  destruct (Block sp =? 0) eqn:Hb; [intros [= <-]; left; reflexivity|].
  destruct (toViewPos v wx wy wz) as [[[tx ty] tz] valid].
  destruct valid; cbn [negb]; [|intros [= <-]; left; reflexivity].
  intros _. right. exists src, tx, ty, tz.
  split; [|reflexivity]. split; [reflexivity|]. split; [|reflexivity].
  exists sp. split; [exact Hsp|]. apply Z.eqb_neq. exact Hb.
Qed.

Lemma GetBlocker_when_searching (v : View) (wx wy wz : Z) (src : Ref)
    (tx ty tz : Z) :
  searching v wx wy wz src tx ty tz ->
  GetBlocker intersect Shapes v wx wy wz
  = getBlockerAt intersect Shapes v tx ty tz
      (box (blockPos v src)) (Some src).
Proof.
  intros (Hstart & (sp & Hsp & Hb) & Hto). unfold GetBlocker.
  rewrite Hstart, Hsp, Hto. apply Z.eqb_neq in Hb. rewrite Hb.
  reflexivity.
Qed.

(** X14: what [GetBlocker] reports does block.  A cell it returns is a
    cell of the window that holds a shape, is not the mover's own cell,
    is not passed through, has a box that intersects the mover's box
    moved to the target, and lies less than 16 cells behind the far
    corner of that box on each axis. *)
Theorem GetBlocker_sound (v : View) (toWorldX toWorldY toWorldZ : Z)
    (b : Ref) :
  GetBlocker intersect Shapes v toWorldX toWorldY toWorldZ = Some (Some b) ->
  exists src tx ty tz o p,
    searching v toWorldX toWorldY toWorldZ src tx ty tz
    /\ In o searchOffsets /\ b = reached v src tx ty tz o
    /\ PathFacts.validRef b
    /\ pos (blockPos v b) = Some p /\ 0 < Block p
    /\ b <> src
    /\ passesThrough Shapes v p = Some false
    /\ intersect (box (blockPos v b)) (movedBox v src tx ty tz) = true.
Proof.
  intros Hg.
  destruct (GetBlocker_searching v _ _ _ _ Hg)
    as [Hn|(src & tx & ty & tz & Hs & Heq)]; [discriminate Hn|].
  rewrite Heq in Hg. clear Heq.
  rewrite DoorFacts.getBlockerAt_search in Hg.
  apply search_hit in Hg as (o & p & Ho & Hb & Hv & Hp & Hpos & Hfx).
  exists src, tx, ty, tz, o, p.
  split; [exact Hs|]. split; [exact Ho|]. split; [exact Hb|].
  split; [exact Hv|]. split; [exact Hp|]. split; [exact Hpos|].
  destruct (passesThrough Shapes v p) as [pt|]; [|discriminate Hfx].
  injection Hfx as Hfx.
  apply andb_true_iff in Hfx as [Hfx Hi].
  apply andb_true_iff in Hfx as [Hpt Hne].
  apply negb_true_iff in Hpt, Hne. apply bool_decide_eq_false in Hne.
  split; [congruence|]. split; [rewrite Hpt; reflexivity|exact Hi].
Qed.

(** X15: what [GetBlocker] does not report does not block, within its
    reach.  When the mover's cell holds a shape, the target is in the
    window and [GetBlocker] returns nil, no cell of the window less than
    16 cells behind the far corner of the moved box holds a shape that
    is solid, is not the mover and intersects the moved box. *)
Theorem GetBlocker_complete (v : View) (toWorldX toWorldY toWorldZ : Z)
    (src : Ref) (tx ty tz : Z) (o : Z * Z * Z) (p : SectionPosition) :
  GetBlocker intersect Shapes v toWorldX toWorldY toWorldZ = Some None ->
  searching v toWorldX toWorldY toWorldZ src tx ty tz ->
  In o searchOffsets ->
  let c := reached v src tx ty tz o in
  PathFacts.validRef c -> pos (blockPos v c) = Some p -> 0 < Block p ->
  c <> src -> passesThrough Shapes v p = Some false ->
  intersect (box (blockPos v c)) (movedBox v src tx ty tz) = false.
Proof.
  intros Hg Hs Ho c Hv Hp Hpos Hne Hpt.
  rewrite (GetBlocker_when_searching v _ _ _ src tx ty tz Hs) in Hg.
  rewrite DoorFacts.getBlockerAt_search in Hg.
  pose proof (search_miss v _ _ _ _ Hg o Ho Hv) as (p' & Hp' & Hfx).
  fold (reached v src tx ty tz o) in Hp', Hfx. fold c in Hp', Hfx.
  rewrite Hp in Hp'. injection Hp' as <-.
  specialize (Hfx Hpos). rewrite Hpt in Hfx. injection Hfx as Hfx.
  cbn [negb andb] in Hfx.
  rewrite bool_decide_eq_false_2 in Hfx by congruence.
  exact Hfx.
Qed.

End Blockers.
End BlockerFacts.

(** ** Runs on the sample window *)
Module BlockerRuns.
Import Gfx BlockerFacts ListFacts.

(** The mover of [SampleWindow.moverAndBlock] asks for the cell of the
    block next to it: the block is reported. *)
Lemma GetBlocker_sound_witness :
  GetBlocker SampleWindow.overlap SampleWindow.catalog
    (SampleWindow.startingAt SampleWindow.moverAndBlock (10, 10, 0))
    4963 4962 0 = Some (Some (11, 10, 0))
  /\ exists src tx ty tz o p,
       searching
         (SampleWindow.startingAt SampleWindow.moverAndBlock (10, 10, 0))
         4963 4962 0 src tx ty tz
       /\ In o searchOffsets
       /\ (11, 10, 0)
          = reached
              (SampleWindow.startingAt SampleWindow.moverAndBlock
                 (10, 10, 0)) src tx ty tz o
       /\ PathFacts.validRef (11, 10, 0)
       /\ pos (blockPos
                 (SampleWindow.startingAt SampleWindow.moverAndBlock
                    (10, 10, 0)) (11, 10, 0)) = Some p
       /\ 0 < Block p
       /\ (11, 10, 0) <> src
       /\ passesThrough SampleWindow.catalog
            (SampleWindow.startingAt SampleWindow.moverAndBlock
               (10, 10, 0)) p = Some false
       /\ SampleWindow.overlap
            (box (blockPos
                    (SampleWindow.startingAt SampleWindow.moverAndBlock
                       (10, 10, 0)) (11, 10, 0)))
            (movedBox
               (SampleWindow.startingAt SampleWindow.moverAndBlock
                  (10, 10, 0)) src tx ty tz) = true.
Proof.
  assert (Hg : GetBlocker SampleWindow.overlap SampleWindow.catalog
                 (SampleWindow.startingAt SampleWindow.moverAndBlock
                    (10, 10, 0))
                 4963 4962 0 = Some (Some (11, 10, 0)))
    by (vm_compute; reflexivity).
  split; [exact Hg|].
  exact (GetBlocker_sound SampleWindow.overlap SampleWindow.catalog
           _ 4963 4962 0 (11, 10, 0) Hg).
Defined.

(** The same mover asks for the cell in front of it, [(10, 11, 0)]:
    nothing is reported, and the block at [(11, 10, 0)], two cells behind
    the far corner of the moved box, does not meet that box. *)
Lemma GetBlocker_complete_witness :
  (GetBlocker SampleWindow.overlap SampleWindow.catalog
     (SampleWindow.startingAt SampleWindow.moverAndBlock (10, 10, 0))
     4962 4963 0 = Some None
   /\ searching
        (SampleWindow.startingAt SampleWindow.moverAndBlock (10, 10, 0))
        4962 4963 0 (10, 10, 0) 10 11 0
   /\ In (0, 2, 1) searchOffsets)
  /\ (reached (SampleWindow.startingAt SampleWindow.moverAndBlock
                 (10, 10, 0)) (10, 10, 0) 10 11 0 (0, 2, 1) = (11, 10, 0)
      /\ PathFacts.validRef (11, 10, 0)
      /\ pos (blockPos
                (SampleWindow.startingAt SampleWindow.moverAndBlock
                   (10, 10, 0)) (11, 10, 0)) = Some {| Block := 2 |}
      /\ 0 < Block {| Block := 2 |}
      /\ (11, 10, 0) <> (10, 10, 0)
      /\ passesThrough SampleWindow.catalog
           (SampleWindow.startingAt SampleWindow.moverAndBlock
              (10, 10, 0)) {| Block := 2 |} = Some false)
  /\ SampleWindow.overlap
       (box (blockPos
               (SampleWindow.startingAt SampleWindow.moverAndBlock
                  (10, 10, 0)) (11, 10, 0)))
       (movedBox
          (SampleWindow.startingAt SampleWindow.moverAndBlock
             (10, 10, 0)) (10, 10, 0) 10 11 0) = false.
Proof.
  assert (Hg : GetBlocker SampleWindow.overlap SampleWindow.catalog
                 (SampleWindow.startingAt SampleWindow.moverAndBlock
                    (10, 10, 0))
                 4962 4963 0 = Some None)
    by (vm_compute; reflexivity).
  assert (Hs : searching
                 (SampleWindow.startingAt SampleWindow.moverAndBlock
                    (10, 10, 0))
                 4962 4963 0 (10, 10, 0) 10 11 0).
  { split; [reflexivity|]. split; [|reflexivity].
    exists {| Block := 1 |}. split; [reflexivity|]. simpl. lia. }
  assert (Ho : In (0, 2, 1) searchOffsets)
    by (apply searchOffsets_spec; unfold SEARCH_SIZE; lia).
  assert (Hne : (11, 10, 0) <> (10, 10, 0)) by (intros Hc; discriminate Hc).
  split; [split; [exact Hg|split; [exact Hs|exact Ho]]|].
  split.
  { split; [reflexivity|]. split; [reflexivity|]. split; [reflexivity|].
    split; [simpl; lia|]. split; [exact Hne|reflexivity]. }
  exact (GetBlocker_complete SampleWindow.overlap SampleWindow.catalog
           _ 4962 4963 0 (10, 10, 0) 10 11 0 (0, 2, 1) {| Block := 2 |}
           Hg Hs Ho eq_refl eq_refl ltac:(simpl; lia) Hne eq_refl).
Defined.

(** Taking the first of three cells out of the open list. *)
Lemma remove_takes_one_out_witness :
  (0 < length [(1, 1, 0); (2, 2, 0); (3, 3, 0)])%nat
  /\ exists x,
       [(1, 1, 0); (2, 2, 0); (3, 3, 0)] !! 0%nat = Some x
       /\ length (remove [(1, 1, 0); (2, 2, 0); (3, 3, 0)] 0)
          = (length [(1, 1, 0); (2, 2, 0); (3, 3, 0)] - 1)%nat
       /\ [(1, 1, 0); (2, 2, 0); (3, 3, 0)]
          ≡ₚ x :: remove [(1, 1, 0); (2, 2, 0); (3, 3, 0)] 0
       /\ (forall j,
             (j < length [(1, 1, 0); (2, 2, 0); (3, 3, 0)] - 1)%nat ->
             j <> 0%nat ->
             remove [(1, 1, 0); (2, 2, 0); (3, 3, 0)] 0 !! j
             = [(1, 1, 0); (2, 2, 0); (3, 3, 0)] !! j).
Proof.
  assert (Hi : (0 < length [(1, 1, 0); (2, 2, 0); (3, 3, 0)])%nat)
    by (simpl; lia).
  split; [exact Hi|].
  exact (remove_takes_one_out [(1, 1, 0); (2, 2, 0); (3, 3, 0)] 0 Hi).
Defined.

End BlockerRuns.
